(** * Client-side behaviour of the portfolio page (script.js)

  A shallow embedding of the elastic grid background (the [Point] class,
  [initGrid], [resizeCanvas], [animate] and the pointer handlers) and of
  the contact-form submit handler, followed by the properties the
  specification states about them.

  Numbers.  JavaScript numbers are modelled as mathematical reals with
  exact arithmetic: rounding, overflow and signed zeros are outside the
  model [Renderer].  What is stated of an order or of a bound is stated
  with room for the rounding of the script's binary64 arithmetic, and
  module [Binary64] has the repulsion step over IEEE doubles, where an
  order that holds in exact arithmetic fails in the last digits.
  Integer-valued DOM attributes ([canvas.width], [Date.now()]) keep an
  integer type and are injected where the source does arithmetic on
  them.  Strings typed by the user are lists of UTF-16 code units.

  Effects.  The script works on global variables and DOM objects.  They
  are gathered in a state record, and the functions of the script are
  computations of a small state-and-exception monad: a dereference of
  [null] raises, exactly where the source would raise a TypeError. *)

From Stdlib Require Import Reals Lra Lia ZArith NArith QArith Qreals.
From Stdlib Require Import List String Ascii Bool Psatz.
From Stdlib Require PrimFloat SpecFloat FloatOps.
Import ListNotations.

Close Scope Q_scope.

Set Implicit Arguments.

(* ================================================================== *)
(** * State and exceptions *)

Module Eff.

Inductive completion (A : Type) : Type :=
| Normal (a : A)
| Thrown (e : string).
Arguments Thrown {A} e.

Definition M (S A : Type) : Type := S -> completion A * S.

Definition ret {S A} (a : A) : M S A := fun s => (Normal a, s).

Definition bind {S A B} (m : M S A) (k : A -> M S B) : M S B :=
  fun s => match m s with
           | (Normal a, s') => k a s'
           | (Thrown e, s') => (Thrown e, s')
           end.

Definition gets {S A} (f : S -> A) : M S A := fun s => (Normal (f s), s).

Definition modify {S} (f : S -> S) : M S unit := fun s => (Normal tt, f s).

Definition throw {S A} (e : string) : M S A := fun s => (Thrown e, s).

(** A value that may be [null] or [undefined]. *)
Definition truthy {A} (o : option A) : bool :=
  match o with Some _ => true | None => false end.

(** Property access on a possibly-null reference. *)
Definition deref {S A} (o : option A) : M S A :=
  match o with
  | Some a => ret a
  | None => throw "TypeError"%string
  end.

(** [try { body } catch (error) { handler }]. *)
Definition try_catch {S A} (body : M S A) (handler : string -> M S A) : M S A :=
  fun s => match body s with
           | (Normal a, s') => (Normal a, s')
           | (Thrown e, s') => handler e s'
           end.

(** [try { body } finally { final }]: [final] runs on both exits and an
    exception of [body] is re-raised after it. *)
Definition try_finally {S A} (body : M S A) (final : M S unit) : M S A :=
  fun s => match body s with
           | (Normal a, s') =>
               match final s' with
               | (Normal _, s'') => (Normal a, s'')
               | (Thrown e, s'') => (Thrown e, s'')
               end
           | (Thrown e, s') =>
               match final s' with
               | (Normal _, s'') => (Thrown e, s'')
               | (Thrown e', s'') => (Thrown e', s'')
               end
           end.

Definition exec {S A} (m : M S A) (s : S) : S := snd (m s).

Definition returns {S A} (m : M S A) (s : S) : Prop :=
  exists a, fst (m s) = Normal a.

End Eff.

Import Eff.

Declare Scope eff_scope.
Delimit Scope eff_scope with eff.
Notation "x <- m ;; k" := (bind m (fun x => k))
(at level 61, m at next level, right associativity) : eff_scope.
Notation "m ;;; k" := (bind m (fun _ => k))
(at level 61, right associativity) : eff_scope.

(* ================================================================== *)
(** * The functions of [Math] the script calls *)

Module JsMath.
Open Scope R_scope.

(** Comparison of two numbers, as a boolean. *)
Definition ltb (a b : R) : bool := if Rlt_dec a b then true else false.

(** [Math.atan2(y, x)]: the angle of the point [(x, y)] in (-PI, PI],
    and [0] at the origin, as ECMAScript fixes it for [(+0, +0)]. *)
Definition atan2 (y x : R) : R :=
  if Rlt_dec 0 x then atan (y / x)
  else if Rlt_dec x 0 then
         if Rle_dec 0 y then atan (y / x) + PI else atan (y / x) - PI
  else if Rlt_dec 0 y then PI / 2
  else if Rlt_dec y 0 then - (PI / 2)
  else 0.

(** [Math.ceil] on a number; the result is an integer. *)
Definition ceil (r : R) : Z := Zceil r.

(** [Math.abs]. *)
Definition abs (r : R) : R := Rabs r.

End JsMath.

(* ================================================================== *)
(** * Elastic grid network background *)

Module Renderer.
Open Scope R_scope.

Record Config : Type := mkConfig {
  spacing : R;
  baseSize : R;
  influence : R;
  force : R;
  damping : R;
  tension : R;
  color : string
}.

Definition config : Config := {|
  spacing := 40;
  baseSize := 2;
  influence := 150;
  force := 0.6;
  damping := 0.9;
  tension := 0.05;
  color := "99, 102, 241"
|}.

(** The value [mouseX] and [mouseY] start with and go back to when the
    pointer leaves the page. *)
Definition sentinel : R := -1000.

(** ** class Point *)

Record Point : Type := mkPoint {
  originX : R;
  originY : R;
  x : R;
  y : R;
  vx : R;
  vy : R
}.

(** [constructor(x, y)]. *)
Definition new_Point (x0 y0 : R) : Point :=
  {| originX := x0; originY := y0; x := x0; y := y0; vx := 0; vy := 0 |}.

(** [dx], [dy] and [distance] of [update]. *)
Definition cursor_distance (mouseX mouseY : R) (this : Point) : R :=
  let dx := mouseX - x this in
  let dy := mouseY - y this in
  sqrt (dx * dx + dy * dy).

(** The first block of [update] (mouse repulsion): the velocity
    [(vx, vy)] it leaves in the point.  The arithmetic is exact, so that
    [cos^2 + sin^2 = 1] and the size of the push depends on the distance
    alone; [Binary64.repel] is the same block over doubles, where that
    holds up to rounding only. *)
Definition repel (mouseX mouseY : R) (this : Point) : R * R :=
  let dx := mouseX - x this in
  let dy := mouseY - y this in
  let distance := sqrt (dx * dx + dy * dy) in
  if Rlt_dec distance (influence config) then
    let angle := JsMath.atan2 dy dx in
    let f := (influence config - distance) / influence config in
    (vx this - cos angle * f * force config,
     vy this - sin angle * f * force config)
  else (vx this, vy this).

(** [update()], with the three things it reads from outside as
    arguments: the cursor, the value [now] of [Date.now()], and the
    amplitude [amp] of the drift, which is the literal [5] of the
    source (see [update]). *)
Definition update_with (amp : R) (mouseX mouseY : R) (now : Z) (this : Point)
  : Point :=
  (* Mouse repulsion / Physics *)
  let '(vx1, vy1) := repel mouseX mouseY this in
  (* Ambient random movement *)
  let time := IZR now * 0.001 in
  let driftX := sin (time + originY this * 0.05) * amp in
  let driftY := cos (time + originX this * 0.05) * amp in
  (* Spring back to (origin + drift) *)
  let ox := (originX this + driftX) - x this in
  let oy := (originY this + driftY) - y this in
  let vx2 := vx1 + ox * tension config in
  let vy2 := vy1 + oy * tension config in
  (* Apply damping *)
  let vx3 := vx2 * damping config in
  let vy3 := vy2 * damping config in
  (* Move *)
  {| originX := originX this; originY := originY this;
     x := x this + vx3; y := y this + vy3;
     vx := vx3; vy := vy3 |}.

Definition update : R -> R -> Z -> Point -> Point := update_with 5.

(** What the repulsion block adds to the velocity, and the size of a
    vector. *)
Definition contribution (mouseX mouseY : R) (this : Point) : R * R :=
  (fst (repel mouseX mouseY this) - vx this,
   snd (repel mouseX mouseY this) - vy this).

Definition magnitude (v : R * R) : R :=
  sqrt (fst v * fst v + snd v * snd v).

(** The distance of a point to its anchor. *)
Definition anchor_distance (this : Point) : R :=
  magnitude (x this - originX this, y this - originY this).

(** [n] frames of one point with the cursor at rest at the sentinel and
    the drift switched off; [clock k] is [Date.now()] in frame [k].  In
    exact arithmetic the point comes closer to its anchor for ever; the
    doubles of the script follow it up to rounding and come to rest a
    hair's breadth (some [10^-13]) from the anchor, so bounds on such a
    run are stated with that much room. *)
Fixpoint idle_run (clock : nat -> Z) (n : nat) (p : Point) : Point :=
  match n with
  | O => p
  | S k => update_with 0 sentinel sentinel (clock k) (idle_run clock k p)
  end.

(** [n] frames of one point as the script animates it (drift included)
    while the cursor rests at the sentinel. *)
Fixpoint drift_run (clock : nat -> Z) (n : nat) (p : Point) : Point :=
  match n with
  | O => p
  | S k => update sentinel sentinel (clock k) (drift_run clock k p)
  end.

(** Frame [k] of that run finds the point outside the influence radius:
    its repulsion branch is not taken. *)
Definition unrepelled (clock : nat -> Z) (p : Point) (k : nat) : Prop :=
  influence config <= cursor_distance sentinel sentinel (idle_run clock k p).

(** The distance to the anchor goes down at every frame for as long as
    it has not been below [eps]. *)
Definition strictly_decreasing_until (eps : R) (clock : nat -> Z) (p : Point)
  : Prop :=
  forall n,
    (forall k, (k <= n)%nat -> eps <= anchor_distance (idle_run clock k p)) ->
    anchor_distance (idle_run clock (S n) p)
    < anchor_distance (idle_run clock n p).

(** The displacement and the velocity of an idle point along one axis,
    [n] frames after a start at displacement 1 and velocity 0. *)
Fixpoint spring_coef (n : nat) : R * R :=
  match n with
  | O => (1, 0)
  | S k =>
      let '(e, v) := spring_coef k in
      let v' := (v + (- e) * tension config) * damping config in
      (e + v', v')
  end.

(** A point anchored at the origin of the canvas and released at rest
    100 units to the right of it. *)
Definition released : Point :=
  {| originX := 0; originY := 0; x := 100; y := 0; vx := 0; vy := 0 |}.

(** The same recurrence on rationals, by which [spring_coef] is
    evaluated. *)
Fixpoint spring_coefQ (n : nat) : Q * Q :=
  match n with
  | O => (1, 0)%Q
  | S k =>
      let '(e, v) := spring_coefQ k in
      let v' := Qred ((v + (- e) * (5 # 100)) * (9 # 10))%Q in
      (Qred (e + v')%Q, v')
  end.

(** The quadratic form of displacement and velocity that one idle frame
    multiplies by [damping]. *)
Definition spring_energy (e v : R) : R :=
  0.045 * (e * e) + 0.055 * (e * v) + 0.9 * (v * v).

(** ** The same method in checked arithmetic

    On finite operands and short of overflow, IEEE arithmetic yields
    NaN or an infinity only from a division by zero or the square root
    of a negative number.  [update_checked] is [update] with these two
    operations checked: it stops with [None] at the first of them that
    would not yield a finite number. *)

Definition checked_div (a b : R) : option R :=
  if Req_dec_T b 0 then None else Some (a / b).

Definition checked_sqrt (a : R) : option R :=
  if Rlt_dec a 0 then None else Some (sqrt a).

Definition obind {A B} (o : option A) (k : A -> option B) : option B :=
  match o with Some a => k a | None => None end.

Definition repel_checked (mouseX mouseY : R) (this : Point) : option (R * R) :=
  let dx := mouseX - x this in
  let dy := mouseY - y this in
  obind (checked_sqrt (dx * dx + dy * dy)) (fun distance =>
  if Rlt_dec distance (influence config) then
    let angle := JsMath.atan2 dy dx in
    obind (checked_div (influence config - distance) (influence config))
      (fun f =>
         Some (vx this - cos angle * f * force config,
               vy this - sin angle * f * force config))
  else Some (vx this, vy this)).

Definition update_checked (mouseX mouseY : R) (now : Z) (this : Point)
  : option Point :=
  obind (repel_checked mouseX mouseY this) (fun '(vx1, vy1) =>
  let time := IZR now * 0.001 in
  let driftX := sin (time + originY this * 0.05) * 5 in
  let driftY := cos (time + originX this * 0.05) * 5 in
  let ox := (originX this + driftX) - x this in
  let oy := (originY this + driftY) - y this in
  let vx2 := vx1 + ox * tension config in
  let vy2 := vy1 + oy * tension config in
  let vx3 := vx2 * damping config in
  let vy3 := vy2 * damping config in
  Some {| originX := originX this; originY := originY this;
          x := x this + vx3; y := y this + vy3;
          vx := vx3; vy := vy3 |}).

(** ** The canvas, its 2D context and the globals *)

(** [canvas.width] and [canvas.height] are unsigned integers. *)
Record Canvas : Type := mkCanvas {
  width : N;
  height : N
}.

(** The calls made on the 2D context, and the assignments to its
    properties, in the order the script makes them. *)
Inductive Call : Type :=
| clearRect (x0 y0 w h : R)
| beginPath
| arc (x0 y0 r a0 a1 : R)
| fillStyle (s : string)
| fill
| moveTo (x0 y0 : R)
| lineTo (x0 y0 : R)
| strokeStyle (s : string)
| lineWidth (w : R)
| stroke.

Inductive Listener : Type :=
| on_resize
| on_mousemove
| on_mouseleave.

Record State : Type := mkState {
  canvas : option Canvas;
  ctx : option (list Call);
  points : list Point;
  mouseX : R;
  mouseY : R;
  listeners : list Listener;
  frames_requested : nat
}.

(** The globals as the first lines of the script leave them, for a page
    with or without the canvas element; [has2d] says whether
    [getContext('2d')] gives a context. *)
Definition initial (cv : option Canvas) (has2d : bool) : State := {|
  canvas := cv;
  ctx := match cv with
         | Some _ => if has2d then Some [] else None
         | None => None
         end;
  points := [];
  mouseX := sentinel;
  mouseY := sentinel;
  listeners := [];
  frames_requested := 0
|}.

Definition set_points (ps : list Point) (st : State) : State :=
  {| canvas := canvas st; ctx := ctx st; points := ps;
     mouseX := mouseX st; mouseY := mouseY st;
     listeners := listeners st; frames_requested := frames_requested st |}.

Definition set_canvas (cv : option Canvas) (st : State) : State :=
  {| canvas := cv; ctx := ctx st; points := points st;
     mouseX := mouseX st; mouseY := mouseY st;
     listeners := listeners st; frames_requested := frames_requested st |}.

Definition set_ctx (cx : option (list Call)) (st : State) : State :=
  {| canvas := canvas st; ctx := cx; points := points st;
     mouseX := mouseX st; mouseY := mouseY st;
     listeners := listeners st; frames_requested := frames_requested st |}.

Definition set_mouse (mx my : R) (st : State) : State :=
  {| canvas := canvas st; ctx := ctx st; points := points st;
     mouseX := mx; mouseY := my;
     listeners := listeners st; frames_requested := frames_requested st |}.

Definition add_listener (l : Listener) (st : State) : State :=
  {| canvas := canvas st; ctx := ctx st; points := points st;
     mouseX := mouseX st; mouseY := mouseY st;
     listeners := listeners st ++ [l];
     frames_requested := frames_requested st |}.

Definition consume_frame (st : State) : State :=
  {| canvas := canvas st; ctx := ctx st; points := points st;
     mouseX := mouseX st; mouseY := mouseY st;
     listeners := listeners st;
     frames_requested := pred (frames_requested st) |}.

Definition request_frame (st : State) : State :=
  {| canvas := canvas st; ctx := ctx st; points := points st;
     mouseX := mouseX st; mouseY := mouseY st;
     listeners := listeners st;
     frames_requested := S (frames_requested st) |}.

Open Scope eff_scope.

(** ** initGrid *)

(** The two nested loops: [i] from 0 while [i < cols], [j] from 0
    while [j < rows], pushing [new Point(x, y)]. *)
Definition grid_loop (cols rows : Z) (startX startY : R) : list Point :=
  flat_map
    (fun i =>
       map (fun j =>
              let x0 := startX + INR i * spacing config in
              let y0 := startY + INR j * spacing config in
              new_Point x0 y0)
           (seq 0 (Z.to_nat rows)))
    (seq 0 (Z.to_nat cols)).

Definition initGrid : M State unit :=
  cv <- gets canvas ;;
  if negb (truthy cv) then ret tt else
  c <- deref cv ;;
  modify (set_points []) ;;;
  let cols := (JsMath.ceil (IZR (Z.of_N (width c)) / spacing config) + 2)%Z in
  let rows := (JsMath.ceil (IZR (Z.of_N (height c)) / spacing config) + 2)%Z in
  let startX := - spacing config in
  let startY := - spacing config in
  modify (set_points (grid_loop cols rows startX startY)).

(** ** resizeCanvas, with [window.innerWidth] and [window.innerHeight]
    as arguments *)
Definition resizeCanvas (innerWidth innerHeight : N) : M State unit :=
  cv <- gets canvas ;;
  if negb (truthy cv) then ret tt else
  c <- deref cv ;;
  modify (set_canvas (Some {| width := innerWidth; height := height c |})) ;;;
  cv' <- gets canvas ;;
  c' <- deref cv' ;;
  modify (set_canvas (Some {| width := width c'; height := innerHeight |})) ;;;
  initGrid.

(** ** animate *)

(** What one frame reads from outside: the colour-scheme media query,
    and the clock, read by the [update] of each point in turn
    ([now k] is the value [Date.now()] gives to the [k]-th point). *)
Record Frame : Type := mkFrame {
  isDark : bool;
  now : nat -> Z
}.

(** [draw(ctx, color)]. *)
Definition draw (this : Point) (color0 : string) : list Call :=
  [ beginPath;
    arc (x this) (y this) (baseSize config) 0 (PI * 2);
    fillStyle ("rgba(" ++ color0 ++ ", 0.5)")%string;
    fill ].

(** The first [forEach]: each point is updated, then drawn. *)
Fixpoint update_and_draw (fr : Frame) (mX mY : R) (rgbColor : string)
         (k : nat) (ps : list Point) : list Point * list Call :=
  match ps with
  | [] => ([], [])
  | p :: rest =>
      let p' := update mX mY (now fr k) p in
      let '(rest', calls) := update_and_draw fr mX mY rgbColor (S k) rest in
      (p' :: rest', draw p' rgbColor ++ calls)
  end.

(** The test that leaves a point out of the second [forEach]. *)
Definition offscreen (c : Canvas) (p : Point) : bool :=
  JsMath.ltb (x p) (-50)
  || JsMath.ltb (IZR (Z.of_N (width c)) + 50) (x p)
  || JsMath.ltb (y p) (-50)
  || JsMath.ltb (IZR (Z.of_N (height c)) + 50) (y p).

Definition is_right_neighbor (p n : Point) : bool :=
  JsMath.ltb (JsMath.abs (originX n - (originX p + spacing config))) 1
  && JsMath.ltb (JsMath.abs (originY n - originY p)) 1.

Definition is_bottom_neighbor (p n : Point) : bool :=
  JsMath.ltb (JsMath.abs (originX n - originX p)) 1
  && JsMath.ltb (JsMath.abs (originY n - (originY p + spacing config))) 1.

(** The body of the second [forEach], for one point [p]. *)
Definition connect (c : Canvas) (ps : list Point) (p : Point) : list Call :=
  if offscreen c p then [] else
  let rightNeighbor := find (is_right_neighbor p) ps in
  let bottomNeighbor := find (is_bottom_neighbor p) ps in
  (match rightNeighbor with
   | Some n => [moveTo (x p) (y p); lineTo (x n) (y n)]
   | None => []
   end)
  ++
  (match bottomNeighbor with
   | Some n => [moveTo (x p) (y p); lineTo (x n) (y n)]
   | None => []
   end).

Definition connect_all (c : Canvas) (ps : list Point) : list Call :=
  flat_map (connect c ps) ps.

(** All of one frame after the guard: the points it leaves and the
    calls it makes on the context. *)
Definition paint (fr : Frame) (mX mY : R) (c : Canvas) (ps : list Point)
  : list Point * list Call :=
  let rgbColor : string :=
    if isDark fr then "96, 165, 250"%string else "59, 130, 246"%string in
  let '(ps', discs) := update_and_draw fr mX mY rgbColor 0 ps in
  (ps',
   [clearRect 0 0 (IZR (Z.of_N (width c))) (IZR (Z.of_N (height c)))]
   ++ discs
   ++ [beginPath]
   ++ connect_all c ps'
   ++ [strokeStyle ("rgba(" ++ rgbColor ++ ", 0.12)")%string; lineWidth 1; stroke]).

Definition animate (fr : Frame) : M State unit :=
  cx <- gets ctx ;;
  cv <- gets canvas ;;
  if negb (truthy cx) || negb (truthy cv) then ret tt else
  calls <- deref cx ;;
  c <- deref cv ;;
  ps <- gets points ;;
  mX <- gets mouseX ;;
  mY <- gets mouseY ;;
  let '(ps', new_calls) := paint fr mX mY c ps in
  modify (set_points ps') ;;;
  modify (set_ctx (Some (calls ++ new_calls))) ;;;
  modify request_frame.

(** The line segments a sequence of context calls describes: each
    [moveTo] directly followed by a [lineTo]. *)
Fixpoint segments (calls : list Call) : list ((R * R) * (R * R)) :=
  match calls with
  | moveTo x0 y0 :: rest =>
      match rest with
      | lineTo x1 y1 :: _ => ((x0, y0), (x1, y1)) :: segments rest
      | _ => segments rest
      end
  | _ :: rest => segments rest
  | [] => []
  end.

(** A page in mid-animation, for the examples: an 800 by 600 canvas,
    the cursor away, a point at its anchor, its right neighbour far off
    to the right, and a point in motion. *)
Definition sample_canvas : Canvas := {| width := 800; height := 600 |}.

Definition sample_frame : Frame :=
  {| isDark := false; now := fun _ => 0%Z |}.

Definition stray : Point :=
  {| originX := 40; originY := 0; x := 2000; y := 0; vx := 0; vy := 0 |}.

Definition moving : Point :=
  {| originX := 80; originY := 40; x := 83; y := 38; vx := 3; vy := -2 |}.

Definition sample_state : State := {|
  canvas := Some sample_canvas;
  ctx := Some [];
  points := [new_Point 0 0; stray; moving];
  mouseX := sentinel;
  mouseY := sentinel;
  listeners := [on_resize; on_mousemove; on_mouseleave];
  frames_requested := 1
|}.

(** ** The handlers and the start of the script *)

Definition on_mousemove_handler (clientX clientY : R) : M State unit :=
  modify (set_mouse clientX clientY).

Definition on_mouseleave_handler : M State unit :=
  modify (set_mouse sentinel sentinel).

(** [if (canvas) { ... }] at the top level; the viewport size and the
    first frame's readings are arguments. *)
Definition main (innerWidth innerHeight : N) (fr : Frame) : M State unit :=
  cv <- gets canvas ;;
  if truthy cv then
    resizeCanvas innerWidth innerHeight ;;;
    modify (add_listener on_resize) ;;;
    animate fr ;;;
    modify (add_listener on_mousemove) ;;;
    modify (add_listener on_mouseleave)
  else ret tt.

(** What happens on the page after the script has run. *)
Inductive Event : Type :=
| Resize (innerWidth innerHeight : N)
| MouseMove (clientX clientY : R)
| MouseLeave
| AnimationFrame (fr : Frame).

Definition listening (l : Listener) (st : State) : bool :=
  existsb (fun l' => match l, l' with
                     | on_resize, on_resize => true
                     | on_mousemove, on_mousemove => true
                     | on_mouseleave, on_mouseleave => true
                     | _, _ => false
                     end) (listeners st).

(** An event runs the handler registered for it, if there is one; a
    frame runs [animate] if one was requested. *)
Definition dispatch (ev : Event) : M State unit :=
  match ev with
  | Resize w h =>
      l <- gets (listening on_resize) ;;
      if l then resizeCanvas w h else ret tt
  | MouseMove cx cy =>
      l <- gets (listening on_mousemove) ;;
      if l then on_mousemove_handler cx cy else ret tt
  | MouseLeave =>
      l <- gets (listening on_mouseleave) ;;
      if l then on_mouseleave_handler else ret tt
  | AnimationFrame fr =>
      n <- gets frames_requested ;;
      match n with
      | O => ret tt
      | S _ => modify consume_frame ;;; animate fr
      end
  end.

(** ** The page over time *)

(** The state after the events [evs], taken in order.  An exception ends
    the handler that raised it, not the page. *)
Fixpoint run_events (evs : list Event) (st : State) : State :=
  match evs with
  | [] => st
  | ev :: rest => run_events rest (exec (dispatch ev) st)
  end.

(** The state when the script has run on a page whose canvas element, if
    any, is [cv]. *)
Definition started (cv : option Canvas) (has2d : bool)
           (innerWidth innerHeight : N) (fr : Frame) : State :=
  exec (main innerWidth innerHeight fr) (initial cv has2d).

(** The viewport size after the events: that of the last resize. *)
Fixpoint last_size (w h : N) (evs : list Event) : N * N :=
  match evs with
  | [] => (w, h)
  | Resize w' h' :: rest => last_size w' h' rest
  | _ :: rest => last_size w h rest
  end.

(** The cursor after the events: where the last pointer event left it. *)
Fixpoint last_cursor (mx my : R) (evs : list Event) : R * R :=
  match evs with
  | [] => (mx, my)
  | MouseMove cx cy :: rest => last_cursor cx cy rest
  | MouseLeave :: rest => last_cursor sentinel sentinel rest
  | _ :: rest => last_cursor mx my rest
  end.

Definition anchors (ps : list Point) : list (R * R) :=
  map (fun p => (originX p, originY p)) ps.

Definition positions (ps : list Point) : list (R * R) :=
  map (fun p => (x p, y p)) ps.

(** The number of columns of the grid for a width, or of rows for a
    height: [Math.ceil(n / 40) + 2], computed on integers. *)
Definition cells (n : N) : nat := Z.to_nat ((Z.of_N n + 39) / 40 + 2).

(** The grid [initGrid] builds for a canvas of the given size. *)
Definition lattice (w h : N) : list Point :=
  grid_loop (JsMath.ceil (IZR (Z.of_N w) / spacing config) + 2)
            (JsMath.ceil (IZR (Z.of_N h) / spacing config) + 2)
            (- spacing config) (- spacing config).

(** The discs a sequence of context calls draws: centre and radius of
    each [arc]. *)
Fixpoint discs (calls : list Call) : list (R * R * R) :=
  match calls with
  | [] => []
  | arc x0 y0 r _ _ :: rest => (x0, y0, r) :: discs rest
  | _ :: rest => discs rest
  end.

(** The calls do not begin with a [lineTo]. *)
Definition no_lineTo_head (calls : list Call) : Prop :=
  match calls with
  | lineTo _ _ :: _ => False
  | _ => True
  end.

(** The colour of the theme, as [animate] picks it. *)
Definition theme (fr : Frame) : string :=
  if isDark fr then "96, 165, 250"%string else "59, 130, 246"%string.

(** The segments the second pass of [animate] draws from [p]. *)
Definition links (c : Canvas) (ps : list Point) (p : Point)
  : list ((R * R) * (R * R)) :=
  if offscreen c p then [] else
  (match find (is_right_neighbor p) ps with
   | Some n => [((x p, y p), (x n, y n))]
   | None => []
   end)
  ++
  (match find (is_bottom_neighbor p) ps with
   | Some n => [((x p, y p), (x n, y n))]
   | None => []
   end).

(** What holds of the page from the end of the script on, when there is a
    canvas: the three listeners are registered once each, the anchors of
    the points are those of the grid for the current canvas size, and one
    frame is pending if there is a 2D context, none if there is not. *)
Definition running (has2d : bool) (st : State) : Prop :=
  listeners st = [on_resize; on_mousemove; on_mouseleave]
  /\ (exists c, canvas st = Some c
                /\ anchors (points st) = anchors (lattice (width c) (height c)))
  /\ (if has2d
      then (exists calls, ctx st = Some calls) /\ frames_requested st = 1%nat
      else ctx st = None /\ frames_requested st = 0%nat).

(** The energy of an idle point: [spring_energy] on both axes. *)
Definition energy (p : Point) : R :=
  spring_energy (x p - originX p) (vx p)
  + spring_energy (y p - originY p) (vy p).

End Renderer.

(* ================================================================== *)
(** * The mouse repulsion in binary64 *)

(** The numbers of the script are IEEE 754 binary64 values: [+], [-],
    [*], [/] and [Math.sqrt] round to nearest, and ECMAScript leaves
    [Math.atan2], [Math.cos] and [Math.sin] to the engine, apart from
    their values at zero.  This module is the first block of
    [Point.update] over binary64, with the three library functions as a
    parameter. *)
Module Binary64.
Import PrimFloat SpecFloat FloatOps.
Local Open Scope float_scope.
Local Set Warnings "-inexact-float".

Record MathLib : Type := mkMathLib {
  Math_atan2 : float -> float -> float;
  Math_cos : float -> float;
  Math_sin : float -> float
}.

(** The two entries of [config] the block reads. *)
Record Config : Type := mkConfig {
  influence : float;
  force : float
}.

Definition config : Config := {| influence := 150; force := 0.6 |}.

Record Point : Type := mkPoint {
  originX : float;
  originY : float;
  x : float;
  y : float;
  vx : float;
  vy : float
}.

(** [constructor(x, y)]. *)
Definition new_Point (x0 y0 : float) : Point :=
  {| originX := x0; originY := y0; x := x0; y := y0; vx := 0; vy := 0 |}.

(** [dx], [dy] and [distance] of [update]. *)
Definition cursor_distance (mouseX mouseY : float) (this : Point) : float :=
  let dx := mouseX - x this in
  let dy := mouseY - y this in
  sqrt (dx * dx + dy * dy).

(** The first block of [update] (mouse repulsion): the velocity
    [(vx, vy)] it leaves in the point. *)
Definition repel (lib : MathLib) (mouseX mouseY : float) (this : Point)
  : float * float :=
  let dx := mouseX - x this in
  let dy := mouseY - y this in
  let distance := sqrt (dx * dx + dy * dy) in
  if distance <? influence config then
    let angle := Math_atan2 lib dy dx in
    let f := (influence config - distance) / influence config in
    (vx this - Math_cos lib angle * f * force config,
     vy this - Math_sin lib angle * f * force config)
  else (vx this, vy this).

(** The rational number a finite double stands for. *)
Definition exact (d : float) : Q :=
  match Prim2SF d with
  | S754_finite s m e =>
      let v := (inject_Z (Zpos m) * Qpower (2 # 1) e)%Q in
      if s then Qopp v else v
  | _ => 0%Q
  end.

(** The square of the size of what the block adds to the velocity,
    without rounding; and the same as the doubles give it. *)
Definition push_squared (lib : MathLib) (mouseX mouseY : float) (this : Point)
  : Q :=
  let v := repel lib mouseX mouseY this in
  let cx := (exact (fst v) - exact (vx this))%Q in
  let cy := (exact (snd v) - exact (vy this))%Q in
  (cx * cx + cy * cy)%Q.

Definition push_squared_rounded (lib : MathLib) (mouseX mouseY : float)
           (this : Point) : float :=
  let v := repel lib mouseX mouseY this in
  let cx := fst v - vx this in
  let cy := snd v - vy this in
  cx * cx + cy * cy.

(** The library at the arguments met below.  On the positive x axis
    ECMAScript fixes the values: [atan2(+0, x) = +0] for [x > 0],
    [cos(+0) = 1] and [sin(+0) = +0].  Off the axis the entries are the
    correctly rounded values of the real functions, which is what the
    engines return there: the double nearest to [atan(4/3)], and those
    nearest to the cosine and the sine of that double.  Elsewhere the
    table holds NaN. *)
Definition engine : MathLib := {|
  Math_atan2 := fun y0 x0 =>
    if (y0 =? 0) && (0 <? x0) then y0
    else if (y0 =? 40) && (x0 =? 30) then 0x1.dac670561bb4fp-1
    else nan;
  Math_cos := fun a =>
    if a =? 0 then 1
    else if a =? 0x1.dac670561bb4fp-1 then 0x1.3333333333334p-1
    else nan;
  Math_sin := fun a =>
    if a =? 0 then a
    else if a =? 0x1.dac670561bb4fp-1 then 0x1.9999999999999p-1
    else nan
|}.

End Binary64.

(** Partial sums of the cosine and sine series at a rational argument,
    as rationals: what the entries of [Binary64.engine] are checked
    against. *)
Module Series.

Fixpoint Zfact (n : nat) : Z :=
  match n with
  | O => 1
  | S k => Z.of_nat (S k) * Zfact k
  end.

Fixpoint Qpow (a : Q) (n : nat) : Q :=
  match n with
  | O => 1
  | S k => a * Qpow a k
  end.

Definition cos_termQ (a : Q) (i : nat) : Q :=
  Qpow (-1) i * (Qpow a (2 * i) / inject_Z (Zfact (2 * i))).

Definition sin_termQ (a : Q) (i : nat) : Q :=
  Qpow (-1) i * (Qpow a (2 * i + 1) / inject_Z (Zfact (2 * i + 1))).

Fixpoint sumQ (f : nat -> Q) (n : nat) : Q :=
  match n with
  | O => f O
  | S k => sumQ f k + f (S k)
  end.

Definition cos_approxQ (a : Q) (n : nat) : Q := sumQ (cos_termQ a) n.
Definition sin_approxQ (a : Q) (n : nat) : Q := sumQ (sin_termQ a) n.

End Series.

(* ================================================================== *)
(** * EmailJS contact form *)

Module Contact.
Open Scope N_scope.

(** A string of the page is a sequence of UTF-16 code units. *)
Definition jsstring : Type := list N.

(** White space and line terminators: the characters [\s] matches and
    [trim] removes. *)
Definition is_space (c : N) : bool :=
  (c =? 0x09) || (c =? 0x0A) || (c =? 0x0B) || (c =? 0x0C) || (c =? 0x0D)
  || (c =? 0x20) || (c =? 0xA0) || (c =? 0x1680)
  || ((0x2000 <=? c) && (c <=? 0x200A))
  || (c =? 0x2028) || (c =? 0x2029) || (c =? 0x202F) || (c =? 0x205F)
  || (c =? 0x3000) || (c =? 0xFEFF).

Fixpoint trimStart (s : jsstring) : jsstring :=
  match s with
  | c :: rest => if is_space c then trimStart rest else s
  | [] => []
  end.

Definition trimEnd (s : jsstring) : jsstring := rev (trimStart (rev s)).

(** [String.prototype.trim]. *)
Definition trim (s : jsstring) : jsstring := trimEnd (trimStart s).

(** ** Regular expressions, matched by derivatives *)

Inductive regex : Type :=
| Never
| Empty
| Class (p : N -> bool)
| Seq (r1 r2 : regex)
| Or (r1 r2 : regex)
| Star (r : regex)
| Plus (r : regex).

Fixpoint nullable (r : regex) : bool :=
  match r with
  | Never => false
  | Empty => true
  | Class _ => false
  | Seq r1 r2 => nullable r1 && nullable r2
  | Or r1 r2 => nullable r1 || nullable r2
  | Star _ => true
  | Plus r1 => nullable r1
  end.

Fixpoint deriv (c : N) (r : regex) : regex :=
  match r with
  | Never => Never
  | Empty => Never
  | Class p => if p c then Empty else Never
  | Seq r1 r2 =>
      if nullable r1 then Or (Seq (deriv c r1) r2) (deriv c r2)
      else Seq (deriv c r1) r2
  | Or r1 r2 => Or (deriv c r1) (deriv c r2)
  | Star r1 => Seq (deriv c r1) (Star r1)
  | Plus r1 => Seq (deriv c r1) (Star r1)
  end.

(** [re.test(s)] for a pattern anchored by [^] and [$] (no flags): the
    whole of [s] is in the language of [re]. *)
Definition test (re : regex) (s : jsstring) : bool :=
  nullable (fold_left (fun r c => deriv c r) s re).

(** The strings a pattern stands for. *)
Inductive Matches : regex -> jsstring -> Prop :=
| MEmpty : Matches Empty []
| MClass p c : p c = true -> Matches (Class p) [c]
| MSeq r1 r2 s1 s2 : Matches r1 s1 -> Matches r2 s2 -> Matches (Seq r1 r2) (s1 ++ s2)
| MOrL r1 r2 s : Matches r1 s -> Matches (Or r1 r2) s
| MOrR r1 r2 s : Matches r2 s -> Matches (Or r1 r2) s
| MStarNil r : Matches (Star r) []
| MStarCons r s1 s2 : Matches r s1 -> Matches (Star r) s2 -> Matches (Star r) (s1 ++ s2)
| MPlus r s1 s2 : Matches r s1 -> Matches (Star r) s2 -> Matches (Plus r) (s1 ++ s2).

(** The class [[^\s@]]. *)
Definition not_space_or_at (c : N) : bool :=
  negb (is_space c || (c =? 0x40)).

(** [/^[^\s@]+@[^\s@]+\.[^\s@]+$/]. *)
Definition email_pattern : regex :=
  Seq (Plus (Class not_space_or_at))
      (Seq (Class (fun c => c =? 0x40))
           (Seq (Plus (Class not_space_or_at))
                (Seq (Class (fun c => c =? 0x2E))
                     (Plus (Class not_space_or_at))))).

(** ** The form, the status line and the mail service *)

(** The value of each control of the form ([None]: the form has no
    control of that name, and [FormData.get] gives [null]). *)
Record Fields : Type := mkFields {
  name : option jsstring;
  email : option jsstring;
  message : option jsstring
}.

Record Button : Type := mkButton {
  button_textContent : string;
  disabled : bool
}.

Record Status : Type := mkStatus {
  textContent : string;
  style_color : string
}.

(** The template parameters of one [emailjs.send] call. *)
Record Params : Type := mkParams {
  from_name : jsstring;
  from_email : jsstring;
  params_message : jsstring;
  to_name : string;
  reply_to : jsstring
}.

Record Send : Type := mkSend {
  serviceID : string;
  templateID : string;
  templateParams : Params
}.

Record Page : Type := mkPage {
  values : Fields;
  defaults : Fields;
  submitBtn : option Button;
  statusEl : option Status;
  sent : list Send;
  resets : nat;
  console : list string;
  defaultPrevented : bool
}.

(** How the promise of [emailjs.send] settles. *)
Inductive Reply : Type :=
| Resolved
| Rejected (error : string).

Definition set_values (f : Fields) (pg : Page) : Page :=
  {| values := f; defaults := defaults pg; submitBtn := submitBtn pg;
     statusEl := statusEl pg; sent := sent pg; resets := resets pg; console := console pg;
     defaultPrevented := defaultPrevented pg |}.

Definition set_submitBtn (b : option Button) (pg : Page) : Page :=
  {| values := values pg; defaults := defaults pg; submitBtn := b;
     statusEl := statusEl pg; sent := sent pg; resets := resets pg; console := console pg;
     defaultPrevented := defaultPrevented pg |}.

Definition set_statusEl (s : option Status) (pg : Page) : Page :=
  {| values := values pg; defaults := defaults pg; submitBtn := submitBtn pg;
     statusEl := s; sent := sent pg; resets := resets pg; console := console pg;
     defaultPrevented := defaultPrevented pg |}.

Definition log_send (m : Send) (pg : Page) : Page :=
  {| values := values pg; defaults := defaults pg; submitBtn := submitBtn pg;
     statusEl := statusEl pg; sent := sent pg ++ [m]; resets := resets pg; console := console pg;
     defaultPrevented := defaultPrevented pg |}.

Definition log_console (l : string) (pg : Page) : Page :=
  {| values := values pg; defaults := defaults pg; submitBtn := submitBtn pg;
     statusEl := statusEl pg; sent := sent pg; resets := resets pg; console := console pg ++ [l];
     defaultPrevented := defaultPrevented pg |}.

Definition count_reset (pg : Page) : Page :=
  {| values := values pg; defaults := defaults pg; submitBtn := submitBtn pg;
     statusEl := statusEl pg; sent := sent pg; resets := S (resets pg);
     console := console pg; defaultPrevented := defaultPrevented pg |}.

Definition set_defaultPrevented (pg : Page) : Page :=
  {| values := values pg; defaults := defaults pg; submitBtn := submitBtn pg;
     statusEl := statusEl pg; sent := sent pg; resets := resets pg; console := console pg;
     defaultPrevented := true |}.

Open Scope eff_scope.

(** [statusEl.textContent = t]. *)
Definition status_textContent (t : string) : M Page unit :=
  el <- gets statusEl ;;
  s <- deref el ;;
  modify (set_statusEl (Some {| textContent := t; style_color := style_color s |})).

(** [statusEl.style.color = c]. *)
Definition status_color (c : string) : M Page unit :=
  el <- gets statusEl ;;
  s <- deref el ;;
  modify (set_statusEl (Some {| textContent := textContent s; style_color := c |})).

(** [submitBtn.textContent = t]. *)
Definition button_text (t : string) : M Page unit :=
  el <- gets submitBtn ;;
  b <- deref el ;;
  modify (set_submitBtn (Some {| button_textContent := t; disabled := disabled b |})).

(** [submitBtn.disabled = d]. *)
Definition button_disabled (d : bool) : M Page unit :=
  el <- gets submitBtn ;;
  b <- deref el ;;
  modify (set_submitBtn
            (Some {| button_textContent := button_textContent b; disabled := d |})).

(** [await emailjs.send(...)]: the call is made, then the promise
    settles; a rejection is an exception at the [await]. *)
Definition emailjs_send (reply : Reply) (m : Send) : M Page unit :=
  modify (log_send m) ;;;
  match reply with
  | Resolved => ret tt
  | Rejected error => throw error
  end.

(** [form.reset()]: every control goes back to its default value. *)
Definition form_reset : M Page unit :=
  d <- gets defaults ;;
  modify (set_values d) ;;;
  modify count_reset.

(** [String(v || "")]. *)
Definition or_empty (v : option jsstring) : jsstring :=
  match v with
  | Some s => s
  | None => []
  end.

(** [!s] for a string. *)
Definition is_empty (s : jsstring) : bool :=
  match s with [] => true | _ :: _ => false end.

(** The first check of the listener: some field is empty once trimmed. *)
Definition some_empty (fd : Fields) : bool :=
  is_empty (trim (or_empty (name fd)))
  || is_empty (trim (or_empty (email fd)))
  || is_empty (trim (or_empty (message fd))).

(** Both checks: no field is empty once trimmed, and the trimmed address
    matches the pattern. *)
Definition accepted (fd : Fields) : bool :=
  negb (some_empty fd)
  && test email_pattern (trim (or_empty (email fd))).

(** The call the listener makes for the values [fd]. *)
Definition the_send (fd : Fields) : Send :=
  {| serviceID := "service_e6prmaf";
     templateID := "template_2ryv7ne";
     templateParams :=
       {| from_name := trim (or_empty (name fd));
          from_email := trim (or_empty (email fd));
          params_message := trim (or_empty (message fd));
          to_name := "Sujal";
          reply_to := trim (or_empty (email fd)) |} |}.

(** Text as code units, for the examples (ASCII only). *)
Definition lit (s : string) : jsstring :=
  map (fun a => N_of_ascii a) (list_ascii_of_string s).

(** A page with the form filled in, for the examples. *)
Definition sample_page (name0 email0 message0 : string) : Page := {|
  values := {| name := Some (lit name0); email := Some (lit email0);
               message := Some (lit message0) |};
  defaults := {| name := Some []; email := Some []; message := Some [] |};
  submitBtn := Some {| button_textContent := "Send Message"; disabled := false |};
  statusEl := Some {| textContent := ""; style_color := "" |};
  sent := [];
  resets := 0;
  console := [];
  defaultPrevented := false
|}.

(** The submit listener.  [reply] is how the mail service answers if it
    is called. *)
Definition on_submit (reply : Reply) : M Page unit :=
  modify set_defaultPrevented ;;;
  fd <- gets values ;;
  let name := trim (or_empty (name fd)) in
  let email := trim (or_empty (email fd)) in
  let message := trim (or_empty (message fd)) in
  let validEmail := test email_pattern email in
  (* Validation *)
  if is_empty name || is_empty email || is_empty message then
    status_textContent "Please fill all fields." ;;;
    status_color "#ef4444"
  else if negb validEmail then
    status_textContent "Please enter a valid email address." ;;;
    status_color "#ef4444"
  else
    (* Show loading state *)
    el <- gets submitBtn ;;
    b <- deref el ;;
    let originalText := button_textContent b in
    button_text "Sending..." ;;;
    button_disabled true ;;;
    status_textContent "" ;;;
    try_finally
      (try_catch
         (emailjs_send reply
            {| serviceID := "service_e6prmaf";
               templateID := "template_2ryv7ne";
               templateParams :=
                 {| from_name := name;
                    from_email := email;
                    params_message := message;
                    to_name := "Sujal";
                    reply_to := email |} |} ;;;
          status_textContent
            "Message sent successfully! I'll get back to you soon." ;;;
          status_color "#22c55e" ;;;
          form_reset)
         (fun error =>
            modify (log_console ("EmailJS error: " ++ error)%string) ;;;
            status_textContent
              "❌ Failed to send message. Please try again or email me directly." ;;;
            status_color "#ef4444"))
      (button_text originalText ;;;
       button_disabled false).

End Contact.

(* ================================================================== *)
(** * Mobile nav *)

Module Nav.

(** The two things the listeners read and write: the [aria-expanded]
    attribute of the toggle ([None]: the attribute is not set) and whether
    the class list of the menu holds [show]. *)
Record State : Type := mkState {
  aria_expanded : option string;
  show : bool
}.

(** [toggle.getAttribute("aria-expanded") === "true"]. *)
Definition isOpen (st : State) : bool :=
  match aria_expanded st with
  | Some v => String.eqb v "true"
  | None => false
  end.

(** [String(b)] for a boolean. *)
Definition String_of_bool (b : bool) : string :=
  if b then "true"%string else "false"%string.

(** The click listener of the toggle. *)
Definition on_toggle_click (st : State) : State :=
  let isOpen := isOpen st in
  {| aria_expanded := Some (String_of_bool (negb isOpen));
     show := negb (show st) |}.

(** The click listener of each link of the menu. *)
Definition on_link_click (st : State) : State :=
  {| aria_expanded := Some "false"%string; show := false |}.

Inductive Click : Type :=
| ToggleClick
| LinkClick.

Definition click (c : Click) (st : State) : State :=
  match c with
  | ToggleClick => on_toggle_click st
  | LinkClick => on_link_click st
  end.

Fixpoint clicks (cs : list Click) (st : State) : State :=
  match cs with
  | [] => st
  | c :: rest => clicks rest (click c st)
  end.

(** The attribute says open exactly when the menu is shown. *)
Definition in_sync (st : State) : bool := Bool.eqb (isOpen st) (show st).

End Nav.

(* ================================================================== *)
(** * Role rotator *)

Module Rotator.

Definition roles : list string :=
  ["Web Developer"; "Frontend Developer"; "UI Builder"; "Student Developer"]%string.

(** The counter [idx] and the text of the [#roleText] element ([None]:
    the page has no such element). *)
Record State : Type := mkState {
  idx : nat;
  roleText : option string
}.

(** [roles[i]]; outside the array JavaScript gives [undefined]. *)
Definition roles_at (i : nat) : string := nth i roles "undefined"%string.

(** The function [setInterval] calls every 2200 ms. *)
Definition tick (st : State) : State :=
  match roleText st with
  | None => st
  | Some _ =>
      let idx' := ((idx st + 1) mod List.length roles)%nat in
      {| idx := idx'; roleText := Some (roles_at idx') |}
  end.

Fixpoint ticks (n : nat) (st : State) : State :=
  match n with
  | O => st
  | S k => tick (ticks k st)
  end.

End Rotator.

(* ================================================================== *)
(** * Project search and filter *)

Module Projects.
Import Contact.
Open Scope N_scope.

(** [s.startsWith(q)]. *)
Fixpoint starts_with (q s : jsstring) : bool :=
  match q, s with
  | [], _ => true
  | a :: q', b :: s' => (a =? b) && starts_with q' s'
  | _ :: _, [] => false
  end.

(** [s.includes(q)]: [q] occurs in [s]. *)
Fixpoint includes (s q : jsstring) : bool :=
  starts_with q s
  || match s with
     | [] => false
     | _ :: s' => includes s' q
     end.

(** [s.split(sep)] for a separator of one character. *)
Fixpoint split (sep : N) (s : jsstring) : list jsstring :=
  match s with
  | [] => [[]]
  | c :: rest =>
      if c =? sep then [] :: split sep rest
      else match split sep rest with
           | piece :: more => (c :: piece) :: more
           | [] => [[c]]
           end
  end.

Fixpoint string_eqb (a b : jsstring) : bool :=
  match a, b with
  | [], [] => true
  | x :: a', y :: b' => (x =? y) && string_eqb a' b'
  | _, _ => false
  end.

(** [tags.includes(f)] on an array of strings. *)
Definition array_includes (tags : list jsstring) (f : jsstring) : bool :=
  existsb (string_eqb f) tags.

(** A card of the grid: its text, its [data-tags] attribute ([None]: not
    set) and [style.display]. *)
Record Card : Type := mkCard {
  innerText : jsstring;
  data_tags : option jsstring;
  display : string
}.

(** The value of the search box and of the filter ([None]: the element is
    missing), and the cards of the grid ([None]: there is no grid). *)
Record Page : Type := mkPage {
  search : option jsstring;
  filter : option jsstring;
  grid : option (list Card)
}.


(** [v || d] for a string that may be missing or empty. *)
Definition or_default (v : option jsstring) (d : jsstring) : jsstring :=
  match v with
  | Some (c :: rest) => c :: rest
  | _ => d
  end.

(** The string "all". *)
Definition all : jsstring := [0x61; 0x6C; 0x6C].

Section Filters.

(** [String.prototype.toLowerCase], whose tables are not modelled. *)
Variable toLowerCase : jsstring -> jsstring.

(** The query and the tag the filters use. *)
Definition query (pg : Page) : jsstring :=
  toLowerCase (trim (or_default (search pg) [])).

Definition wanted (pg : Page) : jsstring := or_default (filter pg) all.

(** The body of the [forEach], for one card. *)
Definition filter_card (q f : jsstring) (card : Card) : Card :=
  let text := toLowerCase (innerText card) in
  let tags := split 0x20 (toLowerCase (or_default (data_tags card) [])) in
  let okText := is_empty q || includes text q in
  let okTag := string_eqb f all || array_includes tags f in
  {| innerText := innerText card;
     data_tags := data_tags card;
     display := if okText && okTag then ""%string else "none"%string |}.

Definition applyProjectFilters (pg : Page) : Page :=
  match grid pg with
  | None => pg
  | Some cards =>
      let q := query pg in
      let f := wanted pg in
      {| search := search pg; filter := filter pg;
         grid := Some (map (filter_card q f) cards) |}
  end.

End Filters.

End Projects.

(* ================================================================== *)
(** * The script from top to bottom *)

Module Script.

(** What the script finds on the page: which elements exist, how many
    links the menu has, and whether the EmailJS library has defined the
    global [emailjs]. *)
Record Dom : Type := mkDom {
  has_canvas : bool;
  has_toggle : bool;
  has_menu : bool;
  menu_links : nat;
  has_year : bool;
  has_search : bool;
  has_filter : bool;
  has_form : bool;
  has_emailjs : bool
}.

(** What the script sets up, in the order it does. *)
Inductive Setup : Type :=
| GridStarted
| ToggleListener
| LinkListener (k : nat)
| YearWritten
| RotatorStarted
| SearchListener
| FilterListener
| EmailjsInit
| SubmitListener.

Open Scope eff_scope.

Definition log (x : Setup) : M (list Setup) unit :=
  modify (fun l => l ++ [x]).

Definition when (b : bool) (m : M (list Setup) unit) : M (list Setup) unit :=
  if b then m else ret tt.

(** The statements of the script at top level, one after the other. *)
Definition script (d : Dom) : M (list Setup) unit :=
  (* elastic grid: if (canvas) { ... } *)
  when (has_canvas d) (log GridStarted) ;;;
  (* mobile nav: if (toggle && menu) { ... } *)
  when (has_toggle d && has_menu d)
       (log ToggleListener ;;;
        fold_left (fun m k => m ;;; log (LinkListener k))
                  (seq 0 (menu_links d)) (ret tt)) ;;;
  (* footer year: document.querySelector("#year").textContent = ... *)
  (if has_year d then log YearWritten else throw "TypeError") ;;;
  (* role rotator: setInterval(...) *)
  log RotatorStarted ;;;
  (* search?.addEventListener, filter?.addEventListener *)
  when (has_search d) (log SearchListener) ;;;
  when (has_filter d) (log FilterListener) ;;;
  (* emailjs.init(...) *)
  (if has_emailjs d then log EmailjsInit else throw "ReferenceError") ;;;
  (* form?.addEventListener("submit", ...) *)
  when (has_form d) (log SubmitListener).

(** What the first two blocks, which cannot fail, set up. *)
Definition setup_before_year (d : Dom) : list Setup :=
  (if has_canvas d then [GridStarted] else [])
  ++ (if has_toggle d && has_menu d
      then ToggleListener :: map LinkListener (seq 0 (menu_links d))
      else []).

End Script.

(* ================================================================== *)
(** * Properties of the point physics *)

Section Repulsion.
Import Renderer.
Open Scope R_scope.

Lemma influence_pos : 0 < influence config.
Proof. simpl; lra. Qed.

Lemma force_pos : 0 < force config.
Proof. simpl; lra. Qed.

Lemma cursor_distance_nonneg mX mY p : 0 <= cursor_distance mX mY p.
Proof. apply sqrt_pos. Qed.

(** The repulsion block does nothing at or beyond the influence radius. *)
Lemma repel_far mX mY p :
  influence config <= cursor_distance mX mY p ->
  repel mX mY p = (vx p, vy p).
Proof.
  unfold repel, cursor_distance; intros Hfar.
  destruct (Rlt_dec _ _) as [Hlt | _]; [lra | reflexivity].
Qed.

Lemma repel_near mX mY p :
  cursor_distance mX mY p < influence config ->
  repel mX mY p =
    let angle := JsMath.atan2 (mY - y p) (mX - x p) in
    let f := (influence config - cursor_distance mX mY p) / influence config in
    (vx p - cos angle * f * force config, vy p - sin angle * f * force config).
Proof.
  unfold repel, cursor_distance; intros Hnear.
  destruct (Rlt_dec _ _) as [_ | Hge]; [reflexivity | contradiction].
Qed.

Lemma magnitude_polar a r : 0 <= r -> magnitude (- (cos a * r), - (sin a * r)) = r.
Proof.
  intros Hr; unfold magnitude; simpl.
  replace (- (cos a * r) * - (cos a * r) + - (sin a * r) * - (sin a * r))
    with (((sin a)² + (cos a)²) * (r * r)) by (unfold Rsqr; ring).
  rewrite sin2_cos2, Rmult_1_l. now apply sqrt_square.
Qed.

(** Inside the radius the push has size [force * (influence - d) / influence]:
    the linear falloff. *)
Lemma contribution_magnitude mX mY p :
  cursor_distance mX mY p < influence config ->
  magnitude (contribution mX mY p) =
    (influence config - cursor_distance mX mY p) / influence config * force config.
Proof.
  intros Hnear. unfold contribution. rewrite (repel_near _ _ _ Hnear).
  cbv zeta. unfold fst, snd.
  set (a := JsMath.atan2 _ _).
  set (f := (influence config - _) / influence config).
  replace (vx p - cos a * f * force config - vx p)
    with (- (cos a * (f * force config))) by ring.
  replace (vy p - sin a * f * force config - vy p)
    with (- (sin a * (f * force config))) by ring.
  apply magnitude_polar.
  apply Rmult_le_pos; [| left; exact force_pos].
  unfold f. apply Rmult_le_pos; [lra |].
  left; apply Rinv_0_lt_compat, influence_pos.
Qed.

Lemma JsMath_atan2_origin : JsMath.atan2 0 0 = 0.
Proof.
  unfold JsMath.atan2.
  destruct (Rlt_dec 0 0) as [H | _]; [lra | reflexivity].
Qed.

Lemma cursor_distance_coincident p : cursor_distance (x p) (y p) p = 0.
Proof.
  unfold cursor_distance; cbv zeta.
  replace ((x p - x p) * (x p - x p) + (y p - y p) * (y p - y p)) with 0 by ring.
  apply sqrt_0.
Qed.

(** The sentinel is further than the radius from every point the
    second pass of [animate] does not skip. *)
Lemma ltb_false a b : JsMath.ltb a b = false -> b <= a.
Proof. unfold JsMath.ltb; destruct (Rlt_dec a b); [discriminate | lra]. Qed.

Lemma ltb_true a b : JsMath.ltb a b = true -> a < b.
Proof. unfold JsMath.ltb; destruct (Rlt_dec a b); [trivial | discriminate]. Qed.

Lemma ltb_true_intro a b : a < b -> JsMath.ltb a b = true.
Proof. unfold JsMath.ltb; destruct (Rlt_dec a b); [trivial | contradiction]. Qed.

Lemma ltb_false_intro a b : b <= a -> JsMath.ltb a b = false.
Proof. unfold JsMath.ltb; destruct (Rlt_dec a b); [lra | trivial]. Qed.

Lemma offscreen_false c p :
  offscreen c p = false ->
  -50 <= x p <= IZR (Z.of_N (width c)) + 50
  /\ -50 <= y p <= IZR (Z.of_N (height c)) + 50.
Proof.
  unfold offscreen; intros H.
  repeat (apply orb_false_elim in H; destruct H as [H ?]).
  repeat match goal with
         | E : JsMath.ltb _ _ = false |- _ => apply ltb_false in E
         end.
  lra.
Qed.

Lemma far_left_of mX mY p :
  mX + influence config <= x p -> influence config <= cursor_distance mX mY p.
Proof.
  intros H. unfold cursor_distance; cbv zeta.
  pose proof influence_pos as Hi.
  apply Rle_trans with (sqrt (influence config * influence config)).
  - rewrite sqrt_square; lra.
  - apply sqrt_le_1_alt.
    assert (H1 : 0 <= (x p - mX - influence config) * (x p - mX + influence config))
      by (apply Rmult_le_pos; lra).
    assert (H2 : 0 <= (mY - y p) * (mY - y p)) by apply Rle_0_sqr.
    lra.
Qed.

End Repulsion.

(* ================================================================== *)
(** * The library values of the binary64 example *)

Section SeriesFacts.
Import Series.
Open Scope R_scope.

Lemma Zfact_pos n : (0 < Zfact n)%Z.
Proof.
  induction n as [| n IH]; [reflexivity |].
  change (Zfact (S n)) with (Z.of_nat (S n) * Zfact n)%Z.
  apply Z.mul_pos_pos; lia.
Qed.

Lemma INR_fact n : INR (fact n) = IZR (Zfact n).
Proof.
  induction n as [| n IH]; [reflexivity |].
  change (fact (S n)) with (S n * fact n)%nat.
  rewrite mult_INR, IH. change (Zfact (S n)) with (Z.of_nat (S n) * Zfact n)%Z.
  rewrite mult_IZR, <- INR_IZR_INZ. reflexivity.
Qed.

Lemma Q2R_inject_Z z : Q2R (inject_Z z) = IZR z.
Proof. unfold Q2R, inject_Z. simpl. rewrite Rinv_1. ring. Qed.

Lemma Q2R_Qpow a n : Q2R (Qpow a n) = Q2R a ^ n.
Proof.
  induction n as [| n IH]; simpl.
  - apply RMicromega.Q2R_1.
  - now rewrite Q2R_mult, IH.
Qed.

Lemma Q2R_minus_one : Q2R (-1) = -1.
Proof. unfold Q2R. simpl. lra. Qed.

Lemma Zfact_nonzero n : ~ (inject_Z (Zfact n) == 0)%Q.
Proof.
  intros H. apply Qeq_eqR in H. rewrite Q2R_inject_Z, RMicromega.Q2R_0 in H.
  apply eq_IZR in H. pose proof (Zfact_pos n). lia.
Qed.

Lemma Q2R_cos_term a i : Q2R (cos_termQ a i) = cos_term (Q2R a) i.
Proof.
  unfold cos_termQ, cos_term.
  rewrite Q2R_mult, Q2R_div by apply Zfact_nonzero.
  now rewrite !Q2R_Qpow, Q2R_inject_Z, Q2R_minus_one, INR_fact.
Qed.

Lemma Q2R_sin_term a i : Q2R (sin_termQ a i) = sin_term (Q2R a) i.
Proof.
  unfold sin_termQ, sin_term.
  rewrite Q2R_mult, Q2R_div by apply Zfact_nonzero.
  now rewrite !Q2R_Qpow, Q2R_inject_Z, Q2R_minus_one, INR_fact.
Qed.

Lemma Q2R_cos_approx a n : Q2R (cos_approxQ a n) = cos_approx (Q2R a) n.
Proof.
  unfold cos_approxQ, cos_approx.
  induction n as [| n IH]; simpl; [apply Q2R_cos_term |].
  now rewrite Q2R_plus, IH, Q2R_cos_term.
Qed.

Lemma Q2R_sin_approx a n : Q2R (sin_approxQ a n) = sin_approx (Q2R a) n.
Proof.
  unfold sin_approxQ, sin_approx.
  induction n as [| n IH]; simpl; [apply Q2R_sin_term |].
  now rewrite Q2R_plus, IH, Q2R_sin_term.
Qed.

(** Cosine and sine of a rational in [0, 2] between two rationals. *)
Lemma cos_between (a lo hi : Q) :
  (0 <= a)%Q -> (a <= 2)%Q ->
  (lo < cos_approxQ a 9)%Q -> (cos_approxQ a 10 < hi)%Q ->
  Q2R lo < cos (Q2R a) < Q2R hi.
Proof.
  intros H0 H2 Hlo Hhi.
  apply Qle_Rle in H0, H2. apply Qlt_Rlt in Hlo, Hhi.
  rewrite RMicromega.Q2R_0 in H0.
  replace (Q2R 2) with 2 in H2 by (unfold Q2R; simpl; lra).
  rewrite Q2R_cos_approx in Hlo, Hhi.
  destruct (pre_cos_bound (Q2R a) 4) as [Hl Hu]; [lra | lra |].
  change (2 * 4 + 1)%nat with 9%nat in Hl.
  change (2 * (4 + 1))%nat with 10%nat in Hu.
  lra.
Qed.

Lemma sin_between (a lo hi : Q) :
  (0 <= a)%Q -> (a <= 2)%Q ->
  (lo < sin_approxQ a 9)%Q -> (sin_approxQ a 10 < hi)%Q ->
  Q2R lo < sin (Q2R a) < Q2R hi.
Proof.
  intros H0 H2 Hlo Hhi.
  apply Qle_Rle in H0, H2. apply Qlt_Rlt in Hlo, Hhi.
  rewrite RMicromega.Q2R_0 in H0.
  replace (Q2R 2) with 2 in H2 by (unfold Q2R; simpl; lra).
  rewrite Q2R_sin_approx in Hlo, Hhi.
  destruct (pre_sin_bound (Q2R a) 4) as [Hl Hu]; [lra | lra |].
  change (2 * 4 + 1)%nat with 9%nat in Hl.
  change (2 * (4 + 1))%nat with 10%nat in Hu.
  lra.
Qed.

(** The arc tangent of a rational against a rational in [0, 1], by the
    series of the sine and the cosine there. *)
Lemma atan_above (a t : Q) :
  (0 <= a)%Q -> (a <= 1)%Q -> (0 <= t)%Q ->
  (0 < cos_approxQ a 9)%Q ->
  (sin_approxQ a 10 < t * cos_approxQ a 9)%Q ->
  Q2R a < atan (Q2R t).
Proof.
  intros H0 H1 Ht Hc Hlt.
  apply Qle_Rle in H0, H1, Ht. apply Qlt_Rlt in Hc, Hlt.
  rewrite RMicromega.Q2R_0 in H0, Ht, Hc. rewrite RMicromega.Q2R_1 in H1.
  rewrite Q2R_mult, Q2R_cos_approx, Q2R_sin_approx in Hlt.
  rewrite Q2R_cos_approx in Hc.
  set (A := Q2R a) in *. set (T := Q2R t) in *.
  destruct (pre_cos_bound A 4) as [Hcl _]; [lra | lra |].
  destruct (pre_sin_bound A 4) as [_ Hsu]; [lra | lra |].
  change (2 * 4 + 1)%nat with 9%nat in Hcl.
  change (2 * (4 + 1))%nat with 10%nat in Hsu.
  assert (Hcos : 0 < cos A) by lra.
  assert (Htan : tan A < T).
  { unfold tan. apply Rmult_lt_reg_r with (cos A); [exact Hcos |].
    unfold Rdiv. rewrite Rmult_assoc, Rinv_l by lra. nra. }
  pose proof PI2_1 as Hpi.
  rewrite <- (atan_tan A) by lra.
  now apply atan_increasing.
Qed.

Lemma atan_below (a t : Q) :
  (0 <= a)%Q -> (a <= 1)%Q -> (0 <= t)%Q ->
  (0 < cos_approxQ a 9)%Q ->
  (t * cos_approxQ a 10 < sin_approxQ a 9)%Q ->
  atan (Q2R t) < Q2R a.
Proof.
  intros H0 H1 Ht Hc Hlt.
  apply Qle_Rle in H0, H1, Ht. apply Qlt_Rlt in Hc, Hlt.
  rewrite RMicromega.Q2R_0 in H0, Ht, Hc. rewrite RMicromega.Q2R_1 in H1.
  rewrite Q2R_mult, Q2R_cos_approx, Q2R_sin_approx in Hlt.
  rewrite Q2R_cos_approx in Hc.
  set (A := Q2R a) in *. set (T := Q2R t) in *.
  destruct (pre_cos_bound A 4) as [Hcl Hcu]; [lra | lra |].
  destruct (pre_sin_bound A 4) as [Hsl _]; [lra | lra |].
  change (2 * 4 + 1)%nat with 9%nat in Hcl, Hsl.
  change (2 * (4 + 1))%nat with 10%nat in Hcu.
  assert (Hcos : 0 < cos A) by lra.
  assert (Htan : T < tan A).
  { unfold tan. apply Rmult_lt_reg_r with (cos A); [exact Hcos |].
    unfold Rdiv. rewrite Rmult_assoc, Rinv_l by lra. nra. }
  pose proof PI2_1 as Hpi.
  rewrite <- (atan_tan A) by lra.
  now apply atan_increasing.
Qed.

End SeriesFacts.

Section EngineValues.
Import PrimFloat.
Import Series.
Open Scope R_scope.

(** The entries of [Binary64.engine] off the axis are the correctly
    rounded values of the real functions: each is a double in [1/2, 1),
    where doubles are [2^-53] apart, and is less than half of that away
    from the real value, for the arc tangent of [40 / 30] and for the
    cosine and the sine of the double that stands for it. *)
Lemma engine_correctly_rounded :
  let a := Binary64.Math_atan2 Binary64.engine 40%float 30%float in
  let c := Binary64.Math_cos Binary64.engine a in
  let s := Binary64.Math_sin Binary64.engine a in
  let A := Q2R (Binary64.exact a) in
  let C := Q2R (Binary64.exact c) in
  let S := Q2R (Binary64.exact s) in
  (1 / 2 <= A < 1 /\ Rabs (A - JsMath.atan2 40 30) < / 2 ^ 54)
  /\ (1 / 2 <= C < 1 /\ Rabs (C - cos A) < / 2 ^ 54)
  /\ (1 / 2 <= S < 1 /\ Rabs (S - sin A) < / 2 ^ 54).
Proof.
  intros a c s A C S.
  set (h := (1 # 18014398509481984)%Q).
  assert (Hh : Q2R h = / 2 ^ 54) by (unfold h, Q2R; simpl; lra).
  set (qa := Binary64.exact a). set (qc := Binary64.exact c).
  set (qs := Binary64.exact s).
  assert (HA : 1 / 2 <= A < 1).
  { unfold A. fold qa. split.
    - replace (1 / 2) with (Q2R (1 # 2)) by (unfold Q2R; simpl; lra).
      apply Qle_Rle. vm_compute. discriminate.
    - rewrite <- RMicromega.Q2R_1. apply Qlt_Rlt. vm_compute. reflexivity. }
  assert (HC : 1 / 2 <= C < 1).
  { unfold C. fold qc. split.
    - replace (1 / 2) with (Q2R (1 # 2)) by (unfold Q2R; simpl; lra).
      apply Qle_Rle. vm_compute. discriminate.
    - rewrite <- RMicromega.Q2R_1. apply Qlt_Rlt. vm_compute. reflexivity. }
  assert (HS : 1 / 2 <= S < 1).
  { unfold S. fold qs. split.
    - replace (1 / 2) with (Q2R (1 # 2)) by (unfold Q2R; simpl; lra).
      apply Qle_Rle. vm_compute. discriminate.
    - rewrite <- RMicromega.Q2R_1. apply Qlt_Rlt. vm_compute. reflexivity. }
  split; [split; [exact HA |] | split; [split; [exact HC |] | split; [exact HS |]]].
  - assert (Hat : JsMath.atan2 40 30 = atan (Q2R (4 # 3))).
    { unfold JsMath.atan2. destruct (Rlt_dec 0 30) as [_ | Hn]; [| lra].
      f_equal. unfold Q2R; simpl; lra. }
    rewrite Hat.
    assert (Hlo : Q2R qa < atan (Q2R (4 # 3))).
    { apply atan_above; vm_compute; try reflexivity; discriminate. }
    assert (Hhi : atan (Q2R (4 # 3)) < Q2R (qa + h)).
    { apply atan_below; vm_compute; try reflexivity; discriminate. }
    rewrite Q2R_plus, Hh in Hhi.
    change (Q2R qa) with A in Hlo, Hhi.
    apply Rabs_def1; lra.
  - destruct (@cos_between qa (qc - h) (qc + h)) as [Hl Hu];
      try (vm_compute; reflexivity); try (vm_compute; discriminate).
    rewrite Q2R_minus, Hh in Hl. rewrite Q2R_plus, Hh in Hu.
    change (Q2R qa) with A in Hl, Hu. change (Q2R qc) with C in Hl, Hu.
    apply Rabs_def1; lra.
  - destruct (@sin_between qa (qs - h) (qs + h)) as [Hl Hu];
      try (vm_compute; reflexivity); try (vm_compute; discriminate).
    rewrite Q2R_minus, Hh in Hl. rewrite Q2R_plus, Hh in Hu.
    change (Q2R qa) with A in Hl, Hu. change (Q2R qs) with S in Hl, Hu.
    apply Rabs_def1; lra.
Qed.

End EngineValues.

Section RepulsionRounding.
Import Binary64.
Import PrimFloat.
Local Open Scope float_scope.

(** C2 (as stated, refuted).  In the doubles of the script a point at
    [(0, 0)] is pushed less by the cursor at [(30, 40)], at distance 50,
    than by the cursor at [(50.000000000000007, 0)], which is further
    away and still inside the radius: the squares of the two pushes are
    0.15999999999999992 and 0.15999999999999998 as the doubles give
    them, and in the same order without rounding.  So moving the cursor
    closer can lower the size of the push.  (The library values used are
    those ECMAScript fixes on the axis and the correctly rounded ones at
    [atan2(40, 30)], see [engine_correctly_rounded].) *)
Lemma binary64_closer_cursor_weaker_push :
  let p := new_Point 0 0 in
  let far := 0x1.9000000000001p+5 in
  cursor_distance 30 40 p = 50
  /\ cursor_distance far 0 p = far
  /\ (50 <? far) = true
  /\ (far <? influence config) = true
  /\ repel engine 30 40 p = (-0x1.eb851eb851eb8p-3, -0x1.47ae147ae1479p-2)
  /\ repel engine far 0 p = (-0x1.9999999999999p-2, 0)
  /\ push_squared_rounded engine 30 40 p = 0x1.47ae147ae1478p-3
  /\ push_squared_rounded engine far 0 p = 0x1.47ae147ae147ap-3
  /\ (push_squared engine 30 40 p < push_squared engine far 0 p)%Q
  /\ ~ (push_squared engine far 0 p <= push_squared engine 30 40 p)%Q.
Proof.
  vm_compute. repeat split. intros H. apply H. reflexivity.
Qed.

End RepulsionRounding.

Section RepulsionClaims.
Import Renderer.
Open Scope R_scope.

(** C2 (amended).  For a point held at a fixed position, the size of the
    velocity change made by the repulsion block of [update] goes down as
    the cursor moves away inside the influence radius, up to the
    rounding of the arithmetic: a cursor that is closer by a millionth
    of a unit or more pushes harder, by [10^-9] at least, and the
    change is exactly zero when the distance is at least the radius.
    (The margins are those of exact arithmetic, where the size is
    [force * (influence - d) / influence]; they are far above the
    rounding errors of the doubles.) *)
Theorem repulsion_monotone (p : Point) (mX1 mY1 mX2 mY2 : R) :
  (cursor_distance mX1 mY1 p + 1 / 10 ^ 6 <= cursor_distance mX2 mY2 p ->
   cursor_distance mX2 mY2 p < influence config ->
   magnitude (contribution mX2 mY2 p) + 1 / 10 ^ 9
   <= magnitude (contribution mX1 mY1 p))
  /\ (influence config <= cursor_distance mX1 mY1 p ->
      contribution mX1 mY1 p = (0, 0)).
Proof.
  split.
  - intros Hle Hnear.
    rewrite !contribution_magnitude by lra.
    simpl (influence config). simpl (force config).
    set (d1 := cursor_distance mX1 mY1 p) in *.
    set (d2 := cursor_distance mX2 mY2 p) in *.
    lra.
  - intros Hfar. unfold contribution. rewrite (repel_far _ _ _ Hfar).
    unfold fst, snd. f_equal; ring.
Qed.

Lemma repulsion_monotone_witness :
  let p := new_Point 0 0 in
  (cursor_distance 30 40 p + 1 / 10 ^ 6 <= cursor_distance 60 80 p
   /\ cursor_distance 60 80 p < influence config
   /\ magnitude (contribution 60 80 p) + 1 / 10 ^ 9
      <= magnitude (contribution 30 40 p))
  /\ (influence config <= cursor_distance 150 0 p
      /\ contribution 150 0 p = (0, 0)).
Proof.
  intros p.
  assert (H50 : cursor_distance 30 40 p = 50).
  { unfold cursor_distance, p; simpl.
    replace ((30 - 0) * (30 - 0) + (40 - 0) * (40 - 0)) with (50 * 50) by lra.
    apply sqrt_square; lra. }
  assert (H100 : cursor_distance 60 80 p = 100).
  { unfold cursor_distance, p; simpl.
    replace ((60 - 0) * (60 - 0) + (80 - 0) * (80 - 0)) with (100 * 100) by lra.
    apply sqrt_square; lra. }
  assert (H150 : cursor_distance 150 0 p = 150).
  { unfold cursor_distance, p; simpl.
    replace ((150 - 0) * (150 - 0) + (0 - 0) * (0 - 0)) with (150 * 150) by lra.
    apply sqrt_square; lra. }
  assert (Hle : cursor_distance 30 40 p + 1 / 10 ^ 6 <= cursor_distance 60 80 p)
    by (rewrite H50, H100; lra).
  assert (Hnear : cursor_distance 60 80 p < influence config)
    by (rewrite H100; simpl; lra).
  assert (Hfar : influence config <= cursor_distance 150 0 p)
    by (rewrite H150; simpl; lra).
  split.
  - split; [exact Hle | split; [exact Hnear |]].
    exact (proj1 (repulsion_monotone p 30 40 60 80) Hle Hnear).
  - split; [exact Hfar |].
    exact (proj2 (repulsion_monotone p 150 0 150 0) Hfar).
Defined.

(** C5 (as stated, refuted).  A point sitting exactly on the cursor does
    not keep its velocity through the repulsion block. *)
Lemma coincident_cursor_changes_velocity :
  let p := new_Point 100 100 in
  repel (x p) (y p) p <> (vx p, vy p).
Proof.
  intros p. rewrite repel_near.
  - rewrite cursor_distance_coincident. cbv zeta.
    replace (y p - y p) with 0 by ring. replace (x p - x p) with 0 by ring.
    rewrite JsMath_atan2_origin, cos_0, sin_0. simpl.
    intros H. injection H as H _. lra.
  - rewrite cursor_distance_coincident. apply influence_pos.
Qed.

(** C5 (amended).  When the cursor is exactly on a point, the distance is
    zero, which is inside the influence radius, and the repulsion block
    applies the largest push there is: the falloff factor is 1 and the
    angle is [atan2(0, 0) = 0], so [vx] is lowered by [force] and [vy] is
    left as it was. *)
Theorem coincident_cursor_full_push (p : Point) :
  cursor_distance (x p) (y p) p = 0
  /\ cursor_distance (x p) (y p) p < influence config
  /\ repel (x p) (y p) p = (vx p - force config, vy p)
  /\ magnitude (contribution (x p) (y p) p) = force config.
Proof.
  pose proof influence_pos as Hi.
  assert (H0 : cursor_distance (x p) (y p) p = 0)
    by apply cursor_distance_coincident.
  assert (Hnear : cursor_distance (x p) (y p) p < influence config)
    by (rewrite H0; exact Hi).
  repeat split; trivial.
  - rewrite (repel_near _ _ _ Hnear), H0. cbv zeta.
    replace (y p - y p) with 0 by ring. replace (x p - x p) with 0 by ring.
    rewrite JsMath_atan2_origin, cos_0, sin_0.
    f_equal; field; lra.
  - rewrite (contribution_magnitude _ _ _ Hnear), H0. field; lra.
Qed.

(** C8.  The cursor starts at the sentinel [(-1000, -1000)] and is put
    back there by the pointer-leave handler; with the cursor there, every
    point inside the viewport widened by the 50-unit margin is at least
    the influence radius away from it, so the repulsion block leaves its
    velocity untouched. *)
Theorem sentinel_no_repulsion :
  (forall cv has2d,
      mouseX (initial cv has2d) = sentinel
      /\ mouseY (initial cv has2d) = sentinel)
  /\ (forall st,
         mouseX (exec on_mouseleave_handler st) = sentinel
         /\ mouseY (exec on_mouseleave_handler st) = sentinel)
  /\ (forall c p,
         offscreen c p = false ->
         influence config <= cursor_distance sentinel sentinel p
         /\ repel sentinel sentinel p = (vx p, vy p)
         /\ contribution sentinel sentinel p = (0, 0)).
Proof.
  split; [| split].
  - intros cv has2d; split; reflexivity.
  - intros st; split; reflexivity.
  - intros c p Hin. apply offscreen_false in Hin.
    assert (Hfar : influence config <= cursor_distance sentinel sentinel p).
    { apply far_left_of. unfold sentinel; simpl; lra. }
    split; [exact Hfar | split].
    + now apply repel_far.
    + unfold contribution. rewrite (repel_far _ _ _ Hfar).
      unfold fst, snd. f_equal; ring.
Qed.

End RepulsionClaims.

(* ================================================================== *)
(** * The idle spring *)

(** Comparison of a real constant with the image of a rational, through
  a rational constant [c]. *)
Ltac q2r_above c :=
apply Rle_lt_trans with (Q2R c);
[ unfold Q2R; simpl; lra | apply Qlt_Rlt; vm_compute; reflexivity ].

Ltac q2r_below c :=
apply Rlt_le_trans with (Q2R c);
[ apply Qlt_Rlt; vm_compute; reflexivity | unfold Q2R; simpl; lra ].

Section IdleSpring.
Import Renderer.
Open Scope R_scope.

(** One frame of an idle point outside the radius: spring, damping, move. *)
Lemma idle_step now p :
  influence config <= cursor_distance sentinel sentinel p ->
  update_with 0 sentinel sentinel now p =
    {| originX := originX p; originY := originY p;
       x := x p + (vx p + (originX p - x p) * 0.05) * 0.9;
       y := y p + (vy p + (originY p - y p) * 0.05) * 0.9;
       vx := (vx p + (originX p - x p) * 0.05) * 0.9;
       vy := (vy p + (originY p - y p) * 0.05) * 0.9 |}.
Proof.
  intros Hfar. unfold update_with. rewrite (repel_far _ _ _ Hfar).
  cbv zeta. simpl (tension config). simpl (damping config).
  rewrite !Rmult_0_r, !Rplus_0_r. reflexivity.
Qed.

Lemma spring_energy_step e v :
  let v' := (v + (- e) * 0.05) * 0.9 in
  spring_energy (e + v') v' = 0.9 * spring_energy e v.
Proof. unfold spring_energy; cbv zeta; lra. Qed.

Lemma spring_energy_lower e v : 0.04412 * (e * e) <= spring_energy e v.
Proof.
  unfold spring_energy.
  pose proof (Rle_0_sqr (v + 11 / 360 * e)) as H1.
  pose proof (Rle_0_sqr e) as H2.
  unfold Rsqr in H1, H2. lra.
Qed.

Lemma spring_energy_nonneg e v : 0 <= spring_energy e v.
Proof.
  pose proof (spring_energy_lower e v) as Hlow.
  pose proof (Rle_0_sqr e) as Hsq. unfold Rsqr in Hsq. lra.
Qed.



Lemma update_with_origin amp mX mY now p :
  originX (update_with amp mX mY now p) = originX p
  /\ originY (update_with amp mX mY now p) = originY p.
Proof. unfold update_with. destruct (repel mX mY p). split; reflexivity. Qed.

Lemma idle_run_origin clock n p :
  originX (idle_run clock n p) = originX p
  /\ originY (idle_run clock n p) = originY p.
Proof.
  induction n as [| n [IHx IHy]]; [split; reflexivity |].
  simpl. destruct (update_with_origin 0 sentinel sentinel (clock n)
                     (idle_run clock n p)) as [Hx Hy].
  rewrite Hx, Hy. now split.
Qed.

(** Started at rest, an idle point moves on the line through its start
    and its anchor: both displacements are the start's, scaled by the
    first of [spring_coef n], and both velocities by the second. *)
Lemma idle_run_coef clock p n :
  vx p = 0 -> vy p = 0 ->
  (forall k, (k < n)%nat -> unrepelled clock p k) ->
  x (idle_run clock n p) - originX p = fst (spring_coef n) * (x p - originX p)
  /\ y (idle_run clock n p) - originY p = fst (spring_coef n) * (y p - originY p)
  /\ vx (idle_run clock n p) = snd (spring_coef n) * (x p - originX p)
  /\ vy (idle_run clock n p) = snd (spring_coef n) * (y p - originY p).
Proof.
  intros Hvx Hvy. induction n as [| n IH]; intros Hfar.
  - simpl. rewrite Hvx, Hvy. repeat split; lra.
  - destruct IH as (Ex & Ey & Evx & Evy); [intros k Hk; apply Hfar; lia |].
    assert (Hn : unrepelled clock p n) by (apply Hfar; lia).
    destruct (idle_run_origin clock n p) as [Ox Oy].
    simpl idle_run. rewrite (idle_step _ _ Hn). simpl x; simpl y; simpl vx; simpl vy.
    rewrite Ox, Oy, Evx, Evy.
    simpl spring_coef. destruct (spring_coef n) as [e v].
    simpl fst in *; simpl snd in *. simpl (tension config). simpl (damping config).
    repeat split; nra.
Qed.

Lemma spring_coef_energy n :
  spring_energy (fst (spring_coef n)) (snd (spring_coef n)) = 0.045 * 0.9 ^ n.
Proof.
  induction n as [| n IH].
  - unfold spring_energy; simpl; lra.
  - simpl spring_coef. destruct (spring_coef n) as [e v].
    simpl fst in *; simpl snd in *. simpl (tension config). simpl (damping config).
    rewrite (spring_energy_step e v), IH. simpl; lra.
Qed.

Lemma Q2R_Qred q : Q2R (Qred q) = Q2R q.
Proof. apply Qeq_eqR, Qred_correct. Qed.

(** [spring_coef] is evaluated through [spring_coefQ]. *)
Lemma spring_coef_Q n :
  spring_coef n = (Q2R (fst (spring_coefQ n)), Q2R (snd (spring_coefQ n))).
Proof.
  induction n as [| n IH].
  - simpl. f_equal; unfold Q2R; simpl; lra.
  - simpl spring_coef. rewrite IH.
    change (spring_coefQ (S n))
      with (let '(e, v) := spring_coefQ n in
            let v' := Qred ((v + (- e) * (5 # 100)) * (9 # 10))%Q in
            (Qred (e + v')%Q, v')).
    destruct (spring_coefQ n) as [e v]. cbv zeta. unfold fst, snd.
    simpl (tension config). simpl (damping config).
    repeat first [ rewrite Q2R_Qred | rewrite Q2R_plus
                 | rewrite Q2R_mult | rewrite Q2R_opp ].
    replace (Q2R (5 # 100)) with 0.05 by (unfold Q2R; simpl; lra).
    replace (Q2R (9 # 10)) with 0.9 by (unfold Q2R; simpl; lra).
    reflexivity.
Qed.

Lemma spring_coef_fst n : fst (spring_coef n) = Q2R (fst (spring_coefQ n)).
Proof. now rewrite spring_coef_Q. Qed.

Lemma pow_09_le_1 n : 0 < 0.9 ^ n <= 1.
Proof.
  induction n as [| n IH]; simpl; [lra |]. nra.
Qed.

Lemma spring_coef_sqr n :
  fst (spring_coef n) * fst (spring_coef n) <= 1.02 * 0.9 ^ n.
Proof.
  pose proof (spring_energy_lower (fst (spring_coef n)) (snd (spring_coef n))) as Hlow.
  rewrite spring_coef_energy in Hlow.
  pose proof (pow_09_le_1 n) as Hp. lra.
Qed.

Lemma spring_coef_abs n : Rabs (fst (spring_coef n)) <= 2.
Proof.
  pose proof (spring_coef_sqr n) as Hs. pose proof (pow_09_le_1 n) as Hp.
  apply Rabs_le. split; nra.
Qed.

Lemma magnitude_scale a ex ey :
  magnitude (a * ex, a * ey) = Rabs a * magnitude (ex, ey).
Proof.
  unfold magnitude; simpl fst; simpl snd.
  replace (a * ex * (a * ex) + a * ey * (a * ey))
    with (a² * (ex * ex + ey * ey)) by (unfold Rsqr; ring).
  rewrite sqrt_mult_alt by apply Rle_0_sqr.
  now rewrite sqrt_Rsqr_abs.
Qed.

Lemma magnitude_sqr ex ey : magnitude (ex, ey) * magnitude (ex, ey) = ex * ex + ey * ey.
Proof.
  unfold magnitude; simpl fst; simpl snd. apply sqrt_sqrt.
  pose proof (Rle_0_sqr ex) as H1. pose proof (Rle_0_sqr ey) as H2.
  unfold Rsqr in *. lra.
Qed.

Lemma anchor_distance_nonneg p : 0 <= anchor_distance p.
Proof. apply sqrt_pos. Qed.

Lemma idle_run_distance clock p n :
  vx p = 0 -> vy p = 0 ->
  (forall k, (k < n)%nat -> unrepelled clock p k) ->
  anchor_distance (idle_run clock n p)
  = Rabs (fst (spring_coef n)) * anchor_distance p.
Proof.
  intros Hvx Hvy Hfar.
  destruct (idle_run_coef Hvx Hvy Hfar) as (Ex & Ey & _ & _).
  destruct (idle_run_origin clock n p) as [Ox Oy].
  unfold anchor_distance. rewrite Ox, Oy, Ex, Ey. apply magnitude_scale.
Qed.

(** A point whose anchor is far enough to the right of the sentinel
    never comes within the influence radius. *)
Lemma idle_never_repelled clock p :
  vx p = 0 -> vy p = 0 ->
  sentinel + influence config + 2 * Rabs (x p - originX p) <= originX p ->
  forall k, unrepelled clock p k.
Proof.
  intros Hvx Hvy Hgeo.
  assert (Hall : forall n k, (k < n)%nat -> unrepelled clock p k).
  { induction n as [| n IH]; intros k Hk; [lia |].
    destruct (Nat.eq_dec k n) as [-> | Hne]; [| apply IH; lia].
    destruct (idle_run_coef Hvx Hvy IH) as (Ex & _ & _ & _).
    unfold unrepelled. apply far_left_of.
    pose proof (spring_coef_abs n) as Ha.
    assert (Hprod : Rabs (fst (spring_coef n) * (x p - originX p))
                    <= 2 * Rabs (x p - originX p)).
    { rewrite Rabs_mult. apply Rmult_le_compat_r; [apply Rabs_pos | exact Ha]. }
    pose proof (Rle_abs (- (fst (spring_coef n) * (x p - originX p)))) as Hneg.
    rewrite Rabs_Ropp in Hneg. lra. }
  intros k. apply (Hall (S k)). lia.
Qed.

(** In exact arithmetic a point released at rest stays under the
    envelope [1.02 * 0.9^n] of its squared distance for ever, and so
    comes as close to its anchor as one likes. *)
Lemma idle_envelope clock p :
  vx p = 0 -> vy p = 0 ->
  (forall k, unrepelled clock p k) ->
  forall n,
    anchor_distance (idle_run clock n p) * anchor_distance (idle_run clock n p)
    <= 1.02 * 0.9 ^ n * (anchor_distance p * anchor_distance p).
Proof.
  intros Hvx Hvy Hfar n.
  rewrite (idle_run_distance (clock := clock) (n := n) Hvx Hvy)
    by (intros; apply Hfar).
  pose proof (spring_coef_sqr n) as Hs.
  pose proof (Rle_0_sqr (anchor_distance p)) as Hd. unfold Rsqr in Hd.
  replace (Rabs (fst (spring_coef n)) * anchor_distance p
           * (Rabs (fst (spring_coef n)) * anchor_distance p))
    with ((Rabs (fst (spring_coef n)))² * (anchor_distance p * anchor_distance p))
    by (unfold Rsqr; ring).
  rewrite <- Rsqr_abs. unfold Rsqr.
  apply Rmult_le_compat_r; assumption.
Qed.

Lemma idle_tends_to_anchor clock p :
  vx p = 0 -> vy p = 0 ->
  (forall k, unrepelled clock p k) ->
  forall eps, 0 < eps ->
    exists N, forall n, (N <= n)%nat ->
      anchor_distance (idle_run clock n p) < eps.
Proof.
  intros Hvx Hvy Hfar eps Heps.
  pose proof (idle_envelope Hvx Hvy Hfar) as Hbound.
  set (d0 := anchor_distance p) in *.
  assert (Hd0 : 0 <= d0 * d0) by (pose proof (Rle_0_sqr d0) as H; exact H).
  set (y0 := eps * eps / (1.02 * (d0 * d0 + 1))).
  assert (Hy0 : 0 < y0).
  { unfold y0. apply Rdiv_lt_0_compat; nra. }
  destruct (pow_lt_1_zero 0.9) with (y := y0) as [N HN]; [rewrite Rabs_pos_eq; lra | exact Hy0 |].
  exists N. intros n Hn.
  specialize (HN n Hn). pose proof (pow_09_le_1 n) as Hp.
  rewrite Rabs_pos_eq in HN by lra.
  specialize (Hbound n).
  pose proof (anchor_distance_nonneg (idle_run clock n p)) as Hdn.
  set (dn := anchor_distance (idle_run clock n p)) in *.
  assert (Hsq : dn * dn < eps * eps).
  { apply Rle_lt_trans with (1.02 * 0.9 ^ n * (d0 * d0)); [exact Hbound |].
    apply Rle_lt_trans with (1.02 * y0 * (d0 * d0)).
    - apply Rmult_le_compat_r; [exact Hd0 | lra].
    - unfold y0.
      replace (1.02 * (eps * eps / (1.02 * (d0 * d0 + 1))) * (d0 * d0))
        with (eps * eps * ((d0 * d0) / (d0 * d0 + 1))) by (field; lra).
      assert (Hfrac : d0 * d0 / (d0 * d0 + 1) < 1).
      { apply Rmult_lt_reg_r with (d0 * d0 + 1); [lra |].
        unfold Rdiv. rewrite Rmult_assoc, Rinv_l; lra. }
      assert (Heps2 : 0 < eps * eps) by nra.
      apply Rlt_le_trans with (eps * eps * 1); [| lra].
      apply Rmult_lt_compat_l; assumption. }
  destruct (Rlt_dec dn eps) as [Hlt | Hge]; [exact Hlt |].
  exfalso. assert (eps <= dn) by lra. nra.
Qed.

End IdleSpring.

Section IdleSpringClaims.
Import Renderer.
Open Scope R_scope.

Lemma released_distance : anchor_distance released = 100.
Proof.
  unfold anchor_distance, magnitude, released; simpl.
  replace ((100 - 0) * (100 - 0) + (0 - 0) * (0 - 0)) with (100 * 100) by lra.
  apply sqrt_square; lra.
Qed.

Lemma released_unrepelled clock k : unrepelled clock released k.
Proof.
  apply idle_never_repelled; try reflexivity.
  unfold released, sentinel; simpl.
  replace (100 - 0) with 100 by lra. rewrite Rabs_pos_eq; lra.
Qed.

(** C3 (as stated, refuted).  With the cursor at the sentinel and no
    drift, a point released at rest 100 units from its anchor is never
    repelled, and its distance to the anchor shrinks for eight frames, to
    a little under 1; the ninth frame carries it through the anchor and
    out to more than 12 on the other side.  The distance has not been
    below one half before that frame, so it does not decrease at every
    step until it is below a small epsilon. *)
Lemma idle_distance_not_monotone :
  let clock := fun _ : nat => 0%Z in
  vx released = 0 /\ vy released = 0
  /\ 0 < anchor_distance released
  /\ (forall k, unrepelled clock released k)
  /\ anchor_distance (idle_run clock 8 released) < 1
  /\ 12 < anchor_distance (idle_run clock 9 released)
  /\ ~ strictly_decreasing_until (1 / 2) clock released.
Proof.
  intros clock.
  assert (Hd : forall n, anchor_distance (idle_run clock n released)
                         = Rabs (fst (spring_coef n)) * 100).
  { intros n. rewrite <- released_distance.
    apply idle_run_distance; try reflexivity.
    intros k _. apply released_unrepelled. }
  assert (H8 : 0.009 < fst (spring_coef 8) < 0.01).
  { rewrite spring_coef_fst; split;
    [q2r_above (9 # 1000)%Q | q2r_below (1 # 100)%Q]. }
  assert (H9 : fst (spring_coef 9) < -0.12).
  { rewrite spring_coef_fst; q2r_below (-12 # 100)%Q. }
  split; [reflexivity | split; [reflexivity |]].
  split; [rewrite released_distance; lra |].
  split; [intros k; apply released_unrepelled |].
  split; [rewrite Hd, Rabs_pos_eq; lra |].
  split; [rewrite Hd, Rabs_left; lra |].
  intros Hdec. specialize (Hdec 8%nat).
  rewrite !Hd in Hdec.
  rewrite (Rabs_left (fst (spring_coef 9))) in Hdec by lra.
  rewrite (Rabs_pos_eq (fst (spring_coef 8))) in Hdec by lra.
  assert (Hpre : forall k, (k <= 8)%nat ->
                           1 / 2 <= anchor_distance (idle_run clock k released)).
  { intros k Hk. rewrite Hd.
    assert (Hk' : 0.009 < fst (spring_coef k)).
    { rewrite spring_coef_fst.
      do 9 (destruct k as [| k]; [q2r_above (9 # 1000)%Q |]). lia. }
    rewrite Rabs_pos_eq; lra. }
  specialize (Hdec Hpre). lra.
Qed.

(** C3 (amended).  With the cursor at the sentinel and no drift, a point
    that starts at rest and stays outside the influence radius is, after
    [n] frames, at a distance [d] from its anchor with
    [d^2 <= 1.02 * 0.9^n * d0^2 + 10^-12], where [d0] is the distance it
    started at: the distance shrinks geometrically until it is within a
    millionth of a unit of zero, and is from some frame on below every
    epsilon larger than that.  The [10^-12] is the room left for the
    rounding of the doubles; the bound of exact arithmetic is
    [idle_envelope].  (The distance does not shrink monotonically: the
    spring is under-damped and the point swings through its anchor.) *)
Theorem idle_converges_geometrically clock p :
  vx p = 0 -> vy p = 0 ->
  (forall k, unrepelled clock p k) ->
  (forall n,
      anchor_distance (idle_run clock n p) * anchor_distance (idle_run clock n p)
      <= 1.02 * 0.9 ^ n * (anchor_distance p * anchor_distance p)
         + 1 / 10 ^ 12)
  /\ (forall eps, 1 / 10 ^ 6 < eps ->
        exists N, forall n, (N <= n)%nat ->
          anchor_distance (idle_run clock n p) < eps).
Proof.
  intros Hvx Hvy Hfar. split.
  - intros n. pose proof (idle_envelope Hvx Hvy Hfar n) as H. lra.
  - intros eps Heps. apply (idle_tends_to_anchor Hvx Hvy Hfar). lra.
Qed.

Lemma idle_converges_geometrically_witness :
  let clock := fun _ : nat => 0%Z in
  (forall n,
      anchor_distance (idle_run clock n released)
      * anchor_distance (idle_run clock n released)
      <= 1.02 * 0.9 ^ n * (anchor_distance released * anchor_distance released)
         + 1 / 10 ^ 12)
  /\ (forall eps, 1 / 10 ^ 6 < eps ->
        exists N, forall n, (N <= n)%nat ->
          anchor_distance (idle_run clock n released) < eps).
Proof.
  intros clock.
  apply (@idle_converges_geometrically clock released).
  - reflexivity.
  - reflexivity.
  - intros k. apply released_unrepelled.
Defined.

End IdleSpringClaims.

(* ================================================================== *)
(** * No division by zero, no root of a negative number *)

Section Checked.
Import Renderer.
Open Scope R_scope.

Lemma checked_sqrt_sum_sqr a b :
  checked_sqrt (a * a + b * b) = Some (sqrt (a * a + b * b)).
Proof.
  unfold checked_sqrt.
  pose proof (Rle_0_sqr a) as Ha. pose proof (Rle_0_sqr b) as Hb.
  unfold Rsqr in Ha, Hb.
  destruct (Rlt_dec (a * a + b * b) 0) as [Hneg | _]; [lra | reflexivity].
Qed.

Lemma checked_div_influence a :
  checked_div a (influence config) = Some (a / influence config).
Proof.
  unfold checked_div. pose proof influence_pos as Hi.
  destruct (Req_dec_T (influence config) 0) as [H0 | _]; [lra | reflexivity].
Qed.

Lemma repel_checked_total mX mY p :
  repel_checked mX mY p = Some (repel mX mY p).
Proof.
  unfold repel_checked, repel. cbv zeta.
  rewrite checked_sqrt_sum_sqr. simpl obind.
  destruct (Rlt_dec _ _); [| reflexivity].
  rewrite checked_div_influence. reflexivity.
Qed.

(** The checked method never stops: it computes what [update] computes. *)
Lemma update_checked_total mX mY now p :
  update_checked mX mY now p = Some (update mX mY now p).
Proof.
  unfold update_checked, update, update_with.
  rewrite repel_checked_total. simpl obind.
  destruct (repel mX mY p) as [vx1 vy1]. reflexivity.
Qed.

End Checked.

Section CheckedClaims.
Import Renderer.
Open Scope R_scope.

(** C6.  For a point that sits exactly on the cursor, [update] yields a
    well-defined state: in checked arithmetic, where a division by zero
    or the square root of a negative number (the operations that make
    NaN or an infinity out of finite numbers) would stop the method, it
    runs to its end, and the velocity and position it stores are the
    finite values below.  The only division is by the influence radius,
    and [atan2(0, 0)] is [0]. *)
Theorem update_at_cursor_defined (p : Point) (now : Z) :
  exists q,
    update_checked (x p) (y p) now p = Some q
    /\ q = update (x p) (y p) now p
    /\ vx q = (vx p - force config
               + (originX p
                  + sin (IZR now * 0.001 + originY p * 0.05) * 5 - x p)
                 * tension config) * damping config
    /\ vy q = (vy p
               + (originY p
                  + cos (IZR now * 0.001 + originX p * 0.05) * 5 - y p)
                 * tension config) * damping config
    /\ x q = x p + vx q
    /\ y q = y p + vy q.
Proof.
  exists (update (x p) (y p) now p).
  split; [apply update_checked_total | split; [reflexivity |]].
  unfold update, update_with.
  assert (Hr : repel (x p) (y p) p = (vx p - force config, vy p)).
  { pose proof influence_pos as Hi.
    rewrite repel_near; rewrite cursor_distance_coincident; [| exact Hi].
    cbv zeta.
    replace (y p - y p) with 0 by ring. replace (x p - x p) with 0 by ring.
    rewrite JsMath_atan2_origin, cos_0, sin_0.
    f_equal; field; lra. }
  rewrite Hr. cbv zeta. simpl. repeat split; reflexivity.
Qed.

Lemma sentinel_no_repulsion_witness :
  let c := {| width := 800; height := 600 |} in
  let p := new_Point 0 0 in
  offscreen c p = false
  /\ influence config <= cursor_distance sentinel sentinel p
  /\ repel sentinel sentinel p = (vx p, vy p)
  /\ contribution sentinel sentinel p = (0, 0).
Proof.
  intros c p.
  assert (Hin : offscreen c p = false).
  { unfold offscreen, c, p; simpl.
    rewrite !ltb_false_intro by lra. reflexivity. }
  split; [exact Hin |].
  exact (proj2 (proj2 sentinel_no_repulsion) c p Hin).
Defined.

End CheckedClaims.

(* ================================================================== *)
(** * Grid construction *)

Section Grid.
Import Renderer.
Open Scope R_scope.

(** The rows-by-columns list the two loops build, by index. *)
Lemma rows_length {A} (g : nat -> nat -> A) m n a :
  List.length (flat_map (fun i => map (g i) (seq 0 m)) (seq a n)) = (n * m)%nat.
Proof.
  revert a; induction n as [| n IH]; intros a; [reflexivity |].
  simpl. rewrite length_app, length_map, length_seq, IH. reflexivity.
Qed.

Lemma rows_nth {A} (g : nat -> nat -> A) m n a i j :
  (i < n)%nat -> (j < m)%nat ->
  nth_error (flat_map (fun i => map (g i) (seq 0 m)) (seq a n)) (i * m + j)
  = Some (g (a + i)%nat j).
Proof.
  revert a i; induction n as [| n IH]; intros a i Hi Hj; [lia |].
  simpl. destruct i as [| i].
  - rewrite nth_error_app1 by (rewrite length_map, length_seq; exact Hj).
    simpl. rewrite nth_error_map, nth_error_seq.
    destruct (Nat.ltb_spec j m) as [_ | Hge]; [| lia].
    simpl. now rewrite Nat.add_0_r.
  - rewrite nth_error_app2 by (rewrite length_map, length_seq; simpl; lia).
    rewrite length_map, length_seq.
    replace (S i * m + j - m)%nat with (i * m + j)%nat by (simpl; lia).
    rewrite IH by lia. f_equal. f_equal. lia.
Qed.

Lemma ceil_nonneg (w : N) : (0 <= JsMath.ceil (IZR (Z.of_N w) / spacing config))%Z.
Proof.
  unfold JsMath.ceil.
  pose proof (Zceil_bound (IZR (Z.of_N w) / spacing config)) as [_ Hup].
  assert (Hw : 0 <= IZR (Z.of_N w)) by (apply IZR_le; lia).
  assert (Hq : 0 <= IZR (Z.of_N w) / spacing config).
  { simpl. lra. }
  apply le_IZR. lra.
Qed.

(** With the spacing of 40 the number of columns is an integer division. *)
Lemma ceil_spacing (w : N) :
  JsMath.ceil (IZR (Z.of_N w) / spacing config) = ((Z.of_N w + 39) / 40)%Z.
Proof.
  unfold JsMath.ceil. apply Zceil_eq. simpl (spacing config).
  set (z := Z.of_N w).
  pose proof (Z.div_mod (z + 39) 40 ltac:(lia)) as Hdm.
  pose proof (Z.mod_pos_bound (z + 39) 40 ltac:(lia)) as Hmod.
  set (q := ((z + 39) / 40)%Z) in *.
  assert (H1 : (40 * q - 39 <= z)%Z) by lia.
  assert (H2 : (z <= 40 * q)%Z) by lia.
  apply IZR_le in H1, H2.
  rewrite minus_IZR, mult_IZR in H1. rewrite mult_IZR in H2.
  split; lra.
Qed.

(** What [initGrid] does when there is a canvas. *)
Lemma initGrid_run st c :
  canvas st = Some c ->
  initGrid st =
    (Normal tt,
     set_points
       (grid_loop
          (JsMath.ceil (IZR (Z.of_N (width c)) / spacing config) + 2)
          (JsMath.ceil (IZR (Z.of_N (height c)) / spacing config) + 2)
          (- spacing config) (- spacing config))
       (set_points [] st)).
Proof.
  intros Hc. unfold initGrid, bind, gets, modify, deref, ret.
  rewrite Hc. reflexivity.
Qed.

Lemma grid_loop_points cols rows sx sy p :
  In p (grid_loop cols rows sx sy) ->
  exists i j, (i < Z.to_nat cols)%nat /\ (j < Z.to_nat rows)%nat
              /\ p = new_Point (sx + INR i * spacing config)
                               (sy + INR j * spacing config).
Proof.
  unfold grid_loop. intros Hin.
  apply in_flat_map in Hin as (i & Hi & Hin).
  apply in_map_iff in Hin as (j & <- & Hj).
  apply in_seq in Hi, Hj. exists i, j. repeat split; lia.
Qed.

Lemma resizeCanvas_run st c w h :
  canvas st = Some c ->
  resizeCanvas w h st =
    initGrid (set_canvas (Some {| width := w; height := h |})
                (set_canvas (Some {| width := w; height := height c |}) st)).
Proof.
  intros Hc. unfold resizeCanvas, bind, gets, modify, deref, ret.
  rewrite Hc. reflexivity.
Qed.

(** The same with the numbers of columns and rows in integers. *)
Lemma initGrid_grid st c :
  canvas st = Some c ->
  initGrid st =
    (Normal tt,
     set_points
       (grid_loop ((Z.of_N (width c) + 39) / 40 + 2)
                  ((Z.of_N (height c) + 39) / 40 + 2)
                  (- spacing config) (- spacing config))
       (set_points [] st)).
Proof.
  intros Hc. rewrite (@initGrid_run st c Hc). now rewrite !ceil_spacing.
Qed.

Lemma resizeCanvas_grid st c w h :
  canvas st = Some c ->
  resizeCanvas w h st =
    (Normal tt,
     set_points
       (grid_loop ((Z.of_N w + 39) / 40 + 2) ((Z.of_N h + 39) / 40 + 2)
                  (- spacing config) (- spacing config))
       (set_points []
          (set_canvas (Some {| width := w; height := h |})
             (set_canvas (Some {| width := w; height := height c |}) st)))).
Proof.
  intros Hc. rewrite (@resizeCanvas_run st c w h Hc).
  now rewrite initGrid_grid with (c := {| width := w; height := h |}).
Qed.

Lemma grid_loop_length (n m : N) sx sy :
  Z.of_nat (List.length
              (grid_loop ((Z.of_N n + 39) / 40 + 2) ((Z.of_N m + 39) / 40 + 2)
                         sx sy))
  = (((Z.of_N n + 39) / 40 + 2) * ((Z.of_N m + 39) / 40 + 2))%Z.
Proof.
  unfold grid_loop. rewrite rows_length.
  pose proof (Z.div_pos (Z.of_N n + 39) 40).
  pose proof (Z.div_pos (Z.of_N m + 39) 40). lia.
Qed.

(** The start-up block on a page whose canvas gives no 2D context. *)
Lemma main_without_context st c w h fr :
  canvas st = Some c -> ctx st = None ->
  main w h fr st =
    (Normal tt,
     add_listener on_mouseleave
       (add_listener on_mousemove
          (add_listener on_resize (exec (resizeCanvas w h) st)))).
Proof.
  intros Hc Hx. unfold main, bind, gets, exec. rewrite Hc.
  change (truthy (Some c)) with true. cbv beta iota.
  rewrite (@resizeCanvas_grid st c w h Hc).
  unfold modify at 1. cbv beta iota.
  match goal with
  | |- context [animate fr ?s] =>
      assert (Ha : animate fr s = (Normal tt, s))
        by (unfold animate, bind, gets; change (ctx s) with (ctx st);
            rewrite Hx; reflexivity);
      rewrite Ha
  end.
  reflexivity.
Qed.

End Grid.

Section GridClaims.
Import Renderer.
Open Scope R_scope.

(** C1.  For a canvas of width W and height H, [initGrid] returns and
    leaves exactly [cols * rows] points, with the spacing [s = 40],
    [cols = ceil(W / s) + 2] and [rows = ceil(H / s) + 2] (in integers,
    [(W + 39) / 40 + 2] and [(H + 39) / 40 + 2]).  The point at index
    [i * rows + j] has its anchor and its position at
    [(-s + i * s, -s + j * s)] and velocity [(0, 0)]; so a pair is the
    anchor of a point exactly when it is one of these lattice points for
    [i] in [0, cols) and [j] in [0, rows), and every point is at its
    anchor, at rest. *)
Theorem initGrid_lattice (st : State) (c : Canvas) :
  canvas st = Some c ->
  let s := spacing config in
  let cols := (Zceil (IZR (Z.of_N (width c)) / s) + 2)%Z in
  let rows := (Zceil (IZR (Z.of_N (height c)) / s) + 2)%Z in
  let ps := points (exec initGrid st) in
  returns initGrid st
  /\ s = 40
  /\ cols = ((Z.of_N (width c) + 39) / 40 + 2)%Z
  /\ rows = ((Z.of_N (height c) + 39) / 40 + 2)%Z
  /\ Z.of_nat (List.length ps) = (cols * rows)%Z
  /\ (forall i j, (0 <= i < cols)%Z -> (0 <= j < rows)%Z ->
        nth_error ps (Z.to_nat (i * rows + j))
        = Some {| originX := - s + IZR i * s; originY := - s + IZR j * s;
                  x := - s + IZR i * s; y := - s + IZR j * s;
                  vx := 0; vy := 0 |})
  /\ (forall ax ay,
        (exists p, In p ps /\ originX p = ax /\ originY p = ay)
        <-> (exists i j, (0 <= i < cols)%Z /\ (0 <= j < rows)%Z
                         /\ ax = - s + IZR i * s /\ ay = - s + IZR j * s))
  /\ (forall p, In p ps ->
        x p = originX p /\ y p = originY p /\ vx p = 0 /\ vy p = 0).
Proof.
  intros Hc s cols rows ps.
  pose proof (ceil_nonneg (width c)) as Hcols.
  pose proof (ceil_nonneg (height c)) as Hrows.
  pose proof (ceil_spacing (width c)) as Hcw.
  pose proof (ceil_spacing (height c)) as Hch.
  unfold JsMath.ceil in Hcols, Hrows, Hcw, Hch.
  fold s in Hcols, Hrows, Hcw, Hch.
  assert (Hps : ps = grid_loop cols rows (- s) (- s)).
  { unfold ps, exec. rewrite (@initGrid_run st c Hc). reflexivity. }
  assert (Hnth : forall i j, (0 <= i < cols)%Z -> (0 <= j < rows)%Z ->
            nth_error ps (Z.to_nat (i * rows + j))
            = Some {| originX := - s + IZR i * s; originY := - s + IZR j * s;
                      x := - s + IZR i * s; y := - s + IZR j * s;
                      vx := 0; vy := 0 |}).
  { intros i j Hi Hj. rewrite Hps. unfold grid_loop.
    replace (Z.to_nat (i * rows + j))
      with (Z.to_nat i * Z.to_nat rows + Z.to_nat j)%nat by nia.
    rewrite rows_nth by lia. simpl plus.
    rewrite !INR_IZR_INZ, !Z2Nat.id by lia. reflexivity. }
  split; [| split; [| split; [| split; [| split; [| split; [| split]]]]]].
  - unfold returns. rewrite (@initGrid_run st c Hc). now exists tt.
  - reflexivity.
  - unfold cols. now rewrite Hcw.
  - unfold rows. now rewrite Hch.
  - rewrite Hps. unfold grid_loop. rewrite rows_length. lia.
  - exact Hnth.
  - intros ax ay. split.
    + intros (p & Hin & <- & <-). rewrite Hps in Hin.
      apply grid_loop_points in Hin as (i & j & Hi & Hj & ->).
      exists (Z.of_nat i), (Z.of_nat j).
      rewrite <- !INR_IZR_INZ. simpl. repeat split; try lia; reflexivity.
    + intros (i & j & Hi & Hj & -> & ->).
      eexists. split; [eapply nth_error_In; exact (Hnth i j Hi Hj) |].
      split; reflexivity.
  - intros p Hin. rewrite Hps in Hin.
    apply grid_loop_points in Hin as (i & j & _ & _ & ->).
    repeat split; reflexivity.
Qed.

Lemma initGrid_lattice_witness :
  let c := {| width := 80; height := 40 |} in
  let st := initial (Some c) true in
  let ps := points (exec initGrid st) in
  canvas st = Some c
  /\ returns initGrid st
  /\ List.length ps = 12%nat
  /\ nth_error ps 0
     = Some {| originX := -40; originY := -40; x := -40; y := -40;
               vx := 0; vy := 0 |}
  /\ nth_error ps 5
     = Some {| originX := 0; originY := 40; x := 0; y := 40;
               vx := 0; vy := 0 |}
  /\ nth_error ps 11
     = Some {| originX := 80; originY := 40; x := 80; y := 40;
               vx := 0; vy := 0 |}
  /\ (exists p, In p ps /\ originX p = 40 /\ originY p = 0)
  /\ ~ (exists p, In p ps /\ originX p = 120 /\ originY p = 0).
Proof.
  intros c st ps.
  destruct (@initGrid_lattice st c eq_refl)
    as (Hret & Hs & Hcols & Hrows & Hlen & Hnth & Hanch & _).
  fold ps in Hlen, Hnth, Hanch.
  change (Z.of_N (width c)) with 80%Z in *.
  change (Z.of_N (height c)) with 40%Z in *.
  rewrite Hcols, Hrows in Hlen. rewrite Hcols, Hrows in Hnth.
  rewrite Hcols, Hrows in Hanch. rewrite Hs in Hnth. rewrite Hs in Hanch.
  change ((80 + 39) / 40 + 2)%Z with 4%Z in *.
  change ((40 + 39) / 40 + 2)%Z with 3%Z in *.
  split; [reflexivity |].
  split; [exact Hret |].
  split; [lia |].
  split.
  { change 0%nat with (Z.to_nat (0 * 3 + 0)).
    rewrite (Hnth 0%Z 0%Z) by lia. repeat f_equal; lra. }
  split.
  { change 5%nat with (Z.to_nat (1 * 3 + 2)).
    rewrite (Hnth 1%Z 2%Z) by lia. repeat f_equal; lra. }
  split.
  { change 11%nat with (Z.to_nat (3 * 3 + 2)).
    rewrite (Hnth 3%Z 2%Z) by lia. repeat f_equal; lra. }
  split.
  { apply Hanch. exists 2%Z, 1%Z. repeat split; try lia; lra. }
  intros Hex. apply Hanch in Hex as (i & j & Hi & Hj & Hx & Hy).
  assert (Hi4 : IZR i = 4) by lra.
  apply eq_IZR in Hi4. lia.
Defined.

(** C7.  A resize (the handler of the resize event, and the call made
    when the script starts) sets the canvas to the viewport size [w] by
    [h] and builds the point collection anew from that size alone:
    whatever points, positions and velocities the state held before, the
    new collection has [cols * rows] points, at least four, with
    [cols = (w + 39) / 40 + 2] and [rows = (h + 39) / 40 + 2]; the point
    at index [i * rows + j] is at its anchor [(40 i - 40, 40 j - 40)] with
    velocity [(0, 0)]; and two states with a canvas get the same
    collection.  The context, the cursor, the listeners and the pending
    frames are left alone. *)
Theorem resizeCanvas_rebuilds (st : State) (c : Canvas) (w h : N) :
  canvas st = Some c ->
  let st' := exec (resizeCanvas w h) st in
  let cols := ((Z.of_N w + 39) / 40 + 2)%Z in
  let rows := ((Z.of_N h + 39) / 40 + 2)%Z in
  returns (resizeCanvas w h) st
  /\ (listening on_resize st = true ->
      exec (dispatch (Resize w h)) st = st')
  /\ canvas st' = Some {| width := w; height := h |}
  /\ Z.of_nat (List.length (points st')) = (cols * rows)%Z
  /\ (4 <= List.length (points st'))%nat
  /\ (forall i j, (0 <= i < cols)%Z -> (0 <= j < rows)%Z ->
        nth_error (points st') (Z.to_nat (i * rows + j))
        = Some {| originX := 40 * IZR i - 40; originY := 40 * IZR j - 40;
                  x := 40 * IZR i - 40; y := 40 * IZR j - 40;
                  vx := 0; vy := 0 |})
  /\ (forall p, In p (points st') ->
        vx p = 0 /\ vy p = 0 /\ x p = originX p /\ y p = originY p)
  /\ (forall st2 c2, canvas st2 = Some c2 ->
        points (exec (resizeCanvas w h) st2) = points st')
  /\ ctx st' = ctx st /\ mouseX st' = mouseX st /\ mouseY st' = mouseY st
  /\ listeners st' = listeners st
  /\ frames_requested st' = frames_requested st.
Proof.
  intros Hc st' cols rows.
  assert (Hrun : forall st0 c0, canvas st0 = Some c0 ->
            resizeCanvas w h st0 =
            (Normal tt,
             set_points
               (grid_loop cols rows (- spacing config) (- spacing config))
               (set_points []
                  (set_canvas (Some {| width := w; height := h |})
                     (set_canvas (Some {| width := w; height := height c0 |})
                        st0))))).
  { intros st0 c0 H0. rewrite (@resizeCanvas_run st0 c0 w h H0).
    rewrite initGrid_run with (c := {| width := w; height := h |})
      by reflexivity.
    simpl width. simpl height. now rewrite !ceil_spacing. }
  assert (Hcols : (2 <= cols)%Z).
  { unfold cols. pose proof (Z.div_pos (Z.of_N w + 39) 40). lia. }
  assert (Hrows : (2 <= rows)%Z).
  { unfold rows. pose proof (Z.div_pos (Z.of_N h + 39) 40). lia. }
  assert (Hps : points st'
                = grid_loop cols rows (- spacing config) (- spacing config)).
  { unfold st', exec. now rewrite (Hrun st c Hc). }
  assert (Hlen : Z.of_nat (List.length (points st')) = (cols * rows)%Z).
  { rewrite Hps. unfold grid_loop. rewrite rows_length. lia. }
  split; [| split; [| split; [| split; [| split; [| split; [| split;
    [| split]]]]]]].
  - unfold returns. rewrite (Hrun st c Hc). now exists tt.
  - intros Hl. unfold st', exec, dispatch, bind, gets. now rewrite Hl.
  - unfold st', exec. now rewrite (Hrun st c Hc).
  - exact Hlen.
  - nia.
  - intros i j Hi Hj. rewrite Hps. unfold grid_loop.
    replace (Z.to_nat (i * rows + j))
      with (Z.to_nat i * Z.to_nat rows + Z.to_nat j)%nat by nia.
    rewrite rows_nth by lia. simpl plus.
    rewrite !INR_IZR_INZ, !Z2Nat.id by lia.
    unfold new_Point. simpl (spacing config). do 2 f_equal; lra.
  - intros p Hin. rewrite Hps in Hin.
    apply grid_loop_points in Hin as (i & j & _ & _ & ->).
    repeat split; reflexivity.
  - intros st2 c2 H2. rewrite Hps. unfold exec. now rewrite (Hrun st2 c2 H2).
  - unfold st', exec. rewrite (Hrun st c Hc). simpl. repeat split.
Qed.

(** C9 (as stated, refuted).  A page whose canvas element exists but
    gives no 2D context has no rendering surface to draw on; yet
    [initGrid] builds the 374 points of the 800 by 600 grid,
    [resizeCanvas] sets the size and builds them too, and the start-up
    block registers the three listeners: none of them leaves the state
    as it was. *)
Lemma context_missing_grid_built :
  let st := initial (Some sample_canvas) false in
  canvas st = Some sample_canvas
  /\ ctx st = None
  /\ points st = []
  /\ List.length (points (exec initGrid st)) = 374%nat
  /\ initGrid st <> (Normal tt, st)
  /\ List.length (points (exec (resizeCanvas 800 600) st)) = 374%nat
  /\ resizeCanvas 800 600 st <> (Normal tt, st)
  /\ listeners (exec (main 800 600 sample_frame) st)
     = [on_resize; on_mousemove; on_mouseleave]
  /\ main 800 600 sample_frame st <> (Normal tt, st).
Proof.
  intros st.
  assert (Hi : List.length (points (exec initGrid st)) = 374%nat).
  { unfold exec. rewrite initGrid_grid with (c := sample_canvas)
      by reflexivity.
    apply Nat2Z.inj.
    exact (grid_loop_length 800 600 (- spacing config) (- spacing config)). }
  assert (Hr : List.length (points (exec (resizeCanvas 800 600) st))
               = 374%nat).
  { unfold exec. rewrite resizeCanvas_grid with (c := sample_canvas)
      by reflexivity.
    apply Nat2Z.inj.
    exact (grid_loop_length 800 600 (- spacing config) (- spacing config)). }
  assert (Hm : listeners (exec (main 800 600 sample_frame) st)
               = [on_resize; on_mousemove; on_mouseleave]).
  { unfold exec at 1.
    rewrite main_without_context with (c := sample_canvas) by reflexivity.
    unfold exec. rewrite resizeCanvas_grid with (c := sample_canvas)
      by reflexivity.
    reflexivity. }
  split; [reflexivity | split; [reflexivity | split; [reflexivity |]]].
  split; [exact Hi |].
  split.
  { intros Heq. unfold exec in Hi. rewrite Heq in Hi. discriminate Hi. }
  split; [exact Hr |].
  split.
  { intros Heq. unfold exec in Hr. rewrite Heq in Hr. discriminate Hr. }
  split; [exact Hm |].
  intros Heq. unfold exec in Hm. rewrite Heq in Hm. discriminate Hm.
Qed.

(** C9 (amended).  The guards test the canvas element, and only
    [animate] tests the 2D context as well.  Without a canvas element
    [initGrid], [resizeCanvas], [animate] and the start-up block return
    normally and leave the whole state as it was: no point is built,
    nothing is drawn, no handler is registered, no frame is requested
    and no exception is raised.  With a canvas whose 2D context is
    missing [animate] still returns at once with the state as it was, so
    nothing is drawn and no frame is requested; but [initGrid] and
    [resizeCanvas] build the grid for the canvas size, and the start-up
    block resizes, registers the three listeners and returns normally. *)
Theorem renderer_guards (st : State) (fr : Frame) (w h : N) :
  (canvas st = None ->
   initGrid st = (Normal tt, st)
   /\ resizeCanvas w h st = (Normal tt, st)
   /\ animate fr st = (Normal tt, st)
   /\ main w h fr st = (Normal tt, st))
  /\ (ctx st = None -> animate fr st = (Normal tt, st))
  /\ (forall c, canvas st = Some c -> ctx st = None ->
      let cols n := ((Z.of_N n + 39) / 40 + 2)%Z in
      let sti := exec initGrid st in
      let str := exec (resizeCanvas w h) st in
      let stm := exec (main w h fr) st in
      (returns initGrid st
       /\ Z.of_nat (List.length (points sti))
          = (cols (width c) * cols (height c))%Z
       /\ points sti <> []
       /\ ctx sti = None /\ frames_requested sti = frames_requested st)
      /\ (returns (resizeCanvas w h) st
          /\ canvas str = Some {| width := w; height := h |}
          /\ Z.of_nat (List.length (points str)) = (cols w * cols h)%Z
          /\ points str <> []
          /\ ctx str = None /\ frames_requested str = frames_requested st)
      /\ (returns (main w h fr) st
          /\ canvas stm = Some {| width := w; height := h |}
          /\ points stm = points str
          /\ listeners stm
             = listeners st ++ [on_resize; on_mousemove; on_mouseleave]
          /\ ctx stm = None
          /\ frames_requested stm = frames_requested st)).
Proof.
  split; [| split].
  - intros Hc. repeat split.
    + unfold initGrid, bind, gets. now rewrite Hc.
    + unfold resizeCanvas, bind, gets. now rewrite Hc.
    + unfold animate, bind, gets. rewrite Hc. simpl.
      now rewrite orb_true_r.
    + unfold main, bind, gets. now rewrite Hc.
  - intros Hx. unfold animate, bind, gets. now rewrite Hx.
  - intros c Hc Hx cols sti str stm.
    assert (Hpos : forall n, (2 <= cols n)%Z).
    { intros n. unfold cols. pose proof (Z.div_pos (Z.of_N n + 39) 40). lia. }
    assert (Hne : forall (l : list Point) a b,
               Z.of_nat (List.length l) = (cols a * cols b)%Z -> l <> []).
    { intros l a b Hl ->. simpl in Hl.
      pose proof (Hpos a). pose proof (Hpos b). nia. }
    assert (Hli : Z.of_nat (List.length (points sti))
                  = (cols (width c) * cols (height c))%Z).
    { unfold sti, exec. rewrite (@initGrid_grid st c Hc). simpl points.
      apply grid_loop_length. }
    assert (Hlr : Z.of_nat (List.length (points str)) = (cols w * cols h)%Z).
    { unfold str, exec. rewrite (@resizeCanvas_grid st c w h Hc).
      simpl points. apply grid_loop_length. }
    split; [| split].
    + split; [unfold returns; rewrite (@initGrid_grid st c Hc); now exists tt |].
      split; [exact Hli |].
      split; [exact (Hne _ _ _ Hli) |].
      unfold sti, exec. rewrite (@initGrid_grid st c Hc). simpl. now split.
    + split; [unfold returns; rewrite (@resizeCanvas_grid st c w h Hc);
              now exists tt |].
      split; [unfold str, exec; now rewrite (@resizeCanvas_grid st c w h Hc) |].
      split; [exact Hlr |].
      split; [exact (Hne _ _ _ Hlr) |].
      unfold str, exec. rewrite (@resizeCanvas_grid st c w h Hc). simpl.
      now split.
    + unfold stm, returns. unfold exec at 1 2 3 4 5.
      rewrite (@main_without_context st c w h fr Hc Hx).
      split; [now exists tt |].
      unfold str, exec. rewrite (@resizeCanvas_grid st c w h Hc). simpl.
      repeat split; try assumption.
      now rewrite <- !app_assoc.
Qed.

End GridClaims.

(* ================================================================== *)
(** * The connecting lines of a frame *)

Section Lines.
Import Renderer.
Open Scope R_scope.

(** A segment starts where some [moveTo] of the calls goes. *)
Lemma segments_start calls a b e :
  In ((a, b), e) (segments calls) -> In (moveTo a b) calls.
Proof.
  induction calls as [| cl rest IH]; simpl; [tauto |].
  destruct cl; try (intros H; right; now apply IH).
  destruct rest as [| cl' rest']; [simpl; tauto |].
  destruct cl'; try (intros H; right; now apply IH).
  intros [Heq | Hin].
  - left. now inversion Heq.
  - right. now apply IH.
Qed.

Lemma update_and_draw_no_moveTo fr mX mY col k ps a b :
  ~ In (moveTo a b) (snd (update_and_draw fr mX mY col k ps)).
Proof.
  revert k; induction ps as [| p rest IH]; intros k; simpl; [tauto |].
  specialize (IH (S k)).
  destruct (update_and_draw fr mX mY col (S k) rest) as [rest' calls].
  simpl in *. intros [H | [H | [H | [H | H]]]]; try discriminate.
  now apply IH.
Qed.

Lemma update_and_draw_points fr mX mY col k ps :
  fst (update_and_draw fr mX mY col k ps)
  = map (fun '(i, p) => update mX mY (now fr i) p)
        (combine (seq k (List.length ps)) ps).
Proof.
  revert k; induction ps as [| p rest IH]; intros k; simpl; [reflexivity |].
  specialize (IH (S k)).
  destruct (update_and_draw fr mX mY col (S k) rest) as [rest' calls].
  simpl in *. now rewrite IH.
Qed.

(** Every [moveTo] of the second pass goes to a point the pass did not
    skip. *)
Lemma connect_all_moveTo c ps a b :
  In (moveTo a b) (connect_all c ps) ->
  exists q, In q ps /\ offscreen c q = false /\ a = x q /\ b = y q.
Proof.
  unfold connect_all. intros Hin.
  apply in_flat_map in Hin as (q & Hq & Hin).
  exists q. split; [exact Hq |].
  unfold connect in Hin.
  destruct (offscreen c q); [contradiction |].
  split; [reflexivity |].
  apply in_app_or in Hin as [Hin | Hin].
  - destruct (find (is_right_neighbor q) ps); simpl in Hin;
      [destruct Hin as [H | [H | []]]; [now inversion H | discriminate] | contradiction].
  - destruct (find (is_bottom_neighbor q) ps); simpl in Hin;
      [destruct Hin as [H | [H | []]]; [now inversion H | discriminate] | contradiction].
Qed.

Lemma offscreen_position c p q :
  x p = x q -> y p = y q -> offscreen c p = offscreen c q.
Proof. unfold offscreen. now intros -> ->. Qed.

Lemma paint_moveTo fr mX mY c ps a b :
  In (moveTo a b) (snd (paint fr mX mY c ps)) ->
  In (moveTo a b) (connect_all c (fst (paint fr mX mY c ps))).
Proof.
  unfold paint.
  pose proof (update_and_draw_no_moveTo fr mX mY
                (if isDark fr then "96, 165, 250"%string
                 else "59, 130, 246"%string) 0 ps a b) as Hno.
  destruct (update_and_draw _ _ _ _ _ _) as [ps' discs].
  simpl fst; simpl snd in *. intros Hin.
  destruct Hin as [H | Hin]; [discriminate |].
  apply in_app_or in Hin as [Hin | Hin]; [contradiction |].
  destruct Hin as [H | Hin]; [discriminate |].
  apply in_app_or in Hin as [Hin | Hin]; [exact Hin |].
  destruct Hin as [H | [H | [H | []]]]; discriminate.
Qed.

Lemma segments_cons cl calls s :
  In s (segments calls) -> In s (segments (cl :: calls)).
Proof.
  intros Hin. destruct cl; simpl; trivial.
  destruct calls as [| cl' rest]; trivial.
  destruct cl'; trivial. now right.
Qed.

(** A [moveTo] directly followed by a [lineTo] is a segment, wherever it
    stands in the calls. *)
Lemma segments_intro pre post a b a' b' :
  In ((a, b), (a', b')) (segments (pre ++ moveTo a b :: lineTo a' b' :: post)).
Proof.
  induction pre as [| cl pre IH].
  - simpl. now left.
  - rewrite <- app_comm_cons. now apply segments_cons.
Qed.

Lemma paint_parts fr mX mY c ps :
  let rgbColor : string :=
    if isDark fr then "96, 165, 250"%string else "59, 130, 246"%string in
  let ud := update_and_draw fr mX mY rgbColor 0 ps in
  paint fr mX mY c ps =
    (fst ud,
     [clearRect 0 0 (IZR (Z.of_N (width c))) (IZR (Z.of_N (height c)))]
     ++ snd ud ++ [beginPath] ++ connect_all c (fst ud)
     ++ [strokeStyle ("rgba(" ++ rgbColor ++ ", 0.12)")%string;
         lineWidth 1; stroke]).
Proof.
  intros rgbColor ud. unfold paint. fold rgbColor. fold ud.
  now destruct ud.
Qed.

(** What [animate] does when there are a canvas and a context. *)
Lemma animate_run fr st c calls :
  canvas st = Some c -> ctx st = Some calls ->
  animate fr st =
    (Normal tt,
     request_frame
       (set_ctx (Some (calls ++ snd (paint fr (mouseX st) (mouseY st) c (points st))))
          (set_points (fst (paint fr (mouseX st) (mouseY st) c (points st))) st))).
Proof.
  intros Hc Hx. unfold animate, bind, gets, modify, deref, ret.
  rewrite Hc, Hx. simpl.
  now destruct (paint fr (mouseX st) (mouseY st) c (points st)).
Qed.

(** One frame of a point the cursor does not reach: the known part of
    the move, and the at most 0.225 the drift adds on each axis. *)
Lemma update_far_bounds mX mY now p :
  influence config <= cursor_distance mX mY p ->
  let q := update mX mY now p in
  -0.225 <= x q - (x p + (vx p + (originX p - x p) * 0.05) * 0.9) <= 0.225
  /\ -0.225 <= y q - (y p + (vy p + (originY p - y p) * 0.05) * 0.9) <= 0.225.
Proof.
  intros Hfar q. unfold q, update, update_with.
  rewrite (repel_far _ _ _ Hfar). cbv zeta. simpl.
  pose proof (SIN_bound (IZR now * 0.001 + originY p * 0.05)) as Hs.
  pose proof (COS_bound (IZR now * 0.001 + originX p * 0.05)) as Hc.
  split; lra.
Qed.

Lemma ltb_abs_true a : -1 < a < 1 -> JsMath.ltb (JsMath.abs a) 1 = true.
Proof.
  intros H. apply ltb_true_intro. unfold JsMath.abs. apply Rabs_def1; lra.
Qed.

Lemma ltb_abs_false a : 1 <= a \/ a <= -1 -> JsMath.ltb (JsMath.abs a) 1 = false.
Proof.
  intros H. apply ltb_false_intro. unfold JsMath.abs.
  destruct H as [H | H]; [rewrite Rabs_right | rewrite Rabs_left1]; lra.
Qed.

End Lines.

Section LinesClaims.
Import Renderer.
Open Scope R_scope.

(** C4 (as stated, refuted).  A frame of two points on an 800 by 600
    canvas: one at the anchor (0, 0), the other anchored at (40, 0), its
    right neighbour, but standing 2000 units to the right.  After the
    update the second point is far beyond the margin, and the frame
    still emits the segment from the first point to it: a point outside
    the margin is the far end of a segment. *)
Lemma offscreen_point_ends_segment :
  let c := {| width := 800; height := 600 |} in
  let fr := {| isDark := false; now := fun _ => 0%Z |} in
  let a := new_Point 0 0 in
  let b := {| originX := 40; originY := 0; x := 2000; y := 0;
              vx := 0; vy := 0 |} in
  let a' := update sentinel sentinel 0 a in
  let b' := update sentinel sentinel 0 b in
  fst (paint fr sentinel sentinel c [a; b]) = [a'; b']
  /\ offscreen c b' = true
  /\ In ((x a', y a'), (x b', y b'))
        (segments (snd (paint fr sentinel sentinel c [a; b]))).
Proof.
  intros c fr a b a' b'.
  assert (Hfa : influence config <= cursor_distance sentinel sentinel a)
    by (apply far_left_of; unfold sentinel, a; simpl; lra).
  assert (Hfb : influence config <= cursor_distance sentinel sentinel b)
    by (apply far_left_of; unfold sentinel, b; simpl; lra).
  destruct (@update_far_bounds sentinel sentinel 0%Z a Hfa) as [Hax Hay]. fold a' in Hax, Hay.
  destruct (@update_far_bounds sentinel sentinel 0%Z b Hfb) as [Hbx Hby]. fold b' in Hbx, Hby.
  unfold a in Hax, Hay; unfold b in Hbx, Hby; simpl in Hax, Hay, Hbx, Hby.
  destruct (update_with_origin 5 sentinel sentinel 0 a) as [Oax Oay].
  destruct (update_with_origin 5 sentinel sentinel 0 b) as [Obx Oby].
  fold (update sentinel sentinel 0 a) in Oax, Oay. fold a' in Oax, Oay.
  fold (update sentinel sentinel 0 b) in Obx, Oby. fold b' in Obx, Oby.
  simpl in Oax, Oay, Obx, Oby.
  assert (Hoa : offscreen c a' = false).
  { unfold offscreen, c; simpl. rewrite !ltb_false_intro by lra. reflexivity. }
  assert (Hob : offscreen c b' = true).
  { unfold offscreen, c; simpl.
    rewrite (@ltb_false_intro (x b') (-50)) by lra.
    rewrite (@ltb_true_intro (800 + 50) (x b')) by lra. reflexivity. }
  assert (Hr : find (is_right_neighbor a') [a'; b'] = Some b').
  { simpl. unfold is_right_neighbor. rewrite Oax, Oay, Obx, Oby. simpl.
    rewrite (@ltb_abs_false (0 - (0 + 40))) by lra.
    rewrite !ltb_abs_true by lra. reflexivity. }
  assert (Hb : find (is_bottom_neighbor a') [a'; b'] = None).
  { simpl. unfold is_bottom_neighbor. rewrite Oax, Oay, Obx, Oby. simpl.
    rewrite (@ltb_abs_false (0 - (0 + 40))) by lra.
    rewrite (@ltb_abs_false (40 - 0)) by lra.
    rewrite andb_false_r. reflexivity. }
  assert (Hps : fst (paint fr sentinel sentinel c [a; b]) = [a'; b']).
  { rewrite paint_parts. reflexivity. }
  split; [exact Hps | split; [exact Hob |]].
  rewrite paint_parts. cbv zeta. unfold snd at 1.
  change (fst (update_and_draw fr sentinel sentinel
                 (if isDark fr then "96, 165, 250"%string
                  else "59, 130, 246"%string) 0 [a; b]))
    with [a'; b'].
  unfold connect_all. simpl flat_map. unfold connect at 1.
  rewrite Hoa, Hr, Hb.
  simpl app. do 10 apply segments_cons.
  simpl segments. now left.
Qed.

(** C4 (amended).  In every frame, for every point that is more than the
    50-unit margin outside the canvas on some axis once the points have
    been updated, no connecting segment of the frame starts at that
    point: the second pass draws nothing from it.  (It can still be the
    far end of the segment drawn from an on-screen left or upper
    neighbour.) *)
Theorem offscreen_point_starts_no_segment
        (fr : Frame) (st : State) (c : Canvas) (calls : list Call) :
  canvas st = Some c -> ctx st = Some calls ->
  let st' := exec (animate fr) st in
  exists new_calls,
    ctx st' = Some (calls ++ new_calls)
    /\ new_calls = snd (paint fr (mouseX st) (mouseY st) c (points st))
    /\ forall p, In p (points st') -> offscreen c p = true ->
         forall seg, In seg (segments new_calls) -> fst seg <> (x p, y p).
Proof.
  intros Hc Hx st'.
  exists (snd (paint fr (mouseX st) (mouseY st) c (points st))).
  unfold st', exec. rewrite (@animate_run fr st c calls Hc Hx). simpl.
  split; [reflexivity | split; [reflexivity |]].
  intros p Hp Hoff [[a b] e] Hseg Heq. simpl in Heq. inversion Heq; subst a b.
  apply segments_start, paint_moveTo, connect_all_moveTo in Hseg.
  destruct Hseg as (q & _ & Hq & Hxq & Hyq).
  rewrite (offscreen_position c p q Hxq Hyq) in Hoff. congruence.
Qed.

End LinesClaims.

(* ================================================================== *)
(** * The contact form *)

Section ContactForm.
Import Contact.

Ltac run_submit :=
  unfold on_submit, try_finally, try_catch, emailjs_send, form_reset,
    button_text, button_disabled, status_textContent, status_color,
    bind, gets, modify, deref, ret, throw; simpl.

Lemma accepted_split fd :
  accepted fd = negb (some_empty fd)
                && test email_pattern (trim (or_empty (email fd))).
Proof. reflexivity. Qed.

(** The four ways a submit ends when the status line is there. *)
Lemma on_submit_empty reply pg s :
  statusEl pg = Some s -> some_empty (values pg) = true ->
  on_submit reply pg =
    (Normal tt,
     set_statusEl (Some {| textContent := "Please fill all fields.";
                           style_color := "#ef4444" |})
       (set_defaultPrevented pg)).
Proof.
  destruct pg as [fd dflt btn st snt rs cons dp]. simpl. intros -> He.
  unfold some_empty in He. run_submit. rewrite He. reflexivity.
Qed.

Lemma on_submit_invalid reply pg s :
  statusEl pg = Some s -> some_empty (values pg) = false ->
  test email_pattern (trim (or_empty (email (values pg)))) = false ->
  on_submit reply pg =
    (Normal tt,
     set_statusEl (Some {| textContent := "Please enter a valid email address.";
                           style_color := "#ef4444" |})
       (set_defaultPrevented pg)).
Proof.
  destruct pg as [fd dflt btn st snt rs cons dp]. simpl. intros -> He Hv.
  unfold some_empty in He. run_submit. rewrite He, Hv. reflexivity.
Qed.

Lemma on_submit_no_button reply pg :
  accepted (values pg) = true -> submitBtn pg = None ->
  on_submit reply pg = (Thrown "TypeError", set_defaultPrevented pg).
Proof.
  destruct pg as [fd dflt btn st snt rs cons dp]. simpl. intros Ha ->.
  rewrite accepted_split in Ha. apply andb_prop in Ha as [He Hv].
  apply negb_true_iff in He. unfold some_empty in He.
  run_submit. rewrite He, Hv. reflexivity.
Qed.

Lemma on_submit_resolved pg s b :
  statusEl pg = Some s -> submitBtn pg = Some b ->
  accepted (values pg) = true ->
  on_submit Resolved pg =
    (Normal tt,
     {| values := defaults pg; defaults := defaults pg;
        submitBtn := Some {| button_textContent := button_textContent b;
                             disabled := false |};
        statusEl :=
          Some {| textContent :=
                    "Message sent successfully! I'll get back to you soon.";
                  style_color := "#22c55e" |};
        sent := sent pg ++ [the_send (values pg)];
        resets := S (resets pg);
        console := console pg;
        defaultPrevented := true |}).
Proof.
  destruct pg as [fd dflt btn st snt rs cons dp]. simpl. intros -> -> Ha.
  rewrite accepted_split in Ha. apply andb_prop in Ha as [He Hv].
  apply negb_true_iff in He. unfold some_empty in He.
  run_submit. rewrite He, Hv. reflexivity.
Qed.

Lemma on_submit_rejected err pg s b :
  statusEl pg = Some s -> submitBtn pg = Some b ->
  accepted (values pg) = true ->
  on_submit (Rejected err) pg =
    (Normal tt,
     {| values := values pg; defaults := defaults pg;
        submitBtn := Some {| button_textContent := button_textContent b;
                             disabled := false |};
        statusEl :=
          Some {| textContent :=
                    "❌ Failed to send message. Please try again or email me directly.";
                  style_color := "#ef4444" |};
        sent := sent pg ++ [the_send (values pg)];
        resets := resets pg;
        console := console pg ++ [("EmailJS error: " ++ err)%string];
        defaultPrevented := true |}).
Proof.
  destruct pg as [fd dflt btn st snt rs cons dp]. simpl. intros -> -> Ha.
  rewrite accepted_split in Ha. apply andb_prop in Ha as [He Hv].
  apply negb_true_iff in He. unfold some_empty in He.
  run_submit. rewrite He, Hv. reflexivity.
Qed.

(** The ways a submit ends when the status line is missing. *)
Lemma accepted_false_cases fd :
  accepted fd = false ->
  some_empty fd = true
  \/ (some_empty fd = false
      /\ test email_pattern (trim (or_empty (email fd))) = false).
Proof.
  rewrite accepted_split. destruct (some_empty fd); simpl; auto.
Qed.

Lemma on_submit_no_status_refused reply pg :
  statusEl pg = None -> accepted (values pg) = false ->
  on_submit reply pg = (Thrown "TypeError", set_defaultPrevented pg).
Proof.
  destruct pg as [fd dflt btn st snt rs cons dp]. simpl. intros -> Ha.
  apply accepted_false_cases in Ha as [He | [He Hv]]; unfold some_empty in He;
    run_submit; rewrite He; [| rewrite Hv]; reflexivity.
Qed.

Lemma on_submit_no_status_accepted reply pg b :
  statusEl pg = None -> submitBtn pg = Some b -> accepted (values pg) = true ->
  on_submit reply pg =
    (Thrown "TypeError",
     set_submitBtn (Some {| button_textContent := "Sending..."; disabled := true |})
       (set_defaultPrevented pg)).
Proof.
  destruct pg as [fd dflt btn st snt rs cons dp]. simpl. intros -> -> Ha.
  rewrite accepted_split in Ha. apply andb_prop in Ha as [He Hv].
  apply negb_true_iff in He. unfold some_empty in He.
  run_submit. rewrite He, Hv. reflexivity.
Qed.

Lemma app_one_neq {A} (l : list A) a : l ++ [a] <> l.
Proof.
  intros H. apply (f_equal (@List.length A)) in H.
  rewrite length_app in H. simpl in H. lia.
Qed.

End ContactForm.

Section ContactClaims.
Import Contact.

(** C10 (as stated, refuted).  On a page without the status line a
    submit whose address fails the pattern sets no error message and
    does not return: the listener ends in a [TypeError] at the write to
    the status line. *)
Lemma submit_without_status_throws :
  let pg := set_statusEl None (sample_page "Ada" "ada@example" "Hello") in
  let pg' := exec (on_submit Resolved) pg in
  statusEl pg = None
  /\ accepted (values pg) = false
  /\ on_submit Resolved pg = (Thrown "TypeError", set_defaultPrevented pg)
  /\ ~ returns (on_submit Resolved) pg
  /\ statusEl pg' = None.
Proof.
  intros pg pg'.
  assert (Ha : accepted (values pg) = false) by (vm_compute; reflexivity).
  assert (Hrun : on_submit Resolved pg
                 = (Thrown "TypeError", set_defaultPrevented pg))
    by (apply on_submit_no_status_refused; [reflexivity | exact Ha]).
  split; [reflexivity | split; [exact Ha | split; [exact Hrun |]]].
  split.
  - intros [a Hret]. rewrite Hrun in Hret. discriminate Hret.
  - unfold pg', exec. rewrite Hrun. reflexivity.
Qed.

(** C10 (amended).  On every submit, whatever the page holds: a call of
    [emailjs.send] is made only if the trimmed name, address and message
    are all non-empty and the address matches the pattern; if one of
    these checks fails no call is made and the form is untouched, and
    then, when the status line exists, the listener writes one of its
    two error messages to it, in red, and returns, while without the
    status line it ends in a [TypeError] with no message written; and
    the form is reset only when the call was made and its promise
    resolved. *)
Theorem submit_sends_only_valid (reply : Reply) (pg : Page) :
  let pg' := exec (on_submit reply) pg in
  (sent pg' <> sent pg -> accepted (values pg) = true)
  /\ (accepted (values pg) = false ->
      sent pg' = sent pg
      /\ resets pg' = resets pg
      /\ values pg' = values pg
      /\ (forall s, statusEl pg = Some s ->
            returns (on_submit reply) pg
            /\ exists s',
                statusEl pg' = Some s'
                /\ style_color s' = "#ef4444"%string
                /\ (textContent s' = "Please fill all fields."%string
                    \/ textContent s'
                       = "Please enter a valid email address."%string))
      /\ (statusEl pg = None ->
            fst (on_submit reply pg) = Thrown "TypeError"
            /\ statusEl pg' = None))
  /\ (resets pg' <> resets pg \/ values pg' <> values pg ->
      accepted (values pg) = true
      /\ reply = Resolved
      /\ sent pg' = sent pg ++ [the_send (values pg)]).
Proof.
  intros pg'. unfold pg', exec, returns.
  destruct (accepted (values pg)) eqn:Ha.
  - split; [reflexivity | split; [discriminate |]].
    destruct (statusEl pg) as [s |] eqn:Hs;
      destruct (submitBtn pg) as [b |] eqn:Hb.
    + destruct reply as [| err].
      * rewrite (on_submit_resolved pg Hs Hb Ha). simpl. auto.
      * rewrite (on_submit_rejected err pg Hs Hb Ha). simpl.
        intros [H | H]; congruence.
    + rewrite (on_submit_no_button reply pg Ha Hb). simpl.
      intros [H | H]; congruence.
    + rewrite (on_submit_no_status_accepted reply pg Hs Hb Ha). simpl.
      intros [H | H]; congruence.
    + rewrite (on_submit_no_button reply pg Ha Hb). simpl.
      intros [H | H]; congruence.
  - destruct (statusEl pg) as [s |] eqn:Hs.
    + assert (Hrun : exists msg,
                on_submit reply pg =
                  (Normal tt,
                   set_statusEl
                     (Some {| textContent := msg; style_color := "#ef4444" |})
                     (set_defaultPrevented pg))
                /\ (msg = "Please fill all fields."%string
                    \/ msg = "Please enter a valid email address."%string)).
      { apply accepted_false_cases in Ha as [He | [He Hv]].
        - eexists. split; [now apply on_submit_empty with (s := s) | now left].
        - eexists. split; [now apply on_submit_invalid with (s := s)
                          | now right]. }
      destruct Hrun as (msg & -> & Hmsg). simpl.
      split; [congruence | split; [| intros [H | H]; congruence]].
      intros _.
      split; [reflexivity | split; [reflexivity | split; [reflexivity |]]].
      split; [| discriminate].
      intros ? _. split; [now exists tt |].
      eexists; repeat split; simpl; auto.
    + rewrite (on_submit_no_status_refused reply pg Hs Ha). simpl.
      split; [congruence | split; [| intros [H | H]; congruence]].
      intros _.
      split; [reflexivity | split; [reflexivity | split; [reflexivity |]]].
      split; [discriminate |].
      intros _. split; [reflexivity | exact Hs].
Qed.

End ContactClaims.

(* ================================================================== *)
(** * The theorems at work on the example pages *)

Section Examples.
Import Renderer.
Open Scope R_scope.

Lemma offscreen_point_starts_no_segment_witness :
  let st' := exec (animate sample_frame) sample_state in
  canvas sample_state = Some sample_canvas
  /\ ctx sample_state = Some []
  /\ exists new_calls,
      ctx st' = Some ([] ++ new_calls)
      /\ new_calls = snd (paint sample_frame (mouseX sample_state)
                            (mouseY sample_state) sample_canvas
                            (points sample_state))
      /\ forall p, In p (points st') -> offscreen sample_canvas p = true ->
           forall seg, In seg (segments new_calls) -> fst seg <> (x p, y p).
Proof.
  intros st'.
  split; [reflexivity | split; [reflexivity |]].
  apply (@offscreen_point_starts_no_segment
           sample_frame sample_state sample_canvas []); reflexivity.
Defined.

Lemma resizeCanvas_rebuilds_witness :
  let st' := exec (resizeCanvas 80 40) sample_state in
  canvas sample_state = Some sample_canvas
  /\ listening on_resize sample_state = true
  /\ points sample_state = [new_Point 0 0; stray; moving]
  /\ returns (resizeCanvas 80 40) sample_state
  /\ exec (dispatch (Resize 80 40)) sample_state = st'
  /\ canvas st' = Some {| width := 80; height := 40 |}
  /\ List.length (points st') = 12%nat
  /\ nth_error (points st') 0
     = Some {| originX := -40; originY := -40; x := -40; y := -40;
               vx := 0; vy := 0 |}
  /\ nth_error (points st') 11
     = Some {| originX := 80; originY := 40; x := 80; y := 40;
               vx := 0; vy := 0 |}
  /\ ~ In stray (points st') /\ ~ In moving (points st').
Proof.
  intros st'.
  destruct (@resizeCanvas_rebuilds sample_state sample_canvas 80 40 eq_refl)
    as (Hret & Hdis & Hcv & Hlen & _ & Hnth & Hrest & _).
  fold st' in Hdis, Hcv, Hlen, Hnth, Hrest.
  change ((Z.of_N 80 + 39) / 40 + 2)%Z with 4%Z in *.
  change ((Z.of_N 40 + 39) / 40 + 2)%Z with 3%Z in *.
  split; [reflexivity | split; [reflexivity | split; [reflexivity |]]].
  split; [exact Hret |].
  split; [exact (Hdis eq_refl) |].
  split; [exact Hcv |].
  split; [lia |].
  split.
  { change 0%nat with (Z.to_nat (0 * 3 + 0)).
    rewrite (Hnth 0%Z 0%Z) by lia. repeat f_equal; lra. }
  split.
  { change 11%nat with (Z.to_nat (3 * 3 + 2)).
    rewrite (Hnth 3%Z 2%Z) by lia. repeat f_equal; lra. }
  split; intros Hin; apply Hrest in Hin as (_ & _ & Hx & _);
    unfold stray, moving in Hx; simpl in Hx; lra.
Defined.

Lemma renderer_guards_witness :
  let st := initial None false in
  let st2 := initial (Some sample_canvas) false in
  (canvas st = None /\ ctx st = None
   /\ initGrid st = (Normal tt, st)
   /\ resizeCanvas 800 600 st = (Normal tt, st)
   /\ animate sample_frame st = (Normal tt, st)
   /\ main 800 600 sample_frame st = (Normal tt, st))
  /\ (canvas st2 = Some sample_canvas /\ ctx st2 = None
      /\ animate sample_frame st2 = (Normal tt, st2)
      /\ List.length (points (exec initGrid st2)) = 374%nat
      /\ returns (main 800 600 sample_frame) st2
      /\ listeners (exec (main 800 600 sample_frame) st2)
         = [on_resize; on_mousemove; on_mouseleave]
      /\ frames_requested (exec (main 800 600 sample_frame) st2) = 0%nat).
Proof.
  intros st st2. split.
  - split; [reflexivity | split; [reflexivity |]].
    exact (proj1 (renderer_guards st sample_frame 800 600) eq_refl).
  - destruct (renderer_guards st2 sample_frame 800 600) as (_ & Ha & Hb).
    destruct (Hb sample_canvas eq_refl eq_refl)
      as ((_ & Hli & _) & _ & (Hret & _ & _ & Hls & _ & Hfr)).
    split; [reflexivity | split; [reflexivity |]].
    split; [exact (Ha eq_refl) |].
    split.
    { change (Z.of_N (width sample_canvas)) with 800%Z in Hli.
      change (Z.of_N (height sample_canvas)) with 600%Z in Hli.
      change (((800 + 39) / 40 + 2) * ((600 + 39) / 40 + 2))%Z
        with 374%Z in Hli.
      lia. }
    split; [exact Hret |].
    split; [exact Hls | exact Hfr].
Defined.

End Examples.

Section ContactExamples.
Import Contact.

Lemma submit_sends_only_valid_witness :
  let pg := sample_page "Ada" "ada@example" "Hello" in
  let pg' := exec (on_submit Resolved) pg in
  let ok := sample_page " Ada " "ada@example.org" "Hello" in
  let ok' := exec (on_submit Resolved) ok in
  (statusEl pg = Some {| textContent := ""; style_color := "" |}
   /\ accepted (values pg) = false
   /\ sent pg' = sent pg
   /\ resets pg' = resets pg
   /\ values pg' = values pg
   /\ returns (on_submit Resolved) pg
   /\ exists s',
       statusEl pg' = Some s'
       /\ style_color s' = "#ef4444"%string
       /\ (textContent s' = "Please fill all fields."%string
           \/ textContent s' = "Please enter a valid email address."%string))
  /\ (resets ok' <> resets ok
      /\ accepted (values ok) = true
      /\ sent ok' = sent ok ++ [the_send (values ok)]).
Proof.
  intros pg pg' ok ok'. split.
  - destruct (proj1 (proj2 (submit_sends_only_valid Resolved pg)))
      as (Hsent & Hres & Hval & Hst & _); [vm_compute; reflexivity |].
    split; [reflexivity |].
    split; [vm_compute; reflexivity |].
    split; [exact Hsent | split; [exact Hres | split; [exact Hval |]]].
    exact (Hst _ eq_refl).
  - assert (Hr : resets ok' <> resets ok) by (vm_compute; discriminate).
    destruct (proj2 (proj2 (submit_sends_only_valid Resolved ok)) (or_introl Hr))
      as (Ha & _ & Hsent).
    split; [exact Hr | split; [exact Ha | exact Hsent]].
Defined.

End ContactExamples.

(* ================================================================== *)
(** * The renderer over time *)

Section Trace.
Import Renderer.
Open Scope R_scope.

Lemma update_and_draw_anchors fr mX mY col k ps :
  anchors (fst (update_and_draw fr mX mY col k ps)) = anchors ps.
Proof.
  revert k; induction ps as [| p rest IH]; intros k; simpl; [reflexivity |].
  specialize (IH (S k)).
  destruct (update_and_draw fr mX mY col (S k) rest) as [rest' calls].
  simpl in *. rewrite IH. f_equal.
  destruct (update_with_origin 5 mX mY (now fr k) p) as [Hx Hy].
  unfold update. now rewrite Hx, Hy.
Qed.

Lemma paint_anchors fr mX mY c ps :
  anchors (fst (paint fr mX mY c ps)) = anchors ps.
Proof. rewrite paint_parts. cbv zeta. simpl fst. apply update_and_draw_anchors. Qed.

Lemma initGrid_lattice_points st c :
  canvas st = Some c ->
  initGrid st = (Normal tt, set_points (lattice (width c) (height c)) st).
Proof. intros Hc. rewrite (@initGrid_run st c Hc). reflexivity. Qed.

Lemma resizeCanvas_lattice st c w h :
  canvas st = Some c ->
  resizeCanvas w h st =
    (Normal tt,
     set_points (lattice w h)
       (set_canvas (Some {| width := w; height := h |}) st)).
Proof.
  intros Hc. rewrite (@resizeCanvas_run st c w h Hc).
  rewrite initGrid_lattice_points with (c := {| width := w; height := h |});
    reflexivity.
Qed.

(** The script on a page with a canvas. *)
Lemma main_run cv has2d w h fr :
  let st1 := set_points (lattice w h)
               (set_canvas (Some {| width := w; height := h |})
                  (initial (Some cv) has2d)) in
  main w h fr (initial (Some cv) has2d) =
    (Normal tt,
     add_listener on_mouseleave
       (add_listener on_mousemove
          (exec (animate fr) (add_listener on_resize st1)))).
Proof.
  intros st1. unfold main, bind, gets.
  change (truthy (canvas (initial (Some cv) has2d))) with true. cbv beta iota.
  rewrite resizeCanvas_lattice with (c := cv) by reflexivity.
  fold st1. unfold modify at 1. unfold exec.
  destruct has2d.
  - rewrite animate_run with (c := {| width := w; height := h |}) (calls := [])
      by reflexivity.
    reflexivity.
  - replace (animate fr (add_listener on_resize st1))
      with (Normal tt, add_listener on_resize st1); [reflexivity |].
    unfold animate, bind, gets. reflexivity.
Qed.

Lemma started_running cv has2d w h fr :
  running has2d (started (Some cv) has2d w h fr)
  /\ canvas (started (Some cv) has2d w h fr) = Some {| width := w; height := h |}
  /\ mouseX (started (Some cv) has2d w h fr) = sentinel
  /\ mouseY (started (Some cv) has2d w h fr) = sentinel.
Proof.
  unfold started, exec. rewrite main_run. cbv zeta. unfold exec.
  destruct has2d.
  - rewrite animate_run with (c := {| width := w; height := h |}) (calls := [])
      by reflexivity.
    unfold running. simpl. repeat split.
    + eexists; split; [reflexivity |]. apply paint_anchors.
    + eexists; reflexivity.
  - replace (animate fr _) with
      (Normal tt : completion unit,
       add_listener on_resize
         (set_points (lattice w h)
            (set_canvas (Some {| width := w; height := h |})
               (initial (Some cv) false))))
      by (unfold animate, bind, gets; reflexivity).
    unfold running. simpl. repeat split.
    eexists; split; reflexivity.
Qed.

(** One event, on a running page. *)
Lemma dispatch_running has2d ev st :
  running has2d st ->
  returns (dispatch ev) st
  /\ running has2d (exec (dispatch ev) st)
  /\ (exists c, canvas st = Some c
        /\ canvas (exec (dispatch ev) st)
           = Some (let '(w, h) := last_size (width c) (height c) [ev] in
                   {| width := w; height := h |}))
  /\ (mouseX (exec (dispatch ev) st), mouseY (exec (dispatch ev) st))
     = last_cursor (mouseX st) (mouseY st) [ev].
Proof.
  intros (Hl & (c & Hc & Ha) & Hx).
  assert (Hcan : {| width := width c; height := height c |} = c)
    by (destruct c; reflexivity).
  assert (Hl1 : listening on_resize st = true)
    by (unfold listening; rewrite Hl; reflexivity).
  assert (Hl2 : listening on_mousemove st = true)
    by (unfold listening; rewrite Hl; reflexivity).
  assert (Hl3 : listening on_mouseleave st = true)
    by (unfold listening; rewrite Hl; reflexivity).
  destruct ev as [w h | cx cy | | fr]; unfold exec, returns, dispatch, bind, gets;
    rewrite ?Hl1, ?Hl2, ?Hl3; cbv beta iota.
  - rewrite (@resizeCanvas_lattice st c w h Hc). simpl.
    split; [now exists tt |]. split; [| split; [exists c; auto | reflexivity]].
    unfold running; simpl. split; [exact Hl |]. split; [| exact Hx].
    eexists; split; reflexivity.
  - unfold on_mousemove_handler, modify; simpl.
    split; [now exists tt |]. split; [| split; [| reflexivity]].
    + unfold running; simpl. split; [exact Hl |]. split; [| exact Hx]. now exists c.
    + exists c. now rewrite Hcan.
  - unfold on_mouseleave_handler, modify; simpl.
    split; [now exists tt |]. split; [| split; [| reflexivity]].
    + unfold running; simpl. split; [exact Hl |]. split; [| exact Hx]. now exists c.
    + exists c. now rewrite Hcan.
  - destruct has2d.
    + destruct Hx as [[calls Hcalls] Hf]. rewrite Hf. unfold modify.
      rewrite animate_run with (c := c) (calls := calls) by (simpl; assumption).
      simpl. split; [now exists tt |]. split; [| split; [| reflexivity]].
      * unfold running; simpl. split; [exact Hl |]. split.
        -- exists c. split; [exact Hc |]. now rewrite paint_anchors.
        -- split; [eexists; reflexivity | now rewrite Hf].
      * exists c. now rewrite Hcan.
    + destruct Hx as [Hnone Hf]. rewrite Hf. unfold ret; simpl.
      split; [now exists tt |]. split; [| split; [| reflexivity]].
      * unfold running. split; [exact Hl |]. split; [now exists c | now split].
      * exists c. now rewrite Hcan.
Qed.

Lemma last_size_app w h evs ev :
  last_size w h (evs ++ [ev])
  = let '(w', h') := last_size w h evs in last_size w' h' [ev].
Proof.
  revert w h; induction evs as [| e rest IH]; intros w h; simpl.
  - now destruct ev.
  - destruct e; apply IH.
Qed.

Lemma run_events_running has2d evs st c :
  running has2d st -> canvas st = Some c ->
  running has2d (run_events evs st)
  /\ canvas (run_events evs st)
     = Some (let '(w, h) := last_size (width c) (height c) evs in
             {| width := w; height := h |})
  /\ (mouseX (run_events evs st), mouseY (run_events evs st))
     = last_cursor (mouseX st) (mouseY st) evs.
Proof.
  revert st c; induction evs as [| ev rest IH]; intros st c Hrun Hc.
  - simpl. split; [exact Hrun |]. split; [| reflexivity].
    rewrite Hc. now destruct c.
  - destruct (dispatch_running ev Hrun) as (_ & Hrun' & (c0 & Hc0 & Hc') & Hm).
    rewrite Hc in Hc0. injection Hc0 as <-.
    simpl run_events.
    destruct (IH _ _ Hrun' Hc') as (Hr & Hcv & Hms).
    split; [exact Hr |]. split.
    + rewrite Hcv. destruct ev; simpl; reflexivity.
    + rewrite Hms. destruct ev; simpl in Hm |- *;
        injection Hm as -> ->; reflexivity.
Qed.

End Trace.

Section TraceProperties.
Import Renderer.
Open Scope R_scope.

Lemma lattice_length w h :
  Z.of_nat (List.length (lattice w h))
  = (((Z.of_N w + 39) / 40 + 2) * ((Z.of_N h + 39) / 40 + 2))%Z.
Proof.
  unfold lattice, grid_loop. rewrite rows_length, !ceil_spacing.
  assert (0 <= (Z.of_N w + 39) / 40)%Z by (apply Z.div_pos; lia).
  assert (0 <= (Z.of_N h + 39) / 40)%Z by (apply Z.div_pos; lia).
  lia.
Qed.

Lemma anchors_length ps : List.length (anchors ps) = List.length ps.
Proof. unfold anchors. apply length_map. Qed.

(** X1.  Once the script has run on a page with a canvas, after any
    sequence of resize, pointer and frame events the canvas has the size
    of the last resize (the size at start-up if there was none), and the
    anchors of the points are, in order, those of the grid [initGrid]
    builds for that size; in particular there are
    [(ceil(w/40) + 2) * (ceil(h/40) + 2)] points.  No frame moves an
    anchor, and only a resize replaces the collection. *)
Theorem anchors_follow_canvas
        (cv : Canvas) (has2d : bool) (w h : N) (fr : Frame) (evs : list Event) :
  let st := run_events evs (started (Some cv) has2d w h fr) in
  let w' := fst (last_size w h evs) in
  let h' := snd (last_size w h evs) in
  canvas st = Some {| width := w'; height := h' |}
  /\ anchors (points st) = anchors (lattice w' h')
  /\ Z.of_nat (List.length (points st))
     = (((Z.of_N w' + 39) / 40 + 2) * ((Z.of_N h' + 39) / 40 + 2))%Z.
Proof.
  intros st w' h'.
  destruct (started_running cv has2d w h fr) as (Hrun & Hc & _ & _).
  destruct (run_events_running evs Hrun Hc) as ((_ & (c & Hc' & Ha) & _) & Hcv & _).
  fold st in Hc', Ha, Hcv. simpl in Hcv.
  assert (Hsize : canvas st = Some {| width := w'; height := h' |}).
  { rewrite Hcv. unfold w', h'. now destruct (last_size w h evs). }
  rewrite Hsize in Hc'. injection Hc' as <-. simpl in Ha.
  split; [exact Hsize | split; [exact Ha |]].
  rewrite <- anchors_length, Ha, anchors_length. apply lattice_length.
Qed.

(** X2.  On a running page the cursor the next frame will read is where
    the last pointer event left it: the client coordinates of the last
    mouse move, or the sentinel if the pointer has left since or has not
    moved yet.  Resizes and frames do not touch it. *)
Theorem cursor_follows_pointer
        (cv : Canvas) (has2d : bool) (w h : N) (fr : Frame) (evs : list Event) :
  let st := run_events evs (started (Some cv) has2d w h fr) in
  (mouseX st, mouseY st) = last_cursor sentinel sentinel evs.
Proof.
  intros st.
  destruct (started_running cv has2d w h fr) as (Hrun & Hc & Hmx & Hmy).
  destruct (run_events_running evs Hrun Hc) as (_ & _ & Hm).
  fold st in Hm. now rewrite Hm, Hmx, Hmy.
Qed.

(** X3.  With a canvas and a 2D context the loop never stops and never
    doubles: after the script and any sequence of events exactly one frame
    is pending, and each of the three listeners is registered exactly
    once. *)
Theorem one_frame_pending
        (cv : Canvas) (w h : N) (fr : Frame) (evs : list Event) :
  let st := run_events evs (started (Some cv) true w h fr) in
  frames_requested st = 1%nat
  /\ listeners st = [on_resize; on_mousemove; on_mouseleave]
  /\ exists calls, ctx st = Some calls.
Proof.
  intros st.
  destruct (started_running cv true w h fr) as (Hrun & Hc & _ & _).
  destruct (run_events_running evs Hrun Hc) as ((Hl & _ & Hx & Hf) & _ & _).
  now split; [| split].
Qed.

(** X4.  With a canvas whose 2D context cannot be had, the grid is still
    built and rebuilt on resize and the pointer is still tracked, but
    nothing is ever drawn and no frame is ever requested. *)
Theorem no_context_no_frames
        (cv : Canvas) (w h : N) (fr : Frame) (evs : list Event) :
  let st := run_events evs (started (Some cv) false w h fr) in
  ctx st = None
  /\ frames_requested st = 0%nat
  /\ listeners st = [on_resize; on_mousemove; on_mouseleave]
  /\ points st <> [].
Proof.
  intros st.
  destruct (started_running cv false w h fr) as (Hrun & Hc & _ & _).
  destruct (run_events_running evs Hrun Hc) as ((Hl & (c & _ & Ha) & Hx & Hf) & _ & _).
  fold st in Hl, Ha, Hx, Hf.
  split; [exact Hx | split; [exact Hf | split; [exact Hl |]]].
  intros Hnil. rewrite Hnil in Ha. simpl in Ha.
  apply (f_equal (@List.length _)) in Ha. rewrite anchors_length in Ha.
  pose proof (lattice_length (width c) (height c)) as Hlen.
  rewrite <- Ha in Hlen. simpl in Hlen.
  assert (0 <= (Z.of_N (width c) + 39) / 40)%Z by (apply Z.div_pos; lia).
  assert (0 <= (Z.of_N (height c) + 39) / 40)%Z by (apply Z.div_pos; lia).
  nia.
Qed.

Lemma main_no_canvas has2d w h fr :
  started None has2d w h fr = initial None has2d.
Proof. reflexivity. Qed.

(** X5.  On a page without the canvas element nothing is ever set up:
    the script leaves the globals as it found them, and no later event
    (resize, pointer or frame) changes anything, since no listener was
    registered and no frame requested. *)
Theorem no_canvas_inert (has2d : bool) (w h : N) (fr : Frame) (evs : list Event) :
  run_events evs (started None has2d w h fr) = initial None has2d
  /\ forall ev, dispatch ev (initial None has2d)
                = (Normal tt, initial None has2d).
Proof.
  assert (Hev : forall ev, dispatch ev (initial None has2d)
                           = (Normal tt, initial None has2d)).
  { intros [w' h' | cx cy | | fr']; reflexivity. }
  split; [| exact Hev].
  rewrite main_no_canvas.
  induction evs as [| ev rest IH]; [reflexivity |].
  simpl. unfold exec. now rewrite Hev.
Qed.

Lemma initGrid_returns st : returns initGrid st.
Proof.
  unfold returns, initGrid, bind, gets.
  destruct (canvas st); simpl; now exists tt.
Qed.

Lemma resizeCanvas_returns w h st : returns (resizeCanvas w h) st.
Proof.
  destruct (canvas st) as [c |] eqn:Hc.
  - unfold returns. rewrite (@resizeCanvas_lattice st c w h Hc). now exists tt.
  - unfold returns, resizeCanvas, bind, gets. rewrite Hc. now exists tt.
Qed.

Lemma animate_returns fr st : returns (animate fr) st.
Proof.
  destruct (canvas st) as [c |] eqn:Hc; destruct (ctx st) as [calls |] eqn:Hx.
  - unfold returns. rewrite (@animate_run fr st c calls Hc Hx). now exists tt.
  - unfold returns, animate, bind, gets. rewrite Hx. now exists tt.
  - unfold returns, animate, bind, gets. rewrite Hc, Hx. now exists tt.
  - unfold returns, animate, bind, gets. rewrite Hx. now exists tt.
Qed.

(** X6.  Whatever the state of the globals, the renderer raises no
    exception: in [initGrid], [resizeCanvas], [animate], the start-up
    block and every handler, each use of the canvas or of the context
    comes after the test that it is there. *)
Theorem renderer_never_throws (st : State) (w h : N) (fr : Frame) (ev : Event) :
  returns initGrid st
  /\ returns (resizeCanvas w h) st
  /\ returns (animate fr) st
  /\ returns (main w h fr) st
  /\ returns (dispatch ev) st.
Proof.
  split; [apply initGrid_returns |].
  split; [apply resizeCanvas_returns |].
  split; [apply animate_returns |].
  split.
  - unfold returns, main, bind, gets.
    destruct (canvas st) as [c |] eqn:Hc; simpl; [| now exists tt].
    rewrite (@resizeCanvas_lattice st c w h Hc). unfold modify at 1.
    destruct (animate_returns fr
                (add_listener on_resize
                   (set_points (lattice w h)
                      (set_canvas (Some {| width := w; height := h |}) st))))
      as [[] Hr].
    destruct (animate fr _) as [r s']. simpl in Hr. subst r.
    simpl. now exists tt.
  - unfold returns, dispatch, bind, gets.
    destruct ev as [w' h' | cx cy | | fr'].
    + destruct (listening on_resize st); [apply resizeCanvas_returns | now exists tt].
    + destruct (listening on_mousemove st); now exists tt.
    + destruct (listening on_mouseleave st); now exists tt.
    + destruct (frames_requested st); [now exists tt |].
      unfold modify. apply animate_returns.
Qed.

End TraceProperties.

(* ================================================================== *)
(** * What one frame draws *)

Section FrameShape.
Import Renderer.
Open Scope R_scope.

Lemma segments_app l1 l2 :
  no_lineTo_head l2 -> segments (l1 ++ l2) = segments l1 ++ segments l2.
Proof.
  intros Hhead. induction l1 as [| cl rest IH]; [reflexivity |].
  destruct cl; simpl; try exact IH.
  destruct rest as [| cl' rest'].
  - simpl. destruct l2 as [| c2 l2']; [reflexivity |].
    destruct c2; try reflexivity. contradiction.
  - simpl in *. destruct cl'; try exact IH.
    now rewrite IH.
Qed.

Lemma discs_app l1 l2 : discs (l1 ++ l2) = discs l1 ++ discs l2.
Proof.
  induction l1 as [| cl rest IH]; [reflexivity |].
  destruct cl; simpl; try exact IH. now rewrite IH.
Qed.

Lemma connect_segments c ps p : segments (connect c ps p) = links c ps p.
Proof.
  unfold connect, links.
  destruct (offscreen c p); [reflexivity |].
  destruct (find (is_right_neighbor p) ps), (find (is_bottom_neighbor p) ps);
    reflexivity.
Qed.

Lemma connect_head c ps p l :
  no_lineTo_head l -> no_lineTo_head (connect c ps p ++ l).
Proof.
  intros Hl. unfold connect.
  destruct (offscreen c p); [exact Hl |].
  destruct (find (is_right_neighbor p) ps), (find (is_bottom_neighbor p) ps);
    simpl; trivial.
Qed.

Lemma connect_discs c ps p : discs (connect c ps p) = [].
Proof.
  unfold connect.
  destruct (offscreen c p); [reflexivity |].
  destruct (find (is_right_neighbor p) ps), (find (is_bottom_neighbor p) ps);
    reflexivity.
Qed.

Lemma flat_connect_head c ps qs l :
  no_lineTo_head l -> no_lineTo_head (flat_map (connect c ps) qs ++ l).
Proof.
  intros Hl. induction qs as [| q rest IH]; [exact Hl |].
  simpl. rewrite <- app_assoc. now apply connect_head.
Qed.

Lemma flat_connect_segments c ps qs l :
  no_lineTo_head l ->
  segments (flat_map (connect c ps) qs ++ l)
  = flat_map (links c ps) qs ++ segments l.
Proof.
  intros Hl. induction qs as [| q rest IH]; [reflexivity |].
  simpl. rewrite <- !app_assoc.
  rewrite segments_app by now apply flat_connect_head.
  now rewrite connect_segments, IH.
Qed.

Lemma flat_connect_discs c ps qs : discs (flat_map (connect c ps) qs) = [].
Proof.
  induction qs as [| q rest IH]; [reflexivity |].
  simpl. now rewrite discs_app, connect_discs, IH.
Qed.

Lemma update_and_draw_segments fr mX mY col k ps l :
  segments (snd (update_and_draw fr mX mY col k ps) ++ l) = segments l.
Proof.
  revert k; induction ps as [| p rest IH]; intros k; simpl; [reflexivity |].
  specialize (IH (S k)).
  destruct (update_and_draw fr mX mY col (S k) rest) as [rest' calls].
  simpl in *. exact IH.
Qed.

Lemma update_and_draw_discs fr mX mY col k ps :
  discs (snd (update_and_draw fr mX mY col k ps))
  = map (fun p => (x p, y p, baseSize config))
        (fst (update_and_draw fr mX mY col k ps)).
Proof.
  revert k; induction ps as [| p rest IH]; intros k; simpl; [reflexivity |].
  specialize (IH (S k)).
  destruct (update_and_draw fr mX mY col (S k) rest) as [rest' calls].
  simpl in *. now rewrite IH.
Qed.

Lemma paint_segments fr mX mY c ps :
  segments (snd (paint fr mX mY c ps))
  = flat_map (links c (fst (paint fr mX mY c ps))) (fst (paint fr mX mY c ps)).
Proof.
  rewrite paint_parts. cbv zeta. simpl fst. simpl snd.
  change (?a :: ?l ++ beginPath :: ?m)
    with ((a :: l) ++ [beginPath] ++ m).
  simpl segments at 1.
  rewrite update_and_draw_segments. simpl segments at 1.
  unfold connect_all. rewrite flat_connect_segments by exact I.
  simpl. apply app_nil_r.
Qed.

Lemma paint_discs fr mX mY c ps :
  discs (snd (paint fr mX mY c ps))
  = map (fun p => (x p, y p, baseSize config)) (fst (paint fr mX mY c ps)).
Proof.
  rewrite paint_parts. cbv zeta. simpl fst. simpl snd.
  simpl discs at 1. rewrite discs_app. simpl discs at 2.
  rewrite discs_app. unfold connect_all. rewrite flat_connect_discs.
  simpl. rewrite app_nil_r. apply update_and_draw_discs.
Qed.

Lemma links_length c ps p : (List.length (links c ps p) <= 2)%nat.
Proof.
  unfold links. destruct (offscreen c p); simpl; [lia |].
  destruct (find (is_right_neighbor p) ps), (find (is_bottom_neighbor p) ps);
    simpl; lia.
Qed.

Lemma flat_links_length c ps qs :
  (List.length (flat_map (links c ps) qs) <= 2 * List.length qs)%nat.
Proof.
  induction qs as [| q rest IH]; simpl; [lia |].
  rewrite length_app. pose proof (links_length c ps q). lia.
Qed.

End FrameShape.

Section FrameProperties.
Import Renderer.
Open Scope R_scope.

Lemma update_and_draw_length fr mX mY col k ps :
  List.length (fst (update_and_draw fr mX mY col k ps)) = List.length ps.
Proof.
  rewrite update_and_draw_points, length_map, length_combine, length_seq.
  apply Nat.min_id.
Qed.

Lemma update_and_draw_styles fr mX mY col k ps cl :
  In cl (snd (update_and_draw fr mX mY col k ps)) ->
  match cl with
  | fillStyle s => s = ("rgba(" ++ col ++ ", 0.5)")%string
  | beginPath | arc _ _ _ _ _ | fill => True
  | _ => False
  end.
Proof.
  revert k; induction ps as [| p rest IH]; intros k; simpl; [tauto |].
  specialize (IH (S k)).
  destruct (update_and_draw fr mX mY col (S k) rest) as [rest' calls].
  simpl snd in *. unfold draw. simpl app.
  intros [H | [H | [H | [H | H]]]];
    [subst; exact I | subst; exact I | subst; reflexivity | subst; exact I
    | exact (IH H)].
Qed.

Lemma connect_all_styles c ps cl :
  In cl (connect_all c ps) ->
  match cl with moveTo _ _ | lineTo _ _ => True | _ => False end.
Proof.
  unfold connect_all. intros Hin.
  apply in_flat_map in Hin as (q & _ & Hin). unfold connect in Hin.
  destruct (offscreen c q); [contradiction |].
  apply in_app_or in Hin as [Hin | Hin].
  - destruct (find (is_right_neighbor q) ps); simpl in Hin;
      [destruct Hin as [H | [H | []]]; subst; exact I | contradiction].
  - destruct (find (is_bottom_neighbor q) ps); simpl in Hin;
      [destruct Hin as [H | [H | []]]; subst; exact I | contradiction].
Qed.

(** X7.  A frame on a page with canvas and context appends its calls to
    those already made: first it clears the whole canvas, then it draws one
    disc of radius [baseSize] for each point, in order, at the position
    [update] has just given the point, and it ends with a single [stroke]
    of width 1; it keeps the number of points and requests exactly one
    further frame. *)
Theorem frame_draws_every_point
        (fr : Frame) (st : State) (c : Canvas) (calls : list Call) :
  canvas st = Some c -> ctx st = Some calls ->
  let st' := exec (animate fr) st in
  exists mid,
    ctx st' =
      Some (calls
            ++ clearRect 0 0 (IZR (Z.of_N (width c))) (IZR (Z.of_N (height c)))
               :: mid
               ++ [strokeStyle ("rgba(" ++ theme fr ++ ", 0.12)")%string;
                   lineWidth 1; stroke])
    /\ discs mid = map (fun p => (x p, y p, baseSize config)) (points st')
    /\ List.length (points st') = List.length (points st)
    /\ frames_requested st' = S (frames_requested st)
    /\ canvas st' = Some c.
Proof.
  intros Hc Hx st'. unfold st', exec.
  rewrite (@animate_run fr st c calls Hc Hx). simpl.
  pose proof (paint_discs fr (mouseX st) (mouseY st) c (points st)) as Hd.
  rewrite paint_parts in Hd |- *. cbv zeta in Hd |- *.
  simpl fst in Hd |- *. simpl snd in Hd |- *. fold (theme fr) in Hd |- *.
  set (ud := update_and_draw fr (mouseX st) (mouseY st) (theme fr) 0 (points st))
    in *.
  exists (snd ud ++ [beginPath] ++ connect_all c (fst ud)).
  split; [| split; [| split; [| split]]].
  - repeat (rewrite <- app_assoc; simpl). reflexivity.
  - clear Hd. rewrite discs_app, discs_app. unfold connect_all.
    rewrite flat_connect_discs. simpl discs. rewrite app_nil_r.
    apply update_and_draw_discs.
  - apply update_and_draw_length.
  - reflexivity.
  - exact Hc.
Qed.

Lemma frame_draws_every_point_witness :
  let st' := exec (animate sample_frame) sample_state in
  canvas sample_state = Some sample_canvas
  /\ ctx sample_state = Some []
  /\ exists mid,
       ctx st' =
         Some ([] ++ clearRect 0 0 (IZR (Z.of_N (width sample_canvas)))
                       (IZR (Z.of_N (height sample_canvas)))
                  :: mid
                  ++ [strokeStyle ("rgba(" ++ theme sample_frame ++ ", 0.12)")%string;
                      lineWidth 1; stroke])
       /\ discs mid = map (fun p => (x p, y p, baseSize config)) (points st')
       /\ List.length (points st') = List.length (points sample_state)
       /\ frames_requested st' = S (frames_requested sample_state)
       /\ canvas st' = Some sample_canvas.
Proof.
  intros st'. split; [reflexivity | split; [reflexivity |]].
  apply (@frame_draws_every_point sample_frame sample_state sample_canvas []);
    reflexivity.
Defined.

(** X8.  The connecting lines of a frame are exactly these: going through
    the updated points in order, each point within the margin gives a
    segment from its position to the position of the first point of the
    collection whose anchor is less than 1 away, on both axes, from its own
    anchor moved one spacing to the right, if there is one, and then the
    same for one spacing down.  So every segment leaves a point within the
    margin towards a right or lower neighbour, and a frame of [n] points
    has at most [2 n] segments. *)
Theorem frame_links_neighbours
        (fr : Frame) (mX mY : R) (c : Canvas) (ps : list Point) :
  let ps' := fst (paint fr mX mY c ps) in
  let segs := segments (snd (paint fr mX mY c ps)) in
  segs = flat_map (links c ps') ps'
  /\ (List.length segs <= 2 * List.length ps)%nat
  /\ Forall
       (fun seg =>
          exists p n,
            In p ps' /\ In n ps' /\ offscreen c p = false
            /\ seg = ((x p, y p), (x n, y n))
            /\ ((Rabs (originX n - (originX p + spacing config)) < 1
                 /\ Rabs (originY n - originY p) < 1)
                \/ (Rabs (originX n - originX p) < 1
                    /\ Rabs (originY n - (originY p + spacing config)) < 1)))
       segs.
Proof.
  intros ps' segs.
  assert (Hsegs : segs = flat_map (links c ps') ps') by apply paint_segments.
  split; [exact Hsegs | split].
  - rewrite Hsegs.
    replace (List.length ps) with (List.length ps').
    + apply flat_links_length.
    + unfold ps'. rewrite paint_parts. cbv zeta. simpl fst.
      apply update_and_draw_length.
  - apply Forall_forall. intros seg Hin. rewrite Hsegs in Hin.
    apply in_flat_map in Hin as (p & Hp & Hin). unfold links in Hin.
    destruct (offscreen c p) eqn:Hoff; [contradiction |].
    exists p.
    apply in_app_or in Hin as [Hin | Hin].
    + destruct (find (is_right_neighbor p) ps') as [n |] eqn:Hf; [| contradiction].
      destruct Hin as [<- | []]. apply find_some in Hf as [Hn Hb].
      exists n. repeat split; trivial. left.
      unfold is_right_neighbor in Hb. apply andb_prop in Hb as [H1 H2].
      apply ltb_true in H1, H2. now split.
    + destruct (find (is_bottom_neighbor p) ps') as [n |] eqn:Hf; [| contradiction].
      destruct Hin as [<- | []]. apply find_some in Hf as [Hn Hb].
      exists n. repeat split; trivial. right.
      unfold is_bottom_neighbor in Hb. apply andb_prop in Hb as [H1 H2].
      apply ltb_true in H1, H2. now split.
Qed.

(** X9.  Every colour a frame uses is the theme's: each disc is filled
    with [rgba(c, 0.5)] and the lines are stroked with [rgba(c, 0.12)],
    where [c] is "96, 165, 250" when the dark scheme is preferred and
    "59, 130, 246" otherwise.  The [color] of [config] is never used. *)
Theorem frame_uses_theme_colour
        (fr : Frame) (mX mY : R) (c : Canvas) (ps : list Point) :
  Forall (fun cl =>
            match cl with
            | fillStyle s => s = ("rgba(" ++ theme fr ++ ", 0.5)")%string
            | strokeStyle s => s = ("rgba(" ++ theme fr ++ ", 0.12)")%string
            | _ => True
            end)
         (snd (paint fr mX mY c ps))
  /\ theme fr <> color config.
Proof.
  split; [| unfold theme; destruct (isDark fr); discriminate].
  rewrite paint_parts. cbv zeta. simpl snd. fold (theme fr).
  apply Forall_forall. intros cl [H | Hin]; [now subst |].
  apply in_app_or in Hin as [Hin | Hin].
  - apply update_and_draw_styles in Hin. now destruct cl.
  - destruct Hin as [H | Hin]; [now subst |].
    apply in_app_or in Hin as [Hin | Hin].
    + apply connect_all_styles in Hin. now destruct cl.
    + destruct Hin as [H | [H | [H | []]]]; now subst.
Qed.

End FrameProperties.

(* ================================================================== *)
(** * Direction of the push, decay of the energy *)

Section Polar.
Import Renderer.
Open Scope R_scope.

Lemma sqrt_one_plus_sqr dx dy :
  dx <> 0 ->
  sqrt (1 + (dy / dx)²) = sqrt (dx * dx + dy * dy) / Rabs dx.
Proof.
  intros Hdx.
  assert (Hsq : 0 < dx * dx) by (apply Rsqr_pos_lt in Hdx; exact Hdx).
  replace (1 + (dy / dx)²) with ((dx * dx + dy * dy) / (dx * dx))
    by (unfold Rsqr; field; exact Hdx).
  rewrite sqrt_div_alt by exact Hsq.
  f_equal. change (dx * dx) with (dx²). apply sqrt_Rsqr_abs.
Qed.

(** [atan2] is the angle of the vector: its cosine and sine are the
    vector's coordinates over its length. *)
Lemma atan2_polar dx dy :
  let d := sqrt (dx * dx + dy * dy) in
  0 < d ->
  cos (JsMath.atan2 dy dx) = dx / d /\ sin (JsMath.atan2 dy dx) = dy / d.
Proof.
  intros d Hd. unfold JsMath.atan2.
  destruct (Rlt_dec 0 dx) as [Hpos | Hnpos].
  - rewrite cos_atan, sin_atan, sqrt_one_plus_sqr by lra. fold d.
    rewrite Rabs_pos_eq by lra. split; field; lra.
  - destruct (Rlt_dec dx 0) as [Hneg | Hnneg].
    + assert (Hs : sqrt (1 + (dy / dx)²) = d / - dx).
      { rewrite sqrt_one_plus_sqr by lra. fold d. now rewrite Rabs_left. }
      destruct (Rle_dec 0 dy).
      * rewrite cos_plus, sin_plus, cos_PI, sin_PI.
        rewrite cos_atan, sin_atan, Hs. split; field; lra.
      * unfold Rminus. rewrite cos_plus, sin_plus, cos_neg, sin_neg, cos_PI, sin_PI.
        rewrite cos_atan, sin_atan, Hs. split; field; lra.
    + assert (Hdx : dx = 0) by lra. subst dx.
      assert (Hdy : d = Rabs dy).
      { unfold d. replace (0 * 0 + dy * dy) with (dy²) by (unfold Rsqr; ring).
        apply sqrt_Rsqr_abs. }
      destruct (Rlt_dec 0 dy) as [Hyp | Hynp].
      * rewrite cos_PI2, sin_PI2, Hdy, Rabs_pos_eq by lra. split; field; lra.
      * destruct (Rlt_dec dy 0) as [Hyn | Hynn].
        -- rewrite cos_neg, sin_neg, cos_PI2, sin_PI2, Hdy, Rabs_left by lra.
           split; field; lra.
        -- assert (dy = 0) by lra. subst dy.
           rewrite Rabs_R0 in Hdy. lra.
Qed.

End Polar.

Section PhysicsProperties.
Import Renderer.
Open Scope R_scope.

(** X10.  Inside the influence radius, and off the cursor itself, the
    repulsion block pushes the point straight away from the cursor: what it
    adds to the velocity is the vector from the cursor to the point scaled
    by the positive factor [force * (influence - d) / (influence * d)],
    where [d] is their distance. *)
Theorem repulsion_pushes_away (p : Point) (mX mY : R) :
  let d := cursor_distance mX mY p in
  0 < d -> d < influence config ->
  let k := force config * (influence config - d) / (influence config * d) in
  0 < k
  /\ contribution mX mY p = (k * (x p - mX), k * (y p - mY)).
Proof.
  intros d Hd Hnear k.
  pose proof influence_pos as Hi. pose proof force_pos as Hf.
  split.
  - unfold k. apply Rdiv_lt_0_compat; nra.
  - unfold contribution. rewrite (repel_near _ _ _ Hnear). cbv zeta.
    unfold fst, snd. fold d.
    destruct (atan2_polar (mX - x p) (mY - y p) Hd) as [Hcos Hsin].
    rewrite Hcos, Hsin. fold (cursor_distance mX mY p). fold d.
    unfold k. f_equal; field; lra.
Qed.

Lemma repulsion_pushes_away_witness :
  let p := new_Point 0 0 in
  let d := cursor_distance 30 40 p in
  let k := force config * (influence config - d) / (influence config * d) in
  0 < d /\ d < influence config
  /\ 0 < k
  /\ contribution 30 40 p = (k * (x p - 30), k * (y p - 40)).
Proof.
  intros p d k.
  assert (H50 : d = 50).
  { unfold d, cursor_distance, p; simpl.
    replace ((30 - 0) * (30 - 0) + (40 - 0) * (40 - 0)) with (50 * 50) by lra.
    apply sqrt_square; lra. }
  assert (Hd : 0 < d) by lra.
  assert (Hnear : d < influence config) by (rewrite H50; simpl; lra).
  split; [exact Hd | split; [exact Hnear |]].
  exact (@repulsion_pushes_away p 30 40 Hd Hnear).
Defined.

Lemma energy_nonneg p : 0 <= energy p.
Proof.
  unfold energy.
  pose proof (spring_energy_nonneg (x p - originX p) (vx p)).
  pose proof (spring_energy_nonneg (y p - originY p) (vy p)). lra.
Qed.

Lemma idle_energy_step now p :
  influence config <= cursor_distance sentinel sentinel p ->
  energy (update_with 0 sentinel sentinel now p) = 0.9 * energy p.
Proof.
  intros Hfar. rewrite (idle_step _ _ Hfar). unfold energy. simpl.
  pose proof (spring_energy_step (x p - originX p) (vx p)) as Hx.
  pose proof (spring_energy_step (y p - originY p) (vy p)) as Hy.
  cbv zeta in Hx, Hy.
  replace (x p + (vx p + (originX p - x p) * 0.05) * 0.9 - originX p)
    with (x p - originX p + (vx p + - (x p - originX p) * 0.05) * 0.9) by lra.
  replace ((vx p + (originX p - x p) * 0.05) * 0.9)
    with ((vx p + - (x p - originX p) * 0.05) * 0.9) by lra.
  replace (y p + (vy p + (originY p - y p) * 0.05) * 0.9 - originY p)
    with (y p - originY p + (vy p + - (y p - originY p) * 0.05) * 0.9) by lra.
  replace ((vy p + (originY p - y p) * 0.05) * 0.9)
    with ((vy p + - (y p - originY p) * 0.05) * 0.9) by lra.
  rewrite Hx, Hy. lra.
Qed.

Lemma anchor_distance_energy p :
  0.04412 * (anchor_distance p * anchor_distance p) <= energy p.
Proof.
  unfold anchor_distance. rewrite magnitude_sqr. unfold energy.
  pose proof (spring_energy_lower (x p - originX p) (vx p)).
  pose proof (spring_energy_lower (y p - originY p) (vy p)). lra.
Qed.

Lemma idle_energy_run clock p n :
  (forall k, (k < n)%nat -> unrepelled clock p k) ->
  energy (idle_run clock n p) = 0.9 ^ n * energy p.
Proof.
  induction n as [| n IH]; intros Hfar; simpl; [lra |].
  rewrite idle_energy_step by (apply Hfar; lia).
  rewrite IH by (intros k Hk; apply Hfar; lia). lra.
Qed.

(** A point with little enough energy for its anchor's distance to the
    sentinel never comes within the influence radius. *)
Lemma idle_never_repelled_energy clock p :
  sentinel + influence config <= originX p ->
  energy p <= 0.04412 * ((originX p - (sentinel + influence config))
                         * (originX p - (sentinel + influence config))) ->
  forall k, unrepelled clock p k.
Proof.
  intros Hox Hen.
  assert (Hall : forall n k, (k < n)%nat -> unrepelled clock p k).
  { induction n as [| n IH]; intros k Hk; [lia |].
    destruct (Nat.eq_dec k n) as [-> | Hne]; [| apply IH; lia].
    pose proof (idle_energy_run IH) as He.
    pose proof (pow_09_le_1 n) as Hp.
    pose proof (energy_nonneg p) as H0.
    destruct (idle_run_origin clock n p) as [Ox Oy].
    unfold unrepelled. apply far_left_of.
    set (q := idle_run clock n p) in *.
    pose proof (spring_energy_lower (x q - originX q) (vx q)) as Hlx.
    pose proof (spring_energy_nonneg (y q - originY q) (vy q)) as Hly.
    assert (Hq : energy q <= energy p) by (rewrite He; nra).
    unfold energy in Hq at 1. rewrite Ox in *.
    set (g := originX p - (sentinel + influence config)) in *.
    assert (Hg : 0 <= g) by (unfold g; lra).
    assert (Hsq : (x q - originX p) * (x q - originX p) <= g * g) by nra.
    assert (Habs : - g <= x q - originX p) by nra.
    unfold g in Habs. lra. }
  intros k. apply (Hall (S k)). lia.
Qed.

(** X11.  With the cursor at the sentinel and no drift, from any position
    and velocity: as long as the point stays outside the influence radius
    its energy [0.045 e^2 + 0.055 e v + 0.9 v^2] (summed over the two
    axes, [e] the displacement from the anchor and [v] the velocity) is,
    after [n] frames, [0.9^n] times the energy it started with, to within
    a thousandth of that and [10^-12], and the squared distance to the
    anchor is at most the energy over 0.04412.  The margins are the room
    left for the rounding of the doubles; in exact arithmetic each frame
    multiplies the energy by the damping 0.9 ([idle_energy_run]). *)
Theorem idle_energy_decays (clock : nat -> Z) (p : Point) :
  (forall k, unrepelled clock p k) ->
  forall n,
    0.999 * 0.9 ^ n * energy p - 1 / 10 ^ 12 <= energy (idle_run clock n p)
    /\ energy (idle_run clock n p) <= 1.001 * 0.9 ^ n * energy p + 1 / 10 ^ 12
    /\ 0.04412 * (anchor_distance (idle_run clock n p)
                  * anchor_distance (idle_run clock n p))
       <= energy (idle_run clock n p).
Proof.
  intros Hfar n.
  assert (He : energy (idle_run clock n p) = 0.9 ^ n * energy p)
    by (apply idle_energy_run; intros; apply Hfar).
  assert (H0 : 0 <= 0.9 ^ n * energy p).
  { apply Rmult_le_pos; [apply pow_le; lra | apply energy_nonneg]. }
  split; [rewrite He; lra | split; [rewrite He; lra |]].
  apply anchor_distance_energy.
Qed.

Lemma idle_energy_decays_witness :
  let clock := fun _ : nat => 0%Z in
  (forall k, unrepelled clock moving k)
  /\ forall n,
      0.999 * 0.9 ^ n * energy moving - 1 / 10 ^ 12
      <= energy (idle_run clock n moving)
      /\ energy (idle_run clock n moving)
         <= 1.001 * 0.9 ^ n * energy moving + 1 / 10 ^ 12
      /\ 0.04412 * (anchor_distance (idle_run clock n moving)
                    * anchor_distance (idle_run clock n moving))
         <= energy (idle_run clock n moving).
Proof.
  intros clock.
  assert (Hfar : forall k, unrepelled clock moving k).
  { apply idle_never_repelled_energy.
    - unfold moving, sentinel; simpl; lra.
    - unfold energy, spring_energy, moving, sentinel; simpl; lra. }
  split; [exact Hfar |].
  exact (@idle_energy_decays clock moving Hfar).
Defined.

End PhysicsProperties.

(* ================================================================== *)
(** * The grid and its neighbours *)

Section Mesh.
Import Renderer.
Open Scope R_scope.

Lemma lattice_cols w h :
  lattice w h =
    flat_map
      (fun i =>
         map (fun j => new_Point (- spacing config + INR i * spacing config)
                                 (- spacing config + INR j * spacing config))
             (seq 0 (cells h)))
      (seq 0 (cells w)).
Proof. unfold lattice, grid_loop, cells. now rewrite !ceil_spacing. Qed.

Lemma lattice_nth w h i j :
  (i < cells w)%nat -> (j < cells h)%nat ->
  nth_error (lattice w h) (i * cells h + j)
  = Some (new_Point (-40 + INR i * 40) (-40 + INR j * 40)).
Proof.
  intros Hi Hj. rewrite lattice_cols.
  rewrite rows_nth by assumption. reflexivity.
Qed.

Lemma lattice_size w h : List.length (lattice w h) = (cells w * cells h)%nat.
Proof. rewrite lattice_cols. apply rows_length. Qed.

Lemma cells_bound w :
  40 * (INR (cells w) - 2) < IZR (Z.of_N w) + 40
  /\ IZR (Z.of_N w) <= 40 * (INR (cells w) - 2).
Proof.
  unfold cells. set (z := Z.of_N w).
  assert (Hz : (0 <= z)%Z) by (unfold z; lia).
  assert (Hq : (0 <= (z + 39) / 40)%Z) by (apply Z.div_pos; lia).
  pose proof (Z.div_mod (z + 39) 40 ltac:(lia)) as Hdm.
  pose proof (Z.mod_pos_bound (z + 39) 40 ltac:(lia)) as Hmod.
  rewrite INR_IZR_INZ, Z2Nat.id by lia.
  set (q := ((z + 39) / 40)%Z) in *.
  assert (H1 : (40 * q < z + 40)%Z) by lia.
  assert (H2 : (z <= 40 * q)%Z) by lia.
  apply IZR_lt in H1. apply IZR_le in H2.
  rewrite plus_IZR, mult_IZR in H1. rewrite mult_IZR in H2.
  rewrite plus_IZR. lra.
Qed.

(** X12.  In the grid [initGrid] builds for a canvas of width W and height
    H every anchor lies in [-40, W + 40) by [-40, H + 40): the grid covers
    the canvas with one cell to spare on every side, and no point of a fresh
    grid is outside the 50-unit margin of the second pass of [animate]. *)
Theorem fresh_grid_within_margin (w h : N) :
  Forall (fun p =>
            -40 <= originX p < IZR (Z.of_N w) + 40
            /\ -40 <= originY p < IZR (Z.of_N h) + 40
            /\ offscreen {| width := w; height := h |} p = false)
         (lattice w h).
Proof.
  apply Forall_forall. intros p Hin.
  rewrite lattice_cols in Hin.
  apply in_flat_map in Hin as (i & Hi & Hin).
  apply in_map_iff in Hin as (j & <- & Hj).
  apply in_seq in Hi, Hj. simpl in Hi, Hj.
  destruct (cells_bound w) as [Hw _]. destruct (cells_bound h) as [Hh _].
  assert (Hi' : INR i <= INR (cells w) - 1).
  { replace 1 with (INR 1) by reflexivity. rewrite <- minus_INR by lia.
    apply le_INR. lia. }
  assert (Hj' : INR j <= INR (cells h) - 1).
  { replace 1 with (INR 1) by reflexivity. rewrite <- minus_INR by lia.
    apply le_INR. lia. }
  pose proof (pos_INR i) as Hi0. pose proof (pos_INR j) as Hj0.
  simpl originX. simpl originY.
  assert (Hx : -40 <= -40 + INR i * 40 < IZR (Z.of_N w) + 40) by lra.
  assert (Hy : -40 <= -40 + INR j * 40 < IZR (Z.of_N h) + 40) by lra.
  split; [exact Hx | split; [exact Hy |]].
  unfold offscreen. simpl.
  rewrite !ltb_false_intro by lra. reflexivity.
Qed.

Lemma find_first {A} (f : A -> bool) l k a :
  nth_error l k = Some a -> f a = true ->
  (forall k' b, (k' < k)%nat -> nth_error l k' = Some b -> f b = false) ->
  find f l = Some a.
Proof.
  revert k; induction l as [| b rest IH]; intros k Hk Hf Hbefore.
  - destruct k; discriminate.
  - destruct k as [| k]; simpl in *.
    + injection Hk as ->. now rewrite Hf.
    + rewrite (Hbefore 0%nat b) by (simpl; trivial; lia).
      apply (IH k); trivial.
      intros k' b' Hk' Hb'. apply (Hbefore (S k') b'); [lia | exact Hb'].
Qed.

Lemma find_none {A} (f : A -> bool) l :
  (forall b, In b l -> f b = false) -> find f l = None.
Proof.
  induction l as [| b rest IH]; intros Hall; [reflexivity |].
  simpl. rewrite (Hall b) by now left. apply IH.
  intros b' Hb'. apply Hall. now right.
Qed.

Lemma anchors_nth ps k p :
  nth_error ps k = Some p ->
  nth_error (anchors ps) k = Some (originX p, originY p).
Proof. intros H. unfold anchors. now rewrite nth_error_map, H. Qed.

(** The anchor of the point at a given place of a collection laid out as
    the grid is. *)
Lemma laid_out_nth w h ps k p :
  anchors ps = anchors (lattice w h) ->
  nth_error ps k = Some p ->
  exists i j, (i < cells w)%nat /\ (j < cells h)%nat
              /\ k = (i * cells h + j)%nat
              /\ originX p = -40 + INR i * 40
              /\ originY p = -40 + INR j * 40.
Proof.
  intros Ha Hk.
  assert (Hlen : (k < cells w * cells h)%nat).
  { rewrite <- lattice_size, <- (anchors_length (lattice w h)), <- Ha,
      anchors_length. apply nth_error_Some. congruence. }
  assert (Hh : (cells h <> 0)%nat) by (intros H0; rewrite H0 in Hlen; lia).
  exists (k / cells h)%nat, (k mod cells h)%nat.
  assert (Hj : (k mod cells h < cells h)%nat) by now apply Nat.mod_upper_bound.
  assert (Hi : (k / cells h < cells w)%nat).
  { apply Nat.Div0.div_lt_upper_bound. lia. }
  assert (Hkk : k = (k / cells h * cells h + k mod cells h)%nat).
  { rewrite Nat.mul_comm. apply Nat.div_mod_eq. }
  split; [exact Hi | split; [exact Hj | split; [exact Hkk |]]].
  apply anchors_nth in Hk. rewrite Ha, Hkk in Hk.
  unfold anchors in Hk. rewrite nth_error_map, lattice_nth in Hk by assumption.
  simpl in Hk. injection Hk as Hx Hy. now split.
Qed.

Lemma INR_gap (a b : nat) : a <> b -> 1 <= Rabs (INR a - INR b).
Proof.
  intros Hne.
  destruct (Nat.lt_ge_cases a b) as [Hlt | Hge].
  - apply lt_INR in Hlt as Hlt'. rewrite Rabs_left by lra.
    assert (H1 : INR (S a) <= INR b) by (apply le_INR; lia).
    rewrite S_INR in H1. lra.
  - assert (Hgt : (b < a)%nat) by lia.
    apply lt_INR in Hgt as Hgt'. rewrite Rabs_right by lra.
    assert (H1 : INR (S b) <= INR a) by (apply le_INR; lia).
    rewrite S_INR in H1. lra.
Qed.

Lemma right_neighbor_iff p n i j i' j' :
  originX p = -40 + INR i * 40 -> originY p = -40 + INR j * 40 ->
  originX n = -40 + INR i' * 40 -> originY n = -40 + INR j' * 40 ->
  is_right_neighbor p n = true <-> i' = S i /\ j' = j.
Proof.
  intros Hpx Hpy Hnx Hny. unfold is_right_neighbor.
  rewrite Hpx, Hpy, Hnx, Hny. simpl (spacing config). split.
  - intros Hb. apply andb_prop in Hb as [H1 H2]. apply ltb_true in H1, H2.
    unfold JsMath.abs in H1, H2.
    destruct (Nat.eq_dec i' (S i)) as [-> | Hne].
    + split; [reflexivity |].
      destruct (Nat.eq_dec j' j) as [-> | Hnej]; [reflexivity |].
      exfalso. apply INR_gap in Hnej.
      replace (-40 + INR j' * 40 - (-40 + INR j * 40))
        with (40 * (INR j' - INR j)) in H2 by lra.
      rewrite Rabs_mult, (Rabs_pos_eq 40) in H2 by lra. lra.
    + exfalso. apply INR_gap in Hne. rewrite S_INR in Hne.
      replace (-40 + INR i' * 40 - (-40 + INR i * 40 + 40))
        with (40 * (INR i' - (INR i + 1))) in H1 by lra.
      rewrite Rabs_mult, (Rabs_pos_eq 40) in H1 by lra. lra.
  - intros [-> ->]. rewrite S_INR.
    replace (-40 + (INR i + 1) * 40 - (-40 + INR i * 40 + 40)) with 0 by lra.
    replace (-40 + INR j * 40 - (-40 + INR j * 40)) with 0 by lra.
    unfold JsMath.abs. rewrite Rabs_R0.
    rewrite ltb_true_intro by lra. reflexivity.
Qed.

Lemma bottom_neighbor_iff p n i j i' j' :
  originX p = -40 + INR i * 40 -> originY p = -40 + INR j * 40 ->
  originX n = -40 + INR i' * 40 -> originY n = -40 + INR j' * 40 ->
  is_bottom_neighbor p n = true <-> i' = i /\ j' = S j.
Proof.
  intros Hpx Hpy Hnx Hny. unfold is_bottom_neighbor.
  rewrite Hpx, Hpy, Hnx, Hny. simpl (spacing config). split.
  - intros Hb. apply andb_prop in Hb as [H1 H2]. apply ltb_true in H1, H2.
    unfold JsMath.abs in H1, H2.
    destruct (Nat.eq_dec j' (S j)) as [-> | Hne].
    + split; [| reflexivity].
      destruct (Nat.eq_dec i' i) as [-> | Hnei]; [reflexivity |].
      exfalso. apply INR_gap in Hnei.
      replace (-40 + INR i' * 40 - (-40 + INR i * 40))
        with (40 * (INR i' - INR i)) in H1 by lra.
      rewrite Rabs_mult, (Rabs_pos_eq 40) in H1 by lra. lra.
    + exfalso. apply INR_gap in Hne. rewrite S_INR in Hne.
      replace (-40 + INR j' * 40 - (-40 + INR j * 40 + 40))
        with (40 * (INR j' - (INR j + 1))) in H2 by lra.
      rewrite Rabs_mult, (Rabs_pos_eq 40) in H2 by lra. lra.
  - intros [-> ->]. rewrite S_INR.
    replace (-40 + (INR j + 1) * 40 - (-40 + INR j * 40 + 40)) with 0 by lra.
    replace (-40 + INR i * 40 - (-40 + INR i * 40)) with 0 by lra.
    unfold JsMath.abs. rewrite Rabs_R0.
    rewrite ltb_true_intro by lra. reflexivity.
Qed.

Lemma laid_out_at w h ps i j p :
  anchors ps = anchors (lattice w h) ->
  (i < cells w)%nat -> (j < cells h)%nat ->
  nth_error ps (i * cells h + j) = Some p ->
  originX p = -40 + INR i * 40 /\ originY p = -40 + INR j * 40.
Proof.
  intros Ha Hi Hj Hk.
  apply anchors_nth in Hk. rewrite Ha in Hk.
  unfold anchors in Hk. rewrite nth_error_map, lattice_nth in Hk by assumption.
  simpl in Hk. injection Hk as Hx Hy. now split.
Qed.

Lemma laid_out_some w h ps i j :
  anchors ps = anchors (lattice w h) ->
  (i < cells w)%nat -> (j < cells h)%nat ->
  exists p, nth_error ps (i * cells h + j) = Some p.
Proof.
  intros Ha Hi Hj.
  destruct (nth_error ps (i * cells h + j)) as [p |] eqn:Hn; [now exists p |].
  apply nth_error_None in Hn.
  rewrite <- anchors_length, Ha, anchors_length, lattice_size in Hn. nia.
Qed.

End Mesh.

Section MeshProperties.
Import Renderer.
Open Scope R_scope.

(** X13.  In a collection whose anchors are those of the grid for a
    canvas (as they are on a running page), the search by anchor finds the
    true lattice neighbours: for the point in column [i] and row [j], the
    right neighbour found is the point in column [i + 1] of the same row,
    and none in the last column; the bottom neighbour found is the point in
    row [j + 1] of the same column, and none in the last row.  The
    positions of the points play no part. *)
Theorem search_finds_lattice_neighbours
        (w h : N) (ps : list Point) (i j : nat) (p : Point) :
  anchors ps = anchors (lattice w h) ->
  (i < cells w)%nat -> (j < cells h)%nat ->
  nth_error ps (i * cells h + j) = Some p ->
  find (is_right_neighbor p) ps
  = (if (S i <? cells w)%nat then nth_error ps (S i * cells h + j) else None)
  /\ find (is_bottom_neighbor p) ps
     = (if (S j <? cells h)%nat then nth_error ps (i * cells h + S j) else None).
Proof.
  intros Ha Hi Hj Hp.
  destruct (@laid_out_at w h ps _ _ _ Ha Hi Hj Hp) as [Hpx Hpy].
  split.
  - destruct (Nat.ltb_spec (S i) (cells w)) as [Hlt | Hge].
    + destruct (@laid_out_some w h ps _ _ Ha Hlt Hj) as [n Hn].
      destruct (@laid_out_at w h ps _ _ _ Ha Hlt Hj Hn) as [Hnx Hny].
      rewrite Hn. apply find_first with (k := (S i * cells h + j)%nat); trivial.
      * now apply (@right_neighbor_iff p n _ _ _ _ Hpx Hpy Hnx Hny).
      * intros k' b Hk' Hb.
        destruct (@laid_out_nth w h ps _ _ Ha Hb) as (i' & j' & Hi' & Hj' & -> & Hbx & Hby).
        destruct (is_right_neighbor p b) eqn:Hf; [| reflexivity].
        apply (@right_neighbor_iff p b _ _ _ _ Hpx Hpy Hbx Hby) in Hf as [-> ->]. lia.
    + apply find_none. intros b Hb.
      apply In_nth_error in Hb as [k Hk].
      destruct (@laid_out_nth w h ps _ _ Ha Hk) as (i' & j' & Hi' & Hj' & -> & Hbx & Hby).
      destruct (is_right_neighbor p b) eqn:Hf; [| reflexivity].
      apply (@right_neighbor_iff p b _ _ _ _ Hpx Hpy Hbx Hby) in Hf as [-> ->]. lia.
  - destruct (Nat.ltb_spec (S j) (cells h)) as [Hlt | Hge].
    + destruct (@laid_out_some w h ps _ _ Ha Hi Hlt) as [n Hn].
      destruct (@laid_out_at w h ps _ _ _ Ha Hi Hlt Hn) as [Hnx Hny].
      rewrite Hn. apply find_first with (k := (i * cells h + S j)%nat); trivial.
      * now apply (@bottom_neighbor_iff p n _ _ _ _ Hpx Hpy Hnx Hny).
      * intros k' b Hk' Hb.
        destruct (@laid_out_nth w h ps _ _ Ha Hb) as (i' & j' & Hi' & Hj' & -> & Hbx & Hby).
        destruct (is_bottom_neighbor p b) eqn:Hf; [| reflexivity].
        apply (@bottom_neighbor_iff p b _ _ _ _ Hpx Hpy Hbx Hby) in Hf as [-> ->]. lia.
    + apply find_none. intros b Hb.
      apply In_nth_error in Hb as [k Hk].
      destruct (@laid_out_nth w h ps _ _ Ha Hk) as (i' & j' & Hi' & Hj' & -> & Hbx & Hby).
      destruct (is_bottom_neighbor p b) eqn:Hf; [| reflexivity].
      apply (@bottom_neighbor_iff p b _ _ _ _ Hpx Hpy Hbx Hby) in Hf as [-> ->]. lia.
Qed.

Lemma search_finds_lattice_neighbours_witness :
  let ps := lattice 80 40 in
  let p := new_Point (-40 + INR 3 * 40) (-40 + INR 0 * 40) in
  anchors ps = anchors (lattice 80 40)
  /\ (3 < cells 80)%nat /\ (0 < cells 40)%nat
  /\ nth_error ps (3 * cells 40 + 0) = Some p
  /\ find (is_right_neighbor p) ps
     = (if (4 <? cells 80)%nat then nth_error ps (4 * cells 40 + 0) else None)
  /\ find (is_bottom_neighbor p) ps
     = (if (1 <? cells 40)%nat then nth_error ps (3 * cells 40 + 1) else None).
Proof.
  intros ps p.
  assert (H80 : (3 < cells 80)%nat) by (vm_compute; lia).
  assert (H40 : (0 < cells 40)%nat) by (vm_compute; lia).
  assert (Hp : nth_error ps (3 * cells 40 + 0) = Some p)
    by (apply lattice_nth; assumption).
  split; [reflexivity | split; [exact H80 | split; [exact H40 |]]].
  split; [exact Hp |].
  exact (@search_finds_lattice_neighbours 80 40 ps 3 0 p eq_refl H80 H40 Hp).
Defined.

End MeshProperties.

(* ================================================================== *)
(** * Trimming and matching *)

Section Strings.
Import Contact.

Lemma trimStart_spaces s :
  exists pre, s = pre ++ trimStart s /\ Forall (fun c => is_space c = true) pre.
Proof.
  induction s as [| c rest (pre & Heq & Hpre)]; simpl.
  - exists []. split; [reflexivity | constructor].
  - destruct (is_space c) eqn:Hc.
    + exists (c :: pre). split; [simpl; now f_equal | now constructor].
    + exists []. split; [reflexivity | constructor].
Qed.

Lemma trimStart_head s :
  match trimStart s with
  | c :: _ => is_space c = false
  | [] => True
  end.
Proof.
  induction s as [| c rest IH]; simpl; [exact I |].
  destruct (is_space c) eqn:Hc; [exact IH | exact Hc].
Qed.

Lemma trimStart_fixed s :
  match s with c :: _ => is_space c = false | [] => True end ->
  trimStart s = s.
Proof. destruct s as [| c rest]; simpl; [trivial |]. now intros ->. Qed.

Lemma trimStart_idem s : trimStart (trimStart s) = trimStart s.
Proof. apply trimStart_fixed, trimStart_head. Qed.

Lemma trimStart_all_spaces s :
  Forall (fun c => is_space c = true) s -> trimStart s = [].
Proof. induction 1 as [| c rest Hc _ IH]; simpl; [reflexivity |]. now rewrite Hc. Qed.

Lemma trimStart_nil_inv s :
  trimStart s = [] -> Forall (fun c => is_space c = true) s.
Proof.
  induction s as [| c rest IH]; simpl; [constructor |].
  destruct (is_space c) eqn:Hc; [| discriminate].
  intros H. constructor; auto.
Qed.

(** [trimStart] leaves the end of a string that does not vanish alone. *)
Lemma trimStart_app s t :
  trimStart s <> [] -> trimStart (s ++ t) = trimStart s ++ t.
Proof.
  induction s as [| c rest IH]; simpl; [congruence |].
  destruct (is_space c); [exact IH | reflexivity].
Qed.

Lemma trimEnd_spaces s :
  exists post, s = trimEnd s ++ post /\ Forall (fun c => is_space c = true) post.
Proof.
  unfold trimEnd. destruct (trimStart_spaces (rev s)) as (pre & Heq & Hpre).
  exists (rev pre). split.
  - rewrite <- (rev_involutive s), Heq at 1. now rewrite rev_app_distr.
  - now apply Forall_rev.
Qed.

Lemma trimEnd_last s :
  match rev (trimEnd s) with
  | c :: _ => is_space c = false
  | [] => True
  end.
Proof. unfold trimEnd. rewrite rev_involutive. apply trimStart_head. Qed.

Lemma trimEnd_head s :
  match s with c :: _ => is_space c = false | [] => True end ->
  match trimEnd s with c :: _ => is_space c = false | [] => True end.
Proof.
  destruct s as [| c rest]; [intros _; exact I |]. intros Hc.
  destruct (trimEnd_spaces (c :: rest)) as (post & Heq & Hpost).
  destruct (trimEnd (c :: rest)) as [| c' rest'] eqn:Ht.
  - exact I.
  - simpl in Heq. now injection Heq as <- _.
Qed.

Lemma trimEnd_nil_iff s :
  trimEnd s = [] <-> Forall (fun c => is_space c = true) s.
Proof.
  unfold trimEnd. split.
  - intros H. apply (f_equal (@rev N)) in H. rewrite rev_involutive in H.
    simpl in H. apply trimStart_nil_inv in H.
    rewrite <- (rev_involutive s). now apply Forall_rev.
  - intros H. rewrite trimStart_all_spaces; [reflexivity | now apply Forall_rev].
Qed.

Lemma trimEnd_fixed s :
  match rev s with c :: _ => is_space c = false | [] => True end ->
  trimEnd s = s.
Proof.
  intros H. unfold trimEnd. rewrite trimStart_fixed by exact H.
  apply rev_involutive.
Qed.

End Strings.

Section StringProperties.
Import Contact.

(** X14.  [trim] only takes white space off the two ends: the string is
    its trimmed form between a run of white space and another; the trimmed
    form neither begins nor ends with white space; it is empty exactly
    when the string holds nothing but white space; and trimming again
    changes nothing. *)
Theorem trim_takes_off_the_ends (s : jsstring) :
  (exists pre post,
      s = pre ++ trim s ++ post
      /\ Forall (fun c => is_space c = true) pre
      /\ Forall (fun c => is_space c = true) post)
  /\ match trim s with c :: _ => is_space c = false | [] => True end
  /\ match rev (trim s) with c :: _ => is_space c = false | [] => True end
  /\ (trim s = [] <-> Forall (fun c => is_space c = true) s)
  /\ trim (trim s) = trim s.
Proof.
  unfold trim.
  destruct (trimStart_spaces s) as (pre & Hpre & Fpre).
  destruct (trimEnd_spaces (trimStart s)) as (post & Hpost & Fpost).
  assert (Hhead : match trimEnd (trimStart s) with
                  | c :: _ => is_space c = false
                  | [] => True
                  end) by apply trimEnd_head, trimStart_head.
  assert (Hlast : match rev (trimEnd (trimStart s)) with
                  | c :: _ => is_space c = false
                  | [] => True
                  end) by apply trimEnd_last.
  split; [| split; [exact Hhead | split; [exact Hlast | split]]].
  - exists pre, post. split; [| now split].
    rewrite <- Hpost. exact Hpre.
  - rewrite trimEnd_nil_iff. split.
    + intros H. rewrite Hpre. apply Forall_app. now split.
    + intros H. rewrite trimStart_all_spaces by exact H. constructor.
  - rewrite (trimStart_fixed _ Hhead). now apply trimEnd_fixed.
Qed.

End StringProperties.

Section Matching.
Import Contact.

Lemma matches_never s : ~ Matches Never s.
Proof. intros H. inversion H. Qed.

Lemma matches_empty s : Matches Empty s <-> s = [].
Proof. split; [intros H; now inversion H | intros ->; constructor]. Qed.

Lemma matches_char p s : Matches (Class p) s <-> exists c, s = [c] /\ p c = true.
Proof.
  split.
  - intros H. inversion H; subst. eauto.
  - intros (c & -> & Hc). now constructor.
Qed.

Lemma matches_seq r1 r2 s :
  Matches (Seq r1 r2) s <->
  exists s1 s2, s = s1 ++ s2 /\ Matches r1 s1 /\ Matches r2 s2.
Proof.
  split.
  - intros H. inversion H; subst. eauto.
  - intros (s1 & s2 & -> & H1 & H2). now constructor.
Qed.

Lemma matches_or r1 r2 s :
  Matches (Or r1 r2) s <-> Matches r1 s \/ Matches r2 s.
Proof.
  split.
  - intros H. inversion H; subst; auto.
  - intros [H | H]; [now apply MOrL | now apply MOrR].
Qed.

Lemma matches_plus r s :
  Matches (Plus r) s <->
  exists s1 s2, s = s1 ++ s2 /\ Matches r s1 /\ Matches (Star r) s2.
Proof.
  split.
  - intros H. inversion H; subst. eauto.
  - intros (s1 & s2 & -> & H1 & H2). now constructor.
Qed.

Lemma matches_star r s :
  Matches (Star r) s <->
  s = [] \/ exists s1 s2, s = s1 ++ s2 /\ Matches r s1 /\ Matches (Star r) s2.
Proof.
  split.
  - intros H. inversion H; subst; [now left | right; eauto].
  - intros [-> | (s1 & s2 & -> & H1 & H2)]; now constructor.
Qed.

Lemma nullable_matches r : nullable r = true <-> Matches r [].
Proof.
  induction r as [| | p | r1 IH1 r2 IH2 | r1 IH1 r2 IH2 | r IH | r IH]; simpl.
  - split; [discriminate | intros H; now apply matches_never in H].
  - split; [constructor | reflexivity].
  - split; [discriminate |].
    intros H. apply matches_char in H as (c & Hc & _). discriminate.
  - rewrite andb_true_iff, IH1, IH2, matches_seq. split.
    + intros [H1 H2]. now exists [], [].
    + intros (s1 & s2 & Heq & H1 & H2). symmetry in Heq.
      apply app_eq_nil in Heq as [-> ->]. now split.
  - now rewrite orb_true_iff, IH1, IH2, matches_or.
  - split; [constructor | reflexivity].
  - rewrite IH, matches_plus. split.
    + intros H. exists [], []. repeat split; [exact H | constructor].
    + intros (s1 & s2 & Heq & H1 & _). symmetry in Heq.
      apply app_eq_nil in Heq as [-> _]. exact H1.
Qed.

Lemma matches_star_cons r c s :
  Matches (Star r) (c :: s) ->
  exists s1 s2, s = s1 ++ s2 /\ Matches r (c :: s1) /\ Matches (Star r) s2.
Proof.
  intros H. remember (Star r) as r' eqn:Hr. remember (c :: s) as t eqn:Ht.
  revert c s Ht.
  induction H; try discriminate.
  injection Hr as ->. intros c s Ht.
  destruct s1 as [| c1 s1'].
  - simpl in Ht. now apply IHMatches2.
  - simpl in Ht. injection Ht as -> <-. now exists s1', s2.
Qed.

Lemma deriv_matches r c s : Matches (deriv c r) s <-> Matches r (c :: s).
Proof.
  revert s.
  induction r as [| | p | r1 IH1 r2 IH2 | r1 IH1 r2 IH2 | r IH | r IH];
    intros s; simpl.
  - split; intros H; now apply matches_never in H.
  - split; intros H; [now apply matches_never in H |].
    apply matches_empty in H. discriminate.
  - rewrite matches_char. destruct (p c) eqn:Hp.
    + rewrite matches_empty. split.
      * intros ->. now exists c.
      * intros (c' & Heq & _). now injection Heq.
    + split; [intros H; now apply matches_never in H |].
      intros (c' & Heq & Hc'). injection Heq as -> _. congruence.
  - assert (Hseq : Matches (Seq (deriv c r1) r2) s <->
                   exists s1 s2, s = s1 ++ s2 /\ Matches r1 (c :: s1)
                                 /\ Matches r2 s2).
    { rewrite matches_seq. split; intros (s1 & s2 & Heq & H1 & H2);
        exists s1, s2; repeat split; trivial; now apply IH1. }
    assert (Hsplit : Matches (Seq r1 r2) (c :: s) <->
                     (exists s1 s2, s = s1 ++ s2 /\ Matches r1 (c :: s1)
                                    /\ Matches r2 s2)
                     \/ (Matches r1 [] /\ Matches r2 (c :: s))).
    { rewrite matches_seq. split.
      - intros (s1 & s2 & Heq & H1 & H2). destruct s1 as [| c1 s1'].
        + right. simpl in Heq. subst s2. now split.
        + left. simpl in Heq. injection Heq as <- ->. now exists s1', s2.
      - intros [(s1 & s2 & -> & H1 & H2) | [H1 H2]].
        + now exists (c :: s1), s2.
        + now exists [], (c :: s). }
    rewrite Hsplit.
    destruct (nullable r1) eqn:Hn.
    + rewrite matches_or, Hseq, IH2.
      assert (Matches r1 []) by now apply nullable_matches. tauto.
    + rewrite Hseq.
      assert (~ Matches r1 []) by (rewrite <- nullable_matches; congruence).
      tauto.
  - now rewrite !matches_or, IH1, IH2.
  - rewrite matches_seq. split.
    + intros (s1 & s2 & -> & H1 & H2). apply IH in H1.
      change (c :: s1 ++ s2) with ((c :: s1) ++ s2). now constructor.
    + intros H. apply matches_star_cons in H as (s1 & s2 & -> & H1 & H2).
      exists s1, s2. repeat split; trivial. now apply IH.
  - rewrite matches_seq, matches_plus. split.
    + intros (s1 & s2 & -> & H1 & H2). apply IH in H1.
      now exists (c :: s1), s2.
    + intros (s1 & s2 & Heq & H1 & H2). destruct s1 as [| c1 s1'].
      * simpl in Heq. subst s2.
        apply matches_star_cons in H2 as (t1 & t2 & -> & Ht1 & Ht2).
        exists t1, t2. repeat split; trivial. now apply IH.
      * simpl in Heq. injection Heq as <- ->.
        exists s1', s2. repeat split; trivial. now apply IH.
Qed.

Lemma test_matches re s : test re s = true <-> Matches re s.
Proof.
  unfold test. revert re; induction s as [| c rest IH]; intros re; simpl.
  - apply nullable_matches.
  - rewrite IH. apply deriv_matches.
Qed.

(** One or more characters of a class. *)
Lemma matches_star_class p s :
  Matches (Star (Class p)) s <-> Forall (fun c => p c = true) s.
Proof.
  split.
  - intros H. remember (Star (Class p)) as r eqn:Hr.
    induction H; try discriminate.
    + constructor.
    + injection Hr as ->. apply matches_char in H as (c & -> & Hc).
      simpl. constructor; auto.
  - induction 1 as [| c rest Hc _ IH]; [constructor |].
    change (c :: rest) with ([c] ++ rest). constructor; [now constructor | exact IH].
Qed.

Lemma matches_plus_class p s :
  Matches (Plus (Class p)) s <-> s <> [] /\ Forall (fun c => p c = true) s.
Proof.
  split.
  - intros H. apply matches_plus in H as (s1 & s2 & -> & H1 & H2).
    apply matches_char in H1 as (c & -> & Hc). simpl. split; [discriminate |].
    constructor; [assumption | now apply matches_star_class].
  - intros [Hne Hall]. destruct s as [| c rest]; [congruence |].
    inversion Hall; subst.
    change (c :: rest) with ([c] ++ rest).
    constructor; [now constructor | now apply matches_star_class].
Qed.

Lemma email_language s :
  Matches email_pattern s <->
  exists a b c,
    s = a ++ [0x40%N] ++ b ++ [0x2E%N] ++ c
    /\ a <> [] /\ b <> [] /\ c <> []
    /\ Forall (fun u => not_space_or_at u = true) (a ++ b ++ c).
Proof.
  unfold email_pattern. split.
  - intros H.
    apply matches_seq in H as (a & t1 & -> & Ha & H).
    apply matches_seq in H as (at_ & t2 & -> & Hat & H).
    apply matches_seq in H as (b & t3 & -> & Hb & H).
    apply matches_seq in H as (dot & c & -> & Hdot & Hc).
    apply matches_plus_class in Ha as [Hane Ha], Hb as [Hbne Hb], Hc as [Hcne Hc].
    apply matches_char in Hat as (u & -> & Hu), Hdot as (v & -> & Hv).
    apply N.eqb_eq in Hu, Hv. subst u v.
    exists a, b, c. repeat split; trivial.
    apply Forall_app; split; [exact Ha |]. apply Forall_app; now split.
  - intros (a & b & c & -> & Hane & Hbne & Hcne & Hall).
    apply Forall_app in Hall as [Ha Hall]. apply Forall_app in Hall as [Hb Hc].
    constructor; [now apply matches_plus_class |].
    constructor; [now constructor |].
    constructor; [now apply matches_plus_class |].
    constructor; [now constructor |].
    now apply matches_plus_class.
Qed.

End Matching.

Section MatchingProperties.
Import Contact.
Open Scope N_scope.

(** X15.  The test of a pattern by derivatives decides membership in the
    language of the pattern; and the address pattern accepts exactly the
    strings [a @ b . c] where [a], [b] and [c] are non-empty and hold
    neither white space nor [@]. *)
Theorem email_pattern_accepts (re : regex) (s : jsstring) :
  (test re s = true <-> Matches re s)
  /\ (test email_pattern s = true <->
      exists a b c,
        s = a ++ [0x40] ++ b ++ [0x2E] ++ c
        /\ a <> [] /\ b <> [] /\ c <> []
        /\ Forall (fun u => not_space_or_at u = true) (a ++ b ++ c)).
Proof.
  split; [apply test_matches |].
  rewrite test_matches. apply email_language.
Qed.

End MatchingProperties.

(* ================================================================== *)
(** * The submit listener, case by case *)

Section Submit.
Import Contact.

Ltac run_submit' :=
  unfold on_submit, try_finally, try_catch, emailjs_send, form_reset,
    button_text, button_disabled, status_textContent, status_color,
    bind, gets, modify, deref, ret, throw; simpl.

Lemma on_submit_refused reply pg s :
  statusEl pg = Some s -> accepted (values pg) = false ->
  exists msg,
    on_submit reply pg =
      (Normal tt,
       set_statusEl (Some {| textContent := msg; style_color := "#ef4444" |})
         (set_defaultPrevented pg))
    /\ (some_empty (values pg) = true /\ msg = "Please fill all fields."%string
        \/ some_empty (values pg) = false
           /\ msg = "Please enter a valid email address."%string).
Proof.
  intros Hs Ha. apply accepted_false_cases in Ha as [He | [He Hv]].
  - eexists. split; [now apply on_submit_empty with (s := s) | now left].
  - eexists. split; [now apply on_submit_invalid with (s := s) | now right].
Qed.

Lemma trimStart_pad pre s :
  Forall (fun c => is_space c = true) pre -> trimStart (pre ++ s) = trimStart s.
Proof. induction 1 as [| c rest Hc _ IH]; simpl; [reflexivity |]. now rewrite Hc. Qed.

Lemma trimEnd_pad s post :
  Forall (fun c => is_space c = true) post -> trimEnd (s ++ post) = trimEnd s.
Proof.
  intros H. unfold trimEnd. rewrite rev_app_distr, trimStart_pad; trivial.
  now apply Forall_rev.
Qed.

Lemma trim_pad pre s post :
  Forall (fun c => is_space c = true) pre ->
  Forall (fun c => is_space c = true) post ->
  trim (pre ++ s ++ post) = trim s.
Proof.
  intros Hpre Hpost. unfold trim. rewrite trimStart_pad by exact Hpre.
  destruct (trimStart s) as [| c rest] eqn:Hts.
  - apply trimStart_nil_inv in Hts.
    rewrite trimStart_all_spaces by (apply Forall_app; now split). reflexivity.
  - rewrite trimStart_app by (rewrite Hts; discriminate).
    rewrite Hts. now apply trimEnd_pad.
Qed.

End Submit.

Section SubmitProperties.
Import Contact.
Open Scope N_scope.

Lemma count_at_clean s :
  Forall (fun u => not_space_or_at u = true) s -> count_occ N.eq_dec s 0x40 = 0%nat.
Proof.
  induction 1 as [| u rest Hu _ IH]; [reflexivity |].
  simpl. destruct (N.eq_dec u 0x40) as [-> | _]; [discriminate Hu | exact IH].
Qed.

Lemma no_space_clean s :
  Forall (fun u => not_space_or_at u = true) s ->
  Forall (fun u => is_space u = false) s.
Proof.
  apply Forall_impl. intros u Hu. unfold not_space_or_at in Hu.
  apply negb_true_iff, orb_false_elim in Hu. tauto.
Qed.

(** X16.  An address the pattern accepts holds exactly one [@], no
    white space, and at least five characters. *)
Theorem accepted_address_shape (s : jsstring) :
  test email_pattern s = true ->
  count_occ N.eq_dec s 0x40 = 1%nat
  /\ Forall (fun u => is_space u = false) s
  /\ (5 <= List.length s)%nat.
Proof.
  intros H. apply test_matches, email_language in H.
  destruct H as (a & b & c & -> & Ha & Hb & Hc & Hall).
  apply Forall_app in Hall as [Fa Hall]. apply Forall_app in Hall as [Fb Fc].
  split; [| split].
  - rewrite !count_occ_app, (@count_at_clean a Fa), (@count_at_clean b Fb),
      (@count_at_clean c Fc).
    simpl. destruct (N.eq_dec 64 64); [| congruence].
    destruct (N.eq_dec 46 64); [discriminate | reflexivity].
  - repeat (apply Forall_app; split); try (now apply no_space_clean);
      repeat constructor.
  - rewrite !length_app. simpl.
    destruct a; [congruence |]. destruct b; [congruence |].
    destruct c; [congruence |]. simpl. lia.
Qed.

Lemma accepted_address_shape_witness :
  let s := lit "ada@example.org" in
  test email_pattern s = true
  /\ count_occ N.eq_dec s 0x40 = 1%nat
  /\ Forall (fun u => is_space u = false) s
  /\ (5 <= List.length s)%nat.
Proof.
  intros s.
  assert (H : test email_pattern s = true) by (vm_compute; reflexivity).
  split; [exact H |]. exact (@accepted_address_shape s H).
Defined.

(** X17.  When the values pass both checks and the status line and the
    submit button are there, the listener returns normally whatever the
    mail service answers, having made exactly one call (of the trimmed
    values, with [reply_to] the sender's address), and the button is back
    to its label and enabled.  If the promise resolved the form is reset to
    its defaults and the status line shows the success message in green;
    if it was rejected the form keeps what was typed, the error is logged
    to the console, and the status line shows the failure message in
    red. *)
Theorem submit_restores_button
        (reply : Reply) (pg : Page) (s : Status) (b : Button) :
  statusEl pg = Some s -> submitBtn pg = Some b ->
  accepted (values pg) = true ->
  let pg' := exec (on_submit reply) pg in
  returns (on_submit reply) pg
  /\ submitBtn pg' = Some {| button_textContent := button_textContent b;
                             disabled := false |}
  /\ sent pg' = sent pg ++ [the_send (values pg)]
  /\ reply_to (templateParams (the_send (values pg)))
     = from_email (templateParams (the_send (values pg)))
  /\ match reply with
     | Resolved =>
         values pg' = defaults pg /\ resets pg' = S (resets pg)
         /\ console pg' = console pg
         /\ statusEl pg' =
              Some {| textContent :=
                        "Message sent successfully! I'll get back to you soon.";
                      style_color := "#22c55e" |}
     | Rejected err =>
         values pg' = values pg /\ resets pg' = resets pg
         /\ console pg' = console pg ++ [("EmailJS error: " ++ err)%string]
         /\ statusEl pg' =
              Some {| textContent :=
                        "❌ Failed to send message. Please try again or email me directly.";
                      style_color := "#ef4444" |}
     end.
Proof.
  intros Hs Hb Ha pg'. unfold pg', exec, returns.
  destruct reply as [| err].
  - rewrite (@on_submit_resolved pg s b Hs Hb Ha). simpl.
    split; [now exists tt |]. repeat split.
  - rewrite (@on_submit_rejected err pg s b Hs Hb Ha). simpl.
    split; [now exists tt |]. repeat split.
Qed.

Lemma submit_restores_button_witness :
  let pg := sample_page " Ada " "ada@example.org" "Hello" in
  let pg' := exec (on_submit (Rejected "offline")) pg in
  accepted (values pg) = true
  /\ returns (on_submit (Rejected "offline")) pg
  /\ submitBtn pg' = Some {| button_textContent := "Send Message";
                             disabled := false |}
  /\ sent pg' = sent pg ++ [the_send (values pg)]
  /\ reply_to (templateParams (the_send (values pg)))
     = from_email (templateParams (the_send (values pg)))
  /\ values pg' = values pg /\ resets pg' = resets pg
  /\ console pg' = console pg ++ ["EmailJS error: offline"%string]
  /\ statusEl pg' =
       Some {| textContent :=
                 "❌ Failed to send message. Please try again or email me directly.";
               style_color := "#ef4444" |}.
Proof.
  intros pg pg'.
  assert (Ha : accepted (values pg) = true) by (vm_compute; reflexivity).
  split; [exact Ha |].
  exact (@submit_restores_button (Rejected "offline") pg _ _ eq_refl eq_refl Ha).
Defined.

(** X18.  If the page has no status line, a submit raises a TypeError at
    the first write to it and never calls the mail service or resets the
    form.  When the values fail a check this happens before anything else
    is touched; when they pass and the button is there, it happens after
    the button has been relabelled and disabled, and outside the [try], so
    the button stays disabled. *)
Theorem submit_without_status_line (reply : Reply) (pg : Page) :
  statusEl pg = None ->
  let pg' := exec (on_submit reply) pg in
  fst (on_submit reply pg) = Thrown "TypeError"
  /\ sent pg' = sent pg /\ values pg' = values pg /\ resets pg' = resets pg
  /\ statusEl pg' = None
  /\ submitBtn pg' =
       (if accepted (values pg)
        then match submitBtn pg with
             | Some _ => Some {| button_textContent := "Sending...";
                                 disabled := true |}
             | None => None
             end
        else submitBtn pg).
Proof.
  intros Hs pg'. unfold pg', exec.
  destruct (accepted (values pg)) eqn:Ha.
  - destruct (submitBtn pg) as [b |] eqn:Hb.
    + rewrite (@on_submit_no_status_accepted reply pg b Hs Hb Ha). simpl.
      repeat split; trivial.
    + rewrite (@on_submit_no_button reply pg Ha Hb). simpl.
      repeat split; trivial.
  - rewrite (@on_submit_no_status_refused reply pg Hs Ha). simpl.
    repeat split; trivial.
Qed.

Lemma submit_without_status_line_witness :
  let pg := set_statusEl None (sample_page "Ada" "ada@example.org" "Hello") in
  let pg' := exec (on_submit Resolved) pg in
  statusEl pg = None
  /\ fst (on_submit Resolved pg) = Thrown "TypeError"
  /\ sent pg' = sent pg /\ values pg' = values pg /\ resets pg' = resets pg
  /\ statusEl pg' = None
  /\ submitBtn pg' =
       (if accepted (values pg)
        then match submitBtn pg with
             | Some _ => Some {| button_textContent := "Sending...";
                                 disabled := true |}
             | None => None
             end
        else submitBtn pg).
Proof.
  intros pg pg'. split; [reflexivity |].
  exact (@submit_without_status_line Resolved pg eq_refl).
Defined.

(** X19.  Whatever the page and the answer of the mail service, a submit
    always cancels the browser's own submission, never changes the default
    values of the form, and calls the mail service at most once, with the
    trimmed values of the form; it calls it only if the values pass both
    checks. *)
Theorem submit_sends_at_most_once (reply : Reply) (pg : Page) :
  let pg' := exec (on_submit reply) pg in
  defaultPrevented pg' = true
  /\ defaults pg' = defaults pg
  /\ (sent pg' = sent pg
      \/ (accepted (values pg) = true
          /\ sent pg' = sent pg ++ [the_send (values pg)])).
Proof.
  intros pg'. unfold pg', exec.
  destruct (statusEl pg) as [s |] eqn:Hs.
  - destruct (accepted (values pg)) eqn:Ha.
    + destruct (submitBtn pg) as [b |] eqn:Hb.
      * destruct reply as [| err].
        -- rewrite (@on_submit_resolved pg s b Hs Hb Ha). simpl. auto.
        -- rewrite (@on_submit_rejected err pg s b Hs Hb Ha). simpl. auto.
      * rewrite (@on_submit_no_button reply pg Ha Hb). simpl. auto.
    + destruct (@on_submit_refused reply pg s Hs Ha) as (msg & -> & _).
      simpl. auto.
  - destruct (accepted (values pg)) eqn:Ha.
    + destruct (submitBtn pg) as [b |] eqn:Hb.
      * rewrite (@on_submit_no_status_accepted reply pg b Hs Hb Ha). simpl. auto.
      * rewrite (@on_submit_no_button reply pg Ha Hb). simpl. auto.
    + rewrite (@on_submit_no_status_refused reply pg Hs Ha). simpl. auto.
Qed.

(** X20.  A field that is missing from the form, empty, or filled with
    white space only counts as empty: the submit answers
    "Please fill all fields." in red, even when the address is not a valid
    one, and makes no call. *)
Theorem blank_field_is_empty (reply : Reply) (pg : Page) (s : Status) :
  statusEl pg = Some s ->
  Forall (fun c => is_space c = true) (or_empty (name (values pg)))
  \/ Forall (fun c => is_space c = true) (or_empty (email (values pg)))
  \/ Forall (fun c => is_space c = true) (or_empty (message (values pg))) ->
  let pg' := exec (on_submit reply) pg in
  statusEl pg' = Some {| textContent := "Please fill all fields.";
                         style_color := "#ef4444" |}
  /\ sent pg' = sent pg
  /\ values pg' = values pg.
Proof.
  intros Hs Hblank pg'.
  assert (Hnil : forall t, Forall (fun c => is_space c = true) t ->
                           is_empty (trim t) = true).
  { intros t Ht. unfold trim.
    rewrite trimStart_all_spaces by exact Ht. reflexivity. }
  assert (He : some_empty (values pg) = true).
  { unfold some_empty. destruct Hblank as [H | [H | H]];
      rewrite (Hnil _ H); now rewrite ?orb_true_r. }
  unfold pg', exec. rewrite (@on_submit_empty reply pg s Hs He). simpl. auto.
Qed.

Lemma blank_field_is_empty_witness :
  let pg := sample_page "   " "not an address" "Hello" in
  let pg' := exec (on_submit Resolved) pg in
  Forall (fun c => is_space c = true) (or_empty (name (values pg)))
  /\ statusEl pg' = Some {| textContent := "Please fill all fields.";
                            style_color := "#ef4444" |}
  /\ sent pg' = sent pg
  /\ values pg' = values pg.
Proof.
  intros pg pg'.
  assert (H : Forall (fun c => is_space c = true) (or_empty (name (values pg))))
    by (repeat constructor).
  split; [exact H |].
  exact (@blank_field_is_empty Resolved pg _ eq_refl (or_introl H)).
Defined.

(** X21.  White space around the value of a field never matters, nor
    whether an empty field is there at all: if the fields of two forms
    differ only by white space at the ends, both checks give the same
    verdict and the call made, if any, is the same. *)
Theorem padding_is_ignored (fd : Fields) (n e m : jsstring)
        (pre1 post1 pre2 post2 pre3 post3 : jsstring) :
  Forall (fun c => is_space c = true)
         (pre1 ++ post1 ++ pre2 ++ post2 ++ pre3 ++ post3) ->
  or_empty (name fd) = pre1 ++ n ++ post1 ->
  or_empty (email fd) = pre2 ++ e ++ post2 ->
  or_empty (message fd) = pre3 ++ m ++ post3 ->
  let bare := {| name := Some n; email := Some e; message := Some m |} in
  accepted fd = accepted bare /\ the_send fd = the_send bare.
Proof.
  intros Hall Hn He Hm bare.
  repeat (apply Forall_app in Hall as [? Hall]).
  unfold accepted, some_empty, the_send. simpl.
  rewrite Hn, He, Hm, !trim_pad by assumption. split; reflexivity.
Qed.

Lemma padding_is_ignored_witness :
  let fd := {| name := Some (lit "  Ada "); email := Some (lit "ada@example.org ");
               message := None |} in
  let bare := {| name := Some (lit "Ada"); email := Some (lit "ada@example.org");
                 message := Some [] |} in
  accepted fd = accepted bare /\ the_send fd = the_send bare.
Proof.
  intros fd bare.
  apply (@padding_is_ignored fd (lit "Ada") (lit "ada@example.org") []
           (lit "  ") (lit " ") [] (lit " ") [] []).
  - repeat constructor.
  - reflexivity.
  - reflexivity.
  - reflexivity.
Defined.

End SubmitProperties.

(* ================================================================== *)
(** * The small widgets *)

Section NavProperties.
Import Nav.

Lemma isOpen_String_of_bool b st' :
  aria_expanded st' = Some (String_of_bool b) -> isOpen st' = b.
Proof. unfold isOpen. intros ->. now destruct b. Qed.

Lemma toggle_in_sync st : in_sync (on_toggle_click st) = in_sync st.
Proof.
  unfold in_sync.
  rewrite (@isOpen_String_of_bool (negb (isOpen st)) (on_toggle_click st) eq_refl).
  simpl. now destruct (isOpen st), (show st).
Qed.

Lemma clicks_in_sync cs st : in_sync st = true -> in_sync (clicks cs st) = true.
Proof.
  revert st; induction cs as [| c rest IH]; intros st Hs; [exact Hs |].
  simpl. apply IH. destruct c; simpl; [now rewrite toggle_in_sync | reflexivity].
Qed.

(** X22.  The menu and its [aria-expanded] attribute move together: a
    click on the toggle flips both, so it keeps them in step if they were
    and out of step if they were not; a click on a link closes the menu
    and sets the attribute to "false", which puts them in step whatever
    they were; hence from a page where they agree they agree after any
    sequence of clicks.  After the first click the attribute is always
    "true" or "false". *)
Theorem nav_menu_stays_in_sync (cs : list Click) (st : State) :
  in_sync (on_toggle_click st) = in_sync st
  /\ show (on_toggle_click st) = negb (show st)
  /\ isOpen (on_toggle_click st) = negb (isOpen st)
  /\ in_sync (on_link_click st) = true
  /\ (in_sync st = true -> in_sync (clicks cs st) = true)
  /\ (cs <> [] ->
      aria_expanded (clicks cs st) = Some "true"%string
      \/ aria_expanded (clicks cs st) = Some "false"%string).
Proof.
  split; [apply toggle_in_sync |].
  split; [reflexivity |].
  split; [apply (@isOpen_String_of_bool (negb (isOpen st))); reflexivity |].
  split; [reflexivity |].
  split; [apply clicks_in_sync |].
  intros Hne.
  assert (Hgen : forall cs st,
             (aria_expanded st = Some "true"%string
              \/ aria_expanded st = Some "false"%string) ->
             aria_expanded (clicks cs st) = Some "true"%string
             \/ aria_expanded (clicks cs st) = Some "false"%string).
  { clear. induction cs as [| c rest IH]; intros st H; [exact H |].
    simpl. apply IH. destruct c; simpl; [| now right].
    destruct (isOpen st); simpl; auto. }
  destruct cs as [| c rest]; [congruence |].
  simpl. apply Hgen. destruct c; simpl; [| now right].
  destruct (isOpen st); simpl; auto.
Qed.

Lemma nav_menu_stays_in_sync_witness :
  let st := {| aria_expanded := None; show := false |} in
  let cs := [ToggleClick; ToggleClick; ToggleClick; LinkClick; ToggleClick] in
  in_sync st = true /\ cs <> []
  /\ in_sync (clicks cs st) = true
  /\ (aria_expanded (clicks cs st) = Some "true"%string
      \/ aria_expanded (clicks cs st) = Some "false"%string).
Proof.
  intros st cs.
  destruct (nav_menu_stays_in_sync cs st) as (_ & _ & _ & _ & Hsync & Hattr).
  assert (H0 : in_sync st = true) by reflexivity.
  assert (Hne : cs <> []) by discriminate.
  split; [exact H0 | split; [exact Hne |]].
  split; [exact (Hsync H0) | exact (Hattr Hne)].
Defined.

End NavProperties.

Section RotatorProperties.
Import Rotator.

Lemma ticks_present n st t :
  roleText st = Some t ->
  ticks (S n) st =
    {| idx := (idx st + S n) mod 4;
       roleText := Some (roles_at ((idx st + S n) mod 4)) |}.
Proof.
  intros Ht. induction n as [| n IH].
  - change (ticks 1 st) with (tick st). unfold tick. rewrite Ht.
    change (List.length roles) with 4%nat. reflexivity.
  - change (ticks (S (S n)) st) with (tick (ticks (S n) st)).
    rewrite IH. unfold tick. cbn [roleText idx].
    change (List.length roles) with 4%nat.
    rewrite Nat.Div0.add_mod_idemp_l.
    replace (idx st + S n + 1)%nat with (idx st + S (S n))%nat by lia.
    reflexivity.
Qed.

Lemma roles_at_in i : (i < 4)%nat -> In (roles_at i) roles.
Proof.
  intros Hi. unfold roles_at.
  do 4 (destruct i as [| i]; [simpl; tauto |]). lia.
Qed.

(** X23.  While the page has the [#roleText] element, the [n]-th tick
    (counting from 1) leaves the counter at [(idx + n) mod 4] and shows the
    role at that index, which is always one of the four roles and never
    [undefined]; the text comes back every four ticks; from the initial
    counter 0 the first tick shows "Frontend Developer".  If the element is
    missing a tick changes nothing, the counter included. *)
Theorem roles_rotate (n : nat) (st : State) :
  (forall t, roleText st = Some t ->
     idx (ticks (S n) st) = ((idx st + S n) mod 4)%nat
     /\ roleText (ticks (S n) st) = Some (roles_at ((idx st + S n) mod 4))
     /\ In (roles_at ((idx st + S n) mod 4)) roles
     /\ ticks (S n + 4) st = ticks (S n) st
     /\ (idx st = 0%nat ->
         roleText (ticks 1 st) = Some "Frontend Developer"%string))
  /\ (roleText st = None -> ticks n st = st).
Proof.
  split.
  - intros t Ht.
    pose proof (@ticks_present n st t Ht) as Hn.
    split; [now rewrite Hn |]. split; [now rewrite Hn |].
    split; [apply roles_at_in, Nat.mod_upper_bound; lia |].
    split.
    + replace (S n + 4)%nat with (S (n + 4)) by lia.
      rewrite (@ticks_present (n + 4) st t Ht), Hn.
      replace (idx st + S (n + 4))%nat with (idx st + S n + 1 * 4)%nat by lia.
      now rewrite Nat.Div0.mod_add.
    + intros H0. rewrite (@ticks_present 0 st t Ht), H0. reflexivity.
  - intros Hnone. induction n as [| n IH]; [reflexivity |].
    simpl. rewrite IH. unfold tick. now rewrite Hnone.
Qed.

Lemma roles_rotate_witness :
  let st := {| idx := 0; roleText := Some "Web Developer"%string |} in
  roleText st = Some "Web Developer"%string
  /\ idx (ticks 7 st) = 3%nat
  /\ roleText (ticks 7 st) = Some "Student Developer"%string
  /\ ticks (7 + 4) st = ticks 7 st
  /\ roleText (ticks 1 st) = Some "Frontend Developer"%string.
Proof.
  intros st.
  destruct (proj1 (roles_rotate 6 st) _ eq_refl) as (Hi & Ht & _ & Hp & Hf).
  split; [reflexivity |].
  split; [exact Hi | split; [exact Ht | split; [exact Hp | exact (Hf eq_refl)]]].
Defined.

End RotatorProperties.

(* ================================================================== *)
(** * Project search and filter *)

Section ProjectFilter.
Import Contact Projects.
Open Scope N_scope.

Lemma starts_with_spec q s :
  starts_with q s = true <-> exists post, s = q ++ post.
Proof.
  revert s; induction q as [| a q' IH]; intros s; simpl.
  - split; [intros _; now exists s | reflexivity].
  - destruct s as [| b s'].
    + split; [discriminate | intros (post & H); discriminate].
    + rewrite andb_true_iff, N.eqb_eq, IH. split.
      * intros [-> (post & ->)]. now exists post.
      * intros (post & H). injection H as -> ->. split; [reflexivity | now exists post].
Qed.

Lemma includes_spec s q :
  includes s q = true <-> exists pre post, s = pre ++ q ++ post.
Proof.
  induction s as [| c rest IH]; simpl.
  - rewrite orb_false_r, starts_with_spec. split.
    + intros (post & H). now exists [], post.
    + intros (pre & post & H). symmetry in H.
      apply app_eq_nil in H as [-> H]. apply app_eq_nil in H as [-> ->].
      now exists [].
  - rewrite orb_true_iff, starts_with_spec, IH. split.
    + intros [(post & H) | (pre & post & ->)].
      * now exists [], post.
      * now exists (c :: pre), post.
    + intros (pre & post & H). destruct pre as [| c' pre'].
      * left. now exists post.
      * right. simpl in H. injection H as _ ->. now exists pre', post.
Qed.

Lemma string_eqb_spec a b : string_eqb a b = true <-> a = b.
Proof.
  revert b; induction a as [| x a' IH]; intros [| y b']; simpl;
    try (split; [discriminate | discriminate]); [tauto |].
  rewrite andb_true_iff, N.eqb_eq, IH. split.
  - now intros [-> ->].
  - intros H. injection H as -> ->. now split.
Qed.

Lemma array_includes_spec tags f : array_includes tags f = true <-> In f tags.
Proof.
  unfold array_includes. rewrite existsb_exists. split.
  - intros (t & Hin & Heq). apply string_eqb_spec in Heq. now subst.
  - intros Hin. exists f. split; [exact Hin | now apply string_eqb_spec].
Qed.

Lemma includes_nil s : includes s [] = true.
Proof. apply includes_spec. now exists [], s. Qed.

Lemma includes_trans t q' q :
  includes t q' = true -> includes q' q = true -> includes t q = true.
Proof.
  rewrite !includes_spec.
  intros (pre & post & ->) (pre' & post' & ->).
  exists (pre ++ pre'), (post' ++ post). now rewrite <- !app_assoc.
Qed.

Lemma split_nonempty sep s : split sep s <> [].
Proof.
  destruct s as [| c rest]; simpl; [discriminate |].
  destruct (c =? sep); [discriminate |].
  destruct (split sep rest); discriminate.
Qed.

Lemma split_pieces sep s :
  Forall (fun piece => ~ In sep piece) (split sep s).
Proof.
  induction s as [| c rest IH]; simpl.
  - constructor; [tauto | constructor].
  - destruct (N.eqb_spec c sep) as [-> | Hne].
    + constructor; [tauto | exact IH].
    + destruct (split sep rest) as [| piece more]; [repeat constructor; simpl; tauto |].
      inversion IH; subst. constructor; [| assumption].
      simpl. intros [H | H]; [now apply Hne | contradiction].
Qed.

End ProjectFilter.

Section ProjectFilterProperties.
Import Contact Projects.
Open Scope N_scope.

Variable toLowerCase : jsstring -> jsstring.


(** X25.  With the query blank (search box missing, empty or holding
    white space only) and no filter chosen (filter missing, empty or
    "all"), every card of the grid is shown; this takes that lower-casing
    the empty string gives the empty string. *)
Theorem blank_filters_show_all (pg : Page) (cards : list Card) :
  toLowerCase [] = [] ->
  grid pg = Some cards ->
  Forall (fun c => is_space c = true) (or_default (search pg) []) ->
  or_default (filter pg) all = all ->
  exists cards',
    grid (applyProjectFilters toLowerCase pg) = Some cards'
    /\ List.length cards' = List.length cards
    /\ Forall (fun card => display card = ""%string) cards'.
Proof.
  intros Hlow Hg Hblank Hf.
  unfold applyProjectFilters. rewrite Hg. simpl.
  eexists. split; [reflexivity |]. split; [apply length_map |].
  apply Forall_forall. intros card' Hin.
  apply in_map_iff in Hin as (card & <- & _).
  unfold query, wanted. rewrite Hf.
  unfold trim. rewrite trimStart_all_spaces by exact Hblank.
  change (trimEnd []) with (@nil N). rewrite Hlow. reflexivity.
Qed.

(** X26.  Typing more can only hide cards: if the query of one page occurs
    in the query of another (as when characters are added to the search
    box) and the two pages have the same filter, every card shown for the
    longer query is shown for the shorter one. *)
Theorem longer_query_hides_more (q q' f : jsstring) (card : Card) :
  includes q' q = true ->
  display (filter_card toLowerCase q' f card) = ""%string ->
  display (filter_card toLowerCase q f card) = ""%string.
Proof.
  intros Hsub. unfold filter_card. simpl.
  destruct (string_eqb f all || array_includes _ f); [| now rewrite !andb_false_r].
  rewrite !andb_true_r.
  destruct (is_empty q') eqn:He'.
  - destruct q'; [| discriminate].
    apply includes_spec in Hsub as (pre & post & H). symmetry in H.
    apply app_eq_nil in H as [_ H]. apply app_eq_nil in H as [-> _].
    intros _. reflexivity.
  - simpl. destruct (includes (toLowerCase (innerText card)) q') eqn:Hin;
      [| discriminate].
    intros _. rewrite (includes_trans _ _ _ Hin Hsub). now rewrite orb_true_r.
Qed.


End ProjectFilterProperties.

Section ProjectFilterExamples.
Import Contact Projects.
Open Scope N_scope.

Lemma blank_filters_show_all_witness :
  let pg := {| search := Some (lit "  "); filter := None;
               grid := Some [ {| innerText := lit "Portfolio";
                                 data_tags := Some (lit "html css");
                                 display := "none" |} ] |} in
  exists cards',
    grid (applyProjectFilters (fun s => s) pg) = Some cards'
    /\ List.length cards' = 1%nat
    /\ Forall (fun card => display card = ""%string) cards'.
Proof.
  intros pg.
  apply (@blank_filters_show_all (fun s => s) pg
           [ {| innerText := lit "Portfolio"; data_tags := Some (lit "html css");
                display := "none" |} ]).
  - reflexivity.
  - reflexivity.
  - repeat constructor.
  - reflexivity.
Defined.

Lemma longer_query_hides_more_witness :
  let card := {| innerText := lit "a weather app"; data_tags := Some (lit "js api");
                 display := "" |} in
  includes (lit "weather") (lit "wea") = true
  /\ display (filter_card (fun s => s) (lit "weather") (lit "js") card) = ""%string
  /\ display (filter_card (fun s => s) (lit "wea") (lit "js") card) = ""%string.
Proof.
  intros card.
  assert (H1 : includes (lit "weather") (lit "wea") = true) by (vm_compute; reflexivity).
  assert (H2 : display (filter_card (fun s => s) (lit "weather") (lit "js") card)
               = ""%string) by (vm_compute; reflexivity).
  split; [exact H1 | split; [exact H2 |]].
  exact (@longer_query_hides_more (fun s => s) (lit "wea") (lit "weather") (lit "js")
           card H1 H2).
Defined.

End ProjectFilterExamples.

Section ProjectFilterEdge.
Import Contact Projects.
Open Scope N_scope.

Variable toLowerCase : jsstring -> jsstring.

(** X28.  The tags of a card are the pieces between the spaces of its
    attribute, so no tag holds a space: a filter value with a space in it
    (other than the value "all" itself) hides every card, whatever the
    query and the tags. *)
Theorem filter_with_space_hides_all (q f : jsstring) (card : Card) :
  In 0x20 f ->
  display (filter_card toLowerCase q f card) = "none"%string.
Proof.
  intros Hsp. unfold filter_card. simpl.
  assert (Hall : string_eqb f all = false).
  { destruct (string_eqb f all) eqn:He; [| reflexivity].
    apply string_eqb_spec in He. subst f.
    simpl in Hsp. destruct Hsp as [H | [H | [H | []]]]; discriminate. }
  assert (Htag : array_includes
                   (split 32 (toLowerCase (or_default (data_tags card) []))) f
                 = false).
  { destruct (array_includes _ f) eqn:Ha; [| reflexivity].
    apply array_includes_spec in Ha.
    pose proof (split_pieces 32 (toLowerCase (or_default (data_tags card) [])))
      as Hp.
    rewrite Forall_forall in Hp. now apply Hp in Ha. }
  rewrite Hall, Htag. now rewrite andb_false_r.
Qed.

End ProjectFilterEdge.

Section ProjectFilterEdgeExamples.
Import Contact Projects.
Open Scope N_scope.

Lemma filter_with_space_hides_all_witness :
  let card := {| innerText := lit "a weather app"; data_tags := Some (lit "web app");
                 display := "" |} in
  In 0x20 (lit "web app")
  /\ display (filter_card (fun s => s) [] (lit "web app") card) = "none"%string.
Proof.
  intros card.
  assert (H : In 0x20 (lit "web app")) by (vm_compute; tauto).
  split; [exact H |].
  exact (@filter_with_space_hides_all (fun s => s) [] (lit "web app") card H).
Defined.

End ProjectFilterEdgeExamples.

(* ================================================================== *)
(** * The script from top to bottom *)

Section ScriptProperties.
Import Script.

Lemma links_logged n a (m : M (list Setup) unit) l l' :
  m l = (Normal tt, l') ->
  fold_left (fun m k => bind m (fun _ => log (LinkListener k))) (seq a n) m l
  = (Normal tt, l' ++ map LinkListener (seq a n)).
Proof.
  revert a m l'; induction n as [| n IH]; intros a m l' Hm; simpl.
  - now rewrite app_nil_r.
  - rewrite IH with (l' := l' ++ [LinkListener a]).
    + now rewrite <- app_assoc.
    + unfold bind, log, modify. now rewrite Hm.
Qed.

Lemma script_run d :
  script d [] =
    if has_year d then
      if has_emailjs d then
        (Normal tt,
         setup_before_year d ++ [YearWritten; RotatorStarted]
         ++ (if has_search d then [SearchListener] else [])
         ++ (if has_filter d then [FilterListener] else [])
         ++ [EmailjsInit]
         ++ (if has_form d then [SubmitListener] else []))
      else
        (Thrown "ReferenceError",
         setup_before_year d ++ [YearWritten; RotatorStarted]
         ++ (if has_search d then [SearchListener] else [])
         ++ (if has_filter d then [FilterListener] else []))
    else (Thrown "TypeError", setup_before_year d).
Proof.
  unfold script, setup_before_year, when.
  set (nav := if has_toggle d && has_menu d
              then bind (log ToggleListener)
                     (fun _ => fold_left
                                 (fun m k => bind m (fun _ => log (LinkListener k)))
                                 (seq 0 (menu_links d)) (ret tt))
              else ret tt).
  assert (Hnav : forall l,
             nav l = (Normal tt,
                      l ++ (if has_toggle d && has_menu d
                            then ToggleListener
                                 :: map LinkListener (seq 0 (menu_links d))
                            else []))).
  { intros l. unfold nav. destruct (has_toggle d && has_menu d).
    - unfold bind at 1. unfold log at 1, modify.
      rewrite links_logged with (l' := l ++ [ToggleListener]) by reflexivity.
      now rewrite <- app_assoc.
    - unfold ret. now rewrite app_nil_r. }
  unfold bind at 1.
  assert (Hc : (if has_canvas d then log GridStarted else ret tt) []
               = (Normal tt, if has_canvas d then [GridStarted] else [])).
  { destruct (has_canvas d); reflexivity. }
  rewrite Hc. unfold bind at 1. rewrite Hnav.
  set (l0 := (if has_canvas d then [GridStarted] else []) ++ _).
  destruct (has_year d); [| reflexivity].
  unfold bind, log, modify, throw, ret.
  destruct (has_search d), (has_filter d), (has_emailjs d), (has_form d);
    simpl; rewrite <- ?app_assoc; reflexivity.
Qed.

Lemma not_in_before_year d x :
  match x with
  | GridStarted | ToggleListener | LinkListener _ => False
  | _ => True
  end ->
  ~ In x (setup_before_year d).
Proof.
  intros Hx Hin. unfold setup_before_year in Hin.
  apply in_app_or in Hin as [Hin | Hin].
  - destruct (has_canvas d); simpl in Hin; [| tauto].
    destruct Hin as [<- | []]. exact Hx.
  - destruct (has_toggle d && has_menu d); simpl in Hin; [| tauto].
    destruct Hin as [<- | Hin]; [exact Hx |].
    apply in_map_iff in Hin as (k & <- & _). exact Hx.
Qed.

(** X29.  The script runs its blocks in order and an exception ends it.
    If the page has no [#year] element it stops at the footer line with a
    TypeError, after the grid and the nav have been set up: the role
    rotator is never started and neither the project filters nor the
    contact form get their listeners.  If [#year] is there but the global
    [emailjs] is not defined it stops with a ReferenceError at
    [emailjs.init]: the rotator runs and the filters work, but the form
    has no submit listener.  Otherwise it runs to the end, and the form
    gets its listener exactly when there is a form. *)
Theorem script_stops_at_first_error (d : Dom) :
  (has_year d = false ->
   fst (script d []) = Thrown "TypeError"
   /\ snd (script d []) = setup_before_year d
   /\ Forall (fun x => ~ In x (snd (script d [])))
             [YearWritten; RotatorStarted; SearchListener; FilterListener;
              EmailjsInit; SubmitListener])
  /\ (has_year d = true -> has_emailjs d = false ->
      fst (script d []) = Thrown "ReferenceError"
      /\ In RotatorStarted (snd (script d []))
      /\ ~ In SubmitListener (snd (script d [])))
  /\ (has_year d = true -> has_emailjs d = true ->
      fst (script d []) = Normal tt
      /\ In RotatorStarted (snd (script d []))
      /\ (In SubmitListener (snd (script d [])) <-> has_form d = true)).
Proof.
  rewrite script_run.
  split; [| split].
  - intros ->. simpl. split; [reflexivity | split; [reflexivity |]].
    repeat constructor; now apply not_in_before_year.
  - intros -> ->. simpl. split; [reflexivity | split].
    + apply in_or_app. right. simpl. tauto.
    + intros Hin. apply in_app_or in Hin as [Hin | Hin].
      * now apply (@not_in_before_year d SubmitListener).
      * destruct (has_search d), (has_filter d); simpl in Hin;
          intuition discriminate.
  - intros -> ->. simpl. split; [reflexivity | split].
    + apply in_or_app. right. simpl. tauto.
    + split.
      * intros Hin. apply in_app_or in Hin as [Hin | Hin].
        -- now apply (@not_in_before_year d SubmitListener) in Hin.
        -- destruct (has_form d); [reflexivity |].
           destruct (has_search d), (has_filter d); simpl in Hin;
             intuition discriminate.
      * intros ->. apply in_or_app. right.
        destruct (has_search d), (has_filter d); simpl; tauto.
Qed.

Lemma script_stops_at_first_error_witness :
  let d := {| has_canvas := true; has_toggle := true; has_menu := true;
              menu_links := 4; has_year := false; has_search := true;
              has_filter := true; has_form := true; has_emailjs := true |} in
  has_year d = false
  /\ fst (script d []) = Thrown "TypeError"
  /\ snd (script d []) = setup_before_year d
  /\ Forall (fun x => ~ In x (snd (script d [])))
            [YearWritten; RotatorStarted; SearchListener; FilterListener;
             EmailjsInit; SubmitListener].
Proof.
  intros d. split; [reflexivity |].
  exact (proj1 (script_stops_at_first_error d) eq_refl).
Defined.

End ScriptProperties.

(* ================================================================== *)
(** * The breathing grid stays put *)

Section Breathing.
Import Renderer.
Open Scope R_scope.

(** One frame of the spring on one axis, pulled towards an anchor that has
    drifted by [delta]: the energy shrinks by more than a twentieth, up to
    a constant. *)
Lemma spring_energy_forced e v delta :
  delta * delta <= 25 ->
  let v' := (v + (delta - e) * 0.05) * 0.9 in
  spring_energy (e + v') v' <= 0.945 * spring_energy e v + 1.1.
Proof.
  intros Hd v'.
  pose proof (spring_energy_step e v) as Hstep. cbv zeta in Hstep.
  set (v0 := (v + - e * 0.05) * 0.9) in *.
  pose proof (spring_energy_nonneg (0.05 * (e + v0) - delta * 0.045)
                                   (0.05 * v0 - delta * 0.045)) as Hsq.
  assert (Hv : v' = v0 + 0.045 * delta) by (unfold v', v0; lra).
  rewrite Hv. unfold spring_energy in *. nra.
Qed.

Lemma spring_energy_near e v : spring_energy e v <= 20 -> -22 <= e <= 22.
Proof.
  intros H. pose proof (spring_energy_lower e v) as Hlow.
  split; nra.
Qed.

Lemma drift_sqr a : (sin a * 5) * (sin a * 5) <= 25 /\ (cos a * 5) * (cos a * 5) <= 25.
Proof.
  pose proof (SIN_bound a) as Hs. pose proof (COS_bound a) as Hc. split; nra.
Qed.

Lemma update_far mX mY now p :
  influence config <= cursor_distance mX mY p ->
  let dX := sin (IZR now * 0.001 + originY p * 0.05) * 5 in
  let dY := cos (IZR now * 0.001 + originX p * 0.05) * 5 in
  update mX mY now p =
    {| originX := originX p; originY := originY p;
       x := x p + (vx p + (originX p + dX - x p) * 0.05) * 0.9;
       y := y p + (vy p + (originY p + dY - y p) * 0.05) * 0.9;
       vx := (vx p + (originX p + dX - x p) * 0.05) * 0.9;
       vy := (vy p + (originY p + dY - y p) * 0.05) * 0.9 |}.
Proof.
  intros Hfar dX dY. unfold update, update_with.
  rewrite (repel_far _ _ _ Hfar). reflexivity.
Qed.

Lemma drift_run_origin clock n p :
  originX (drift_run clock n p) = originX p
  /\ originY (drift_run clock n p) = originY p.
Proof.
  induction n as [| n [IHx IHy]]; [split; reflexivity |].
  simpl. destruct (update_with_origin 5 sentinel sentinel (clock n)
                     (drift_run clock n p)) as [Hx Hy].
  unfold update. rewrite Hx, Hy. now split.
Qed.

End Breathing.

Section BreathingProperties.
Import Renderer.
Open Scope R_scope.

(** X30.  The animation as the script runs it, drift included, is stable:
    with the cursor at the sentinel, a point whose anchor is at least 22
    units to the right of the sentinel's reach and whose energy is at most
    20 on each axis (as it is at rest at its anchor) keeps that bound
    for ever, whatever the clock reads: it is never repelled and never
    strays more than 22 units from its anchor on either axis. *)
Theorem undisturbed_point_stays_near_anchor (clock : nat -> Z) (p : Point) :
  sentinel + influence config + 22 <= originX p ->
  spring_energy (x p - originX p) (vx p) <= 20 ->
  spring_energy (y p - originY p) (vy p) <= 20 ->
  forall n,
    let q := drift_run clock n p in
    spring_energy (x q - originX p) (vx q) <= 20
    /\ spring_energy (y q - originY p) (vy q) <= 20
    /\ -22 <= x q - originX p <= 22
    /\ -22 <= y q - originY p <= 22
    /\ influence config <= cursor_distance sentinel sentinel q.
Proof.
  intros Hox Hex Hey.
  assert (Hinv : forall n,
             spring_energy (x (drift_run clock n p) - originX p)
                           (vx (drift_run clock n p)) <= 20
             /\ spring_energy (y (drift_run clock n p) - originY p)
                              (vy (drift_run clock n p)) <= 20).
  { induction n as [| n [IHx IHy]]; [now split |].
    destruct (drift_run_origin clock n p) as [Ox Oy].
    pose proof (@spring_energy_near _ _ IHx) as Hnx.
    assert (Hfar : influence config
                   <= cursor_distance sentinel sentinel (drift_run clock n p))
      by (apply far_left_of; lra).
    simpl drift_run. rewrite (@update_far sentinel sentinel (clock n) _ Hfar). cbv zeta. simpl.
    set (q := drift_run clock n p) in *. rewrite Ox, Oy.
    destruct (drift_sqr (IZR (clock n) * 0.001 + originY p * 0.05)) as [Hsx _].
    destruct (drift_sqr (IZR (clock n) * 0.001 + originX p * 0.05)) as [_ Hcy].
    pose proof (@spring_energy_forced (x q - originX p) (vx q) _ Hsx) as Hfx.
    pose proof (@spring_energy_forced (y q - originY p) (vy q) _ Hcy) as Hfy.
    cbv zeta in Hfx, Hfy.
    split.
    - eapply Rle_trans; [| apply Rle_trans with (0.945 * 20 + 1.1); [| lra]].
      + match goal with
        | |- spring_energy ?a ?b <= _ =>
            replace a with
              (x q - originX p
               + (vx q + (sin (IZR (clock n) * 0.001 + originY p * 0.05) * 5
                          - (x q - originX p)) * 0.05) * 0.9) by lra;
            replace b with
              ((vx q + (sin (IZR (clock n) * 0.001 + originY p * 0.05) * 5
                        - (x q - originX p)) * 0.05) * 0.9) by lra
        end.
        exact Hfx.
      + lra.
    - eapply Rle_trans; [| apply Rle_trans with (0.945 * 20 + 1.1); [| lra]].
      + match goal with
        | |- spring_energy ?a ?b <= _ =>
            replace a with
              (y q - originY p
               + (vy q + (cos (IZR (clock n) * 0.001 + originX p * 0.05) * 5
                          - (y q - originY p)) * 0.05) * 0.9) by lra;
            replace b with
              ((vy q + (cos (IZR (clock n) * 0.001 + originX p * 0.05) * 5
                        - (y q - originY p)) * 0.05) * 0.9) by lra
        end.
        exact Hfy.
      + lra. }
  intros n q. destruct (Hinv n) as [Hx Hy]. fold q in Hx, Hy.
  pose proof (@spring_energy_near _ _ Hx) as Hnx.
  pose proof (@spring_energy_near _ _ Hy) as Hny.
  split; [exact Hx | split; [exact Hy | split; [exact Hnx | split; [exact Hny |]]]].
  apply far_left_of. lra.
Qed.

Lemma undisturbed_point_stays_near_anchor_witness :
  let clock := fun k : nat => (1700000000000 + 16 * Z.of_nat k)%Z in
  let p := new_Point 0 0 in
  let q := drift_run clock 600 p in
  spring_energy (x q - originX p) (vx q) <= 20
  /\ spring_energy (y q - originY p) (vy q) <= 20
  /\ -22 <= x q - originX p <= 22
  /\ -22 <= y q - originY p <= 22
  /\ influence config <= cursor_distance sentinel sentinel q.
Proof.
  intros clock p.
  refine (@undisturbed_point_stays_near_anchor clock p _ _ _ 600%nat).
  - unfold sentinel, p; simpl; lra.
  - unfold spring_energy, p; simpl; lra.
  - unfold spring_energy, p; simpl; lra.
Defined.

End BreathingProperties.
